(** * dsl-parser: a shallow embedding of the lexer, the table builder,
      the parse runtime and the visitor harness

    The definitions follow the sources function by function: the parser
    and the lexer that works on line tokens ([split], [splitOffside],
    [next], [lex]) from [lib/Parser.ts], the earlier lexer that works on
    the input text from [lib/Lexer.ts], the visitor from [lib/Visitor.ts].

    Conventions of the embedding.
    - A JavaScript string is a [string]; its characters stand for code
      units below 256.
    - An object used as a dictionary whose enumeration order is observed
      ([RuleSet], walked by [for (const key in rules)]) is an association
      list in own-property enumeration order; one that is only read and
      written by key ([first], [follow], a row of the action table, the
      lexer's [activeTerminals]) is a [gmap string _].
    - A [Set<string>] is a duplicate-free list in insertion order, which is
      the order in which JavaScript iterates it.
    - A match array is its matched text and its capture groups; a token is
      compared on its type, match array, index and line.
    - A read [first[k]] or [follow[k]] is the total lookup [!!!]: the keys
      that are read have been given a set by the initialisation (lemmas
      [first_defined], [follow_defined] and [item_key_defined]).
    - An exception is [Throw e]; a loop that has not finished when its fuel
      is spent is [Timeout].
    - Symbol names are taken to differ from the members every object
      inherits from [Object.prototype] and from the text "undefined", so
      that a dictionary read finds an own property or nothing. *)

From Stdlib Require Import Ascii String.
From stdpp Require Import base option list strings gmap pretty.

Set Warnings "-register-all".

Open Scope string_scope.
Open Scope list_scope.
Open Scope nat_scope.

(** ** Outcomes of fallible code *)

Inductive error :=
  | Error_ (message : string)                        (* new Error(message) *)
  | TypeError (message : string)                     (* raised by the engine *)
  | AssertionError (message : string)                (* assert(cond, message) *)
  | ParseError (message : string) (line index : nat) (* new ParseError(...) *).

Inductive outcome (A : Type) :=
  | Ok (a : A)
  | Throw (e : error)
  | Timeout.
Arguments Ok {A} a.
Arguments Throw {A} e.
Arguments Timeout {A}.

#[global] Instance outcome_ret : MRet outcome := @Ok.
#[global] Instance outcome_bind : MBind outcome := λ A B f m,
  match m with
  | Ok a => f a
  | Throw e => Throw e
  | Timeout => Timeout
  end.

#[global] Instance error_eq_dec : EqDecision error.
Proof. solve_decision. Defined.

(** [foldM f a l] threads an accumulator through [l], stopping at the first
    exception: the shape of a [for ... of] loop whose body may throw. *)
Fixpoint foldM {A B} (f : A → B → outcome A) (a : A) (l : list B) : outcome A :=
  match l with
  | [] => Ok a
  | b :: l' => a' ← f a b; foldM f a' l'
  end.

(** [let changed = true; while (changed) { changed = false; ... }]: [pass]
    is one turn of the loop and tells whether it changed anything. *)
Fixpoint while_changed {X} (fuel : nat) (pass : X → X * bool) (x : X) : outcome X :=
  match fuel with
  | 0 => Timeout
  | S fuel =>
      let '(x, changed) := pass x in
      if changed then while_changed fuel pass x else Ok x
  end.

(** ** Grammar data *)

Definition Rule := list string.
Definition RuleSet := list (string * list Rule).

Record DottedRule := mkDotted { key : string; children : Rule; dot : nat }.

#[global] Instance DottedRule_eq_dec : EqDecision DottedRule.
Proof. solve_decision. Defined.

(** An element of a [cameFrom] array: an index, a hole of the sparse array
    (read back as [undefined]), or the [null] that JSON puts in a hole's
    place. *)
Inductive cfval := cf_hole | cf_null | cf_idx (n : nat).

#[global] Instance cfval_eq_dec : EqDecision cfval.
Proof. solve_decision. Defined.

Inductive Action :=
  | shift (goto : nat) (cameFrom : list cfval)
  | reduce (key : string) (rule : nat)
  | accept (key : string).

#[global] Instance Action_eq_dec : EqDecision Action.
Proof. solve_decision. Defined.

Definition action_type (a : Action) : string :=
  match a with
  | shift _ _ => "shift"
  | reduce _ _ => "reduce"
  | accept _ => "accept"
  end.

Abbreviation Row := (gmap string Action).
Definition ActionTable := list Row.

(** [rules.hasOwnProperty(k)] and [rules[k]]. *)
Fixpoint rules_get (rules : RuleSet) (k : string) : option (list Rule) :=
  match rules with
  | [] => None
  | (k', rs) :: rest => if decide (k' = k) then Some rs else rules_get rest k
  end.

Definition hasOwn (rules : RuleSet) (k : string) : bool :=
  bool_decide (is_Some (rules_get rules k)).

(** ** Sets of strings in insertion order *)

Definition set_add (s : list string) (x : string) : list string :=
  if decide (x ∈ s) then s else s ++ [x].

(** [new Set([...a, ...b])] *)
Definition Set_new (l : list string) : list string := foldl set_add [] l.
Definition set_union (a b : list string) : list string := Set_new (a ++ b).

(** ** Quantifier helpers *)

Fixpoint last_char (s : string) : option ascii :=
  match s with
  | EmptyString => None
  | String c EmptyString => Some c
  | String _ s' => last_char s'
  end.

(** [el.slice(0, -1)] *)
Fixpoint slice_init (s : string) : string :=
  match s with
  | EmptyString => EmptyString
  | String _ EmptyString => EmptyString
  | String c s' => String c (slice_init s')
  end.

Definition is_char (o : option ascii) (c : ascii) : bool :=
  match o with Some c' => bool_decide (c' = c) | None => false end.

Definition base (el : string) : string :=
  let c := last_char el in
  if is_char c "+" || is_char c "*" || is_char c "?" then slice_init el else el.

Definition canOmit (el : string) : bool :=
  let c := last_char el in is_char c "*" || is_char c "?".

Definition canRepeat (el : string) : bool :=
  let c := last_char el in is_char c "+" || is_char c "*".

(** ** FIRST and FOLLOW *)

Abbreviation SetMap := (gmap string (list string)).

Definition first_init_el (first : SetMap) (el : string) : SetMap :=
  let el := base el in
  match first !! el with
  | Some _ => first
  | None => <[el := [el]]> first
  end.

Definition first_init (rules : RuleSet) : SetMap :=
  foldl (λ first '(key, rs),
           foldl (foldl first_init_el) (<[key := []]> first) rs)
        ∅ rules.

(** The loop over the elements of one rule, left at the first element that
    cannot be omitted. *)
Fixpoint first_rule (key : string) (first : SetMap) (rule : Rule) : SetMap :=
  match rule with
  | [] => first
  | el :: rest =>
      let first := <[key := set_union (first !!! key) (first !!! base el)]> first in
      if canOmit el then first_rule key first rest else first
  end.

Definition first_pass (rules : RuleSet) (first : SetMap) : SetMap * bool :=
  foldl (λ '(first, changed) '(key, rs),
           let prevSize := length (first !!! key) in
           let first := foldl (first_rule key) first rs in
           (first, changed || bool_decide (prevSize < length (first !!! key))))
        (first, false) rules.

Definition first (fuel : nat) (rules : RuleSet) : outcome SetMap :=
  while_changed fuel (first_pass rules) (first_init rules).

(** The scan [for (let j = i + 1; j <= rule.length; j++)] over the elements
    that come after position [i]. *)
Fixpoint follow_scan (first : SetMap) (key el : string) (follow : SetMap)
    (rest : Rule) : SetMap :=
  match rest with
  | [] => <[el := set_union (follow !!! el) (follow !!! key)]> follow
  | e :: rest' =>
      let follow := <[el := set_union (follow !!! el) (first !!! base e)]> follow in
      if canOmit e then follow_scan first key el follow rest' else follow
  end.

Definition follow_el (rules : RuleSet) (first : SetMap) (key : string)
    (acc : SetMap * bool) (e : string) (rest : Rule) : SetMap * bool :=
  let '(follow, changed) := acc in
  let el := base e in
  if hasOwn rules el then
    let prevSize := length (follow !!! el) in
    let follow :=
      if canRepeat e then <[el := set_union (follow !!! el) (first !!! el)]> follow
      else follow in
    let follow := follow_scan first key el follow rest in
    (follow, changed || bool_decide (prevSize < length (follow !!! el)))
  else acc.

(** The loop [for (let i = 0; i < rule.length; i++)], on the suffix of the
    rule that starts at [i]. *)
Fixpoint follow_rule (rules : RuleSet) (first : SetMap) (key : string)
    (acc : SetMap * bool) (rule : Rule) : SetMap * bool :=
  match rule with
  | [] => acc
  | e :: rest => follow_rule rules first key (follow_el rules first key acc e rest) rest
  end.

Definition follow_pass (rules : RuleSet) (first : SetMap) (follow : SetMap)
    : SetMap * bool :=
  foldl (λ acc '(key, rs), foldl (follow_rule rules first key) acc rs)
        (follow, false) rules.

Definition follow_init (rules : RuleSet) : SetMap :=
  foldl (λ follow '(key, _), <[key := []]> follow) ∅ rules.

Definition follow (fuel : nat) (rules : RuleSet) (start : string) : outcome SetMap :=
  let follow := follow_init rules in
  match follow !! start with
  | None => Throw (TypeError "Cannot read properties of undefined (reading 'add')")
  | Some s =>
      let follow := <[start := set_add s "$"]> follow in
      first ← first fuel rules;
      while_changed fuel (follow_pass rules first) follow
  end.

(** ** Items, closure and goto *)

(** The loop of [skipOmit], on the elements from position [i] on. *)
Fixpoint skipOmit_from (k : string) (ch : Rule) (i : nat) (rest : Rule)
    : list DottedRule :=
  match rest with
  | [] => []
  | e :: rest' =>
      if canOmit e then mkDotted k ch (S i) :: skipOmit_from k ch (S i) rest'
      else []
  end.

Definition skipOmit (root : DottedRule) : list DottedRule :=
  root :: skipOmit_from (key root) (children root) (dot root)
            (drop (dot root) (children root)).

(** [if (!ruleSet.find(r => deepEqual(r, nextRule))) ruleSet.push(nextRule)] *)
Definition push_new (ruleSet : list DottedRule) (nextRule : DottedRule)
    : list DottedRule :=
  if decide (nextRule ∈ ruleSet) then ruleSet else ruleSet ++ [nextRule].

(** The body of the loop of [closure] for one item of the working list. *)
Definition closure_expand (rules : RuleSet) (ruleSet : list DottedRule)
    (rule : DottedRule) : list DottedRule :=
  match children rule !! dot rule with
  | None => ruleSet
  | Some e =>
      let nt := base e in
      match rules_get rules nt with
      | None => ruleSet
      | Some rs =>
          foldl (λ ruleSet ch, foldl push_new ruleSet (skipOmit (mkDotted nt ch 0)))
                ruleSet rs
      end
  end.

(** [for (const rule of ruleSet)] over an array that grows while it is
    walked: [p] is the position of the iterator. *)
Fixpoint closure_loop (fuel : nat) (rules : RuleSet) (ruleSet : list DottedRule)
    (p : nat) : outcome (list DottedRule) :=
  match fuel with
  | 0 => Timeout
  | S fuel =>
      match ruleSet !! p with
      | None => Ok ruleSet
      | Some rule => closure_loop fuel rules (closure_expand rules ruleSet rule) (S p)
      end
  end.

Definition closure (fuel : nat) (rules : RuleSet) (root : DottedRule)
    : outcome (list DottedRule) :=
  closure_loop fuel rules (skipOmit root) 0.

(** [`${rule.children}`] is [rule.children.join(",")]. *)
Definition conflict_message (rule : DottedRule) (kind1 kind2 : string) : string :=
  "Rule " +:+ key rule +:+ " - " +:+ String.concat "," (children rule)
    +:+ " is part of a " +:+ kind1 +:+ "/" +:+ kind2 +:+ " conflict".

(** Reading and writing the sparse array [cameFrom]. *)
Definition cf_lookup (cameFrom : list cfval) (i : nat) : cfval :=
  default cf_hole (cameFrom !! i).

Definition arr_set (cameFrom : list cfval) (n : nat) (v : cfval) : list cfval :=
  if decide (n < length cameFrom) then <[n := v]> cameFrom
  else cameFrom ++ replicate (n - length cameFrom) cf_hole ++ [v].

(** The body of the loop over the closure of the advanced item. *)
Definition goto_add (rule : DottedRule) (i : nat) (trackedRules : list DottedRule)
    (acc : list DottedRule * list cfval) (nextRule : DottedRule)
    : outcome (list DottedRule * list cfval) :=
  let '(output, cameFrom) := acc in
  let trackCameFrom := bool_decide (nextRule ∈ trackedRules) in
  match list_find (λ r, r = nextRule) output with
  | None =>
      Ok (output ++ [nextRule],
          if trackCameFrom then arr_set cameFrom (length output) (cf_idx i)
          else cameFrom)
  | Some (ruleIndex, _) =>
      let c := cf_lookup cameFrom ruleIndex in
      if (trackCameFrom && bool_decide (c ≠ cf_idx i))
         || (negb trackCameFrom && bool_decide (c ≠ cf_hole))
      then Throw (Error_ (conflict_message rule "reduce" "reduce"))
      else Ok acc
  end.

(** One round of [for (let j = 1; j >= 0; j--)]. *)
Definition goto_advance (fuel : nat) (rules : RuleSet) (rule : DottedRule)
    (i j : nat) (acc : list DottedRule * list cfval)
    : outcome (list DottedRule * list cfval) :=
  let baseRule := mkDotted (key rule) (children rule) (dot rule + j) in
  let trackedRules := skipOmit baseRule in
  cl ← closure fuel rules baseRule;
  foldM (goto_add rule i trackedRules) acc cl.

Definition goto_rule (fuel : nat) (rules : RuleSet) (el : string)
    (acc : list DottedRule * list cfval) (ir : nat * DottedRule)
    : outcome (list DottedRule * list cfval) :=
  let '(i, rule) := ir in
  match children rule !! dot rule with
  | None => Ok acc
  | Some e =>
      if decide (base e = el) then
        acc ← goto_advance fuel rules rule i 1 acc;
        if canRepeat e then goto_advance fuel rules rule i 0 acc else Ok acc
      else Ok acc
  end.

Definition goto (fuel : nat) (rules : RuleSet) (ruleSet : list DottedRule)
    (el : string) : outcome (list DottedRule * list cfval) :=
  foldM (goto_rule fuel rules el) ([], []) (imap pair ruleSet).

(** ** The table builder *)

Abbreviation State := (list DottedRule).

(** The loop [for (const el of follow[rule.key])] of a finished item. *)
Definition table_reduce (rule : DottedRule) (j : nat) (row : Row) (el : string)
    : outcome Row :=
  match row !! el with
  | Some a => Throw (Error_ (conflict_message rule (action_type a) "reduce"))
  | None => Ok (<[el := reduce (key rule) j]> row)
  end.

(** The body of the loop over the items of state [st]; [acc] holds the
    collection of states and the row under construction. *)
Definition table_item (fuel : nat) (rules : RuleSet) (start : string)
    (follow : SetMap) (st : State) (acc : list State * Row)
    (jr : nat * DottedRule) : outcome (list State * Row) :=
  let '(states, row) := acc in
  let '(j, rule) := jr in
  if decide (dot rule = length (children rule)) then
    if decide (key rule = start) then
      match row !! "$" with
      | Some a => Throw (Error_ (conflict_message rule (action_type a) "reduce"))
      | None => Ok (states, <["$" := accept start]> row)
      end
    else
      row ← foldM (table_reduce rule j) row (follow !!! key rule);
      Ok (states, row)
  else
    match children rule !! dot rule with
    | None => Ok acc (* the dot of an item never lies beyond its rule *)
    | Some e =>
        let el := base e in
        match row !! el with
        | Some a =>
            if decide (action_type a = "shift") then Ok acc
            else Throw (Error_ (conflict_message rule "shift" (action_type a)))
        | None =>
            '(gotoState, cameFrom) ← goto fuel rules st el;
            match list_find (λ s, s = gotoState) states with
            | Some (gotoStateIndex, _) =>
                Ok (states, <[el := shift gotoStateIndex cameFrom]> row)
            | None =>
                Ok (states ++ [gotoState],
                    <[el := shift (length states) cameFrom]> row)
            end
        end
    end.

(** [for (let i = 0; i < states.length; i++)]; [i] is the number of rows
    built so far, and [fuel] bounds this loop while [ifuel] is handed to the
    loops inside. *)
Fixpoint buildTable_loop (fuel ifuel : nat) (rules : RuleSet) (start : string)
    (follow : SetMap) (states : list State) (actionTable : ActionTable)
    : outcome (list State * ActionTable) :=
  match fuel with
  | 0 => Timeout
  | S fuel =>
      match states !! length actionTable with
      | None => Ok (states, actionTable)
      | Some st =>
          '(states, row) ←
            foldM (table_item ifuel rules start follow st) (states, ∅) (imap pair st);
          buildTable_loop fuel ifuel rules start follow states (actionTable ++ [row])
      end
  end.

(** The table together with the collection of states it was built from. *)
Definition buildTable_states (fuel : nat) (rules : RuleSet) (start : string)
    : outcome (list State * ActionTable) :=
  st0 ← closure fuel rules (mkDotted start [start] 0);
  follow ← follow fuel rules start;
  buildTable_loop fuel fuel rules start follow [st0] [].

Definition buildTable (fuel : nat) (rules : RuleSet) (start : string)
    : outcome ActionTable :=
  '(_, actionTable) ← buildTable_states fuel rules start;
  Ok actionTable.

(** ** Tokens, trees and the lexer *)

(** A match array: the matched text and the capture groups. *)
Definition RegExpMatchArray := (string * list (option string))%type.

(** A pattern compiled with the sticky flag, as the constructor of [Lexer]
    compiles every terminal: [p input index] is the value of
    [input.match(p)] once [p.lastIndex] has been set to [index]. *)
Definition RegExp := string → nat → option RegExpMatchArray.

Record Terminal := mkTerminal { ttype : string; pattern : RegExp }.

Record LexTree := mkLex {
  type : string;
  match_ : RegExpMatchArray;
  index : nat;
  line : nat
}.

#[global] Instance LexTree_eq_dec : EqDecision LexTree.
Proof. solve_decision. Defined.

(** [ParseTree | LexTree] *)
Inductive Tree :=
  | Leaf (t : LexTree)
  | Node (ntype : string) (nchildren : list Tree).

Definition tree_type (t : Tree) : string :=
  match t with Leaf l => type l | Node k _ => k end.

(** [token.match[0]] *)
Definition match0 (t : LexTree) : string := fst (match_ t).

(** What [if (v)] makes of a value of the dictionary handed to [next]. *)
Class Truthy (V : Type) := truthy : V → bool.
#[global] Instance Action_truthy : Truthy Action := λ _, true.
#[global] Instance nat_truthy : Truthy nat := λ n, negb (Nat.eqb n 0).
#[global] Instance bool_truthy : Truthy bool := λ b, b.

Module Lexer.

(** The constructor keeps the terminals unless one of them is named "$". *)
Definition new (terminals : list Terminal) : outcome (list Terminal) :=
  if bool_decide (Exists (λ t, ttype t = "$") terminals)
  then Throw (AssertionError "The terminal type '$' is a reserved keyword")
  else Ok terminals.

Section next.
Context {V : Type} `{Truthy V}.

(** [!activeTerminals || activeTerminals[terminal.type] ||
    terminal.type === "whitespace"] *)
Definition attempted (activeTerminals : option (gmap string V))
    (terminal : Terminal) : bool :=
  match activeTerminals with
  | None => true
  | Some active =>
      match active !! ttype terminal with
      | Some v => truthy v
      | None => false
      end
  end
  || bool_decide (ttype terminal = "whitespace").

Fixpoint next_scan (terminals : list Terminal) (token : LexTree) (index0 : nat)
    (activeTerminals : option (gmap string V)) : outcome LexTree :=
  match terminals with
  | [] =>
      Throw (ParseError "Lexer failed to recognize symbol"
               (line token) (index token + index0))
  | terminal :: rest =>
      if attempted activeTerminals terminal then
        match pattern terminal (match0 token) index0 with
        | Some m => Ok (mkLex (ttype terminal) m (index token + index0) (line token))
        | None => next_scan rest token index0 activeTerminals
        end
      else next_scan rest token index0 activeTerminals
  end.

Definition next (terminals : list Terminal) (token : LexTree) (index0 : nat)
    (activeTerminals : option (gmap string V)) : outcome LexTree :=
  if decide (String.length (match0 token) ≤ index0)
  then Ok (mkLex "$" ("", []) (index token + index0) (line token))
  else next_scan terminals token index0 activeTerminals.
End next.

(** The inner loop of [lex] on one unknown token. *)
Fixpoint lex_line (fuel : nat) (terminals : list Terminal) (token : LexTree)
    (index0 : nat) (output : list LexTree) : outcome (list LexTree) :=
  match fuel with
  | 0 => Timeout
  | S fuel =>
      lexToken ← next (V := Action) terminals token index0 None;
      if decide (type lexToken = "$") then Ok output
      else lex_line fuel terminals token
             (index0 + String.length (match0 lexToken)) (output ++ [lexToken])
  end.

Definition lex (fuel : nat) (terminals : list Terminal) (tokens : list LexTree)
    : outcome (list LexTree) :=
  foldM (λ output token,
           if decide (type token = "unknown")
           then lex_line fuel terminals token 0 output
           else Ok (output ++ [token]))
        [] tokens.

(** [input.split(/\r?\n/)]; [cur] is the line read so far. *)
Fixpoint split_lines (input cur : string) : list string :=
  match input with
  | EmptyString => [cur]
  | String c rest =>
      if decide (c = "010"%char) then cur :: split_lines rest ""
      else
        match rest with
        | String c' rest' =>
            if decide (c = "013"%char ∧ c' = "010"%char)
            then cur :: split_lines rest' ""
            else split_lines rest (cur +:+ String c "")
        | EmptyString => [cur +:+ String c ""]
        end
  end.

(** A comment pattern is used through [comment.test(line)] only; it is
    taken without the global and sticky flags, with which [test] would
    depend on the calls made before. *)
Definition is_comment (comment : option (string → bool)) (l : string) : bool :=
  match comment with None => false | Some c => c l end.

Definition kept_lines (input : string) (comment : option (string → bool))
    : list string :=
  filter (λ l, is_comment comment l = false) (split_lines input "").

Definition unknown (str : string) (l : nat) : LexTree := mkLex "unknown" (str, []) 0 l.

(** The token pushed last: its position is read from the last line. *)
Definition marker (ty : string) (lines : list string) : outcome LexTree :=
  match last lines with
  | None => Throw (TypeError "Cannot read properties of undefined (reading 'length')")
  | Some l => Ok (mkLex ty ("", []) (String.length l) (length lines - 1))
  end.

Definition split (input : string) (comment : option (string → bool))
    : outcome (list LexTree) :=
  let lines := kept_lines input comment in
  eof ← marker "$" lines;
  Ok (imap (λ l str, unknown str l) lines ++ [eof]).

(** JavaScript's [\s] on code units below 256. *)
Definition is_space (c : ascii) : bool :=
  let n := nat_of_ascii c in
  bool_decide (n = 9 ∨ n = 10 ∨ n = 11 ∨ n = 12 ∨ n = 13 ∨ n = 32 ∨ n = 160).

(** [line.match(/\S/)]: the index of the first character that is not
    white space, counted from [i]. *)
Fixpoint first_nonspace (s : string) (i : nat) : option nat :=
  match s with
  | EmptyString => None
  | String c s' => if is_space c then first_nonspace s' (S i) else Some i
  end.

(** The array [level] is kept with its last element, the top of the
    stack, at the head of the list. *)
Fixpoint offside_pop (c i : nat) (output : list LexTree) (level : list nat)
    : list LexTree * list nat :=
  match level with
  | top :: level' =>
      if decide (c < top)
      then offside_pop c i (output ++ [mkLex "dedent" ("", []) c i]) level'
      else (output, level)
  | [] => (output, level)
  end.

(** [c > level[level.length - 1]], false on an empty stack. *)
Definition above_top (c : nat) (level : list nat) : bool :=
  match head level with Some top => bool_decide (top < c) | None => false end.

Definition offside_line (acc : list LexTree * list nat) (il : nat * string)
    : outcome (list LexTree * list nat) :=
  let '(output, level) := acc in
  let '(i, str) := il in
  '(output, level) ←
    match first_nonspace str 0 with
    | None => Ok (output, level)
    | Some c =>
        if above_top c level
        then Ok (output ++ [mkLex "indent" ("", []) c i], c :: level)
        else
          let '(output, level) := offside_pop c i output level in
          if decide (head level = Some c) then Ok (output, level)
          else Throw (ParseError "Invalid indentation detected" i c)
    end;
  Ok (output ++ [unknown str i], level).

(** [while (0 < level[level.length - 1])] *)
Fixpoint offside_close (lines : list string) (output : list LexTree)
    (level : list nat) : outcome (list LexTree) :=
  match level with
  | top :: level' =>
      if decide (0 < top) then
        d ← marker "dedent" lines;
        offside_close lines (output ++ [d]) level'
      else Ok output
  | [] => Ok output
  end.

Definition splitOffside (input : string) (comment : option (string → bool))
    : outcome (list LexTree) :=
  let lines := kept_lines input comment in
  '(output, level) ← foldM offside_line ([], [0]) (imap pair lines);
  output ← offside_close lines output level;
  eof ← marker "$" lines;
  Ok (output ++ [eof]).

End Lexer.

(** ** The lexer of [lib/Lexer.ts]

    The earlier lexer, whose [next] and [lex] take the text of the input
    and which ends the tokens of a text with the end marker. *)

Module TextLexer.

Fixpoint next_scan (terminals : list Terminal) (input : string)
    (index0 line0 : nat) : option LexTree :=
  match terminals with
  | [] => None
  | terminal :: rest =>
      match pattern terminal input index0 with
      | Some m => Some (mkLex (ttype terminal) m index0 line0)
      | None => next_scan rest input index0 line0
      end
  end.

(** [None] is the [undefined] that falls out of the function. *)
Definition next (terminals : list Terminal) (input : string)
    (index0 line0 : nat) : option LexTree :=
  if decide (String.length input ≤ index0)
  then Some (mkLex "$" ("", []) (String.length input) line0)
  else next_scan terminals input index0 line0.

Fixpoint lex_loop (fuel : nat) (terminals : list Terminal) (input : string)
    (index0 line0 : nat) (output : list LexTree) : outcome (list LexTree) :=
  match fuel with
  | 0 => Timeout
  | S fuel =>
      match next terminals input index0 line0 with
      | None =>
          Throw (Error_ ("Lexer failed to recognize symbol at "
                         +:+ pretty (line0 + 1) +:+ ":" +:+ pretty (index0 + 1)))
      | Some token =>
          if decide (type token = "$") then Ok (output ++ [token])
          else lex_loop fuel terminals input
                 (index0 + String.length (match0 token)) line0 (output ++ [token])
      end
  end.

Definition lex (fuel : nat) (terminals : list Terminal) (input : string)
    (index0 line0 : nat) : outcome (list LexTree) :=
  lex_loop fuel terminals input index0 line0 [].

(** The body of the loop of [lexOffside] over the lines: the offside rule,
    without a check of the column reached, then the tokens of the line,
    whose end marker is kept aside in [terminateToken]. *)
Definition lexOffside_line (fuel : nat) (terminals : list Terminal)
    (acc : list LexTree * list nat * option LexTree) (il : nat * string)
    : outcome (list LexTree * list nat * option LexTree) :=
  let '(output, level, _) := acc in
  let '(i, str) := il in
  let '(output, level) :=
    match Lexer.first_nonspace str 0 with
    | None => (output, level)
    | Some c =>
        if Lexer.above_top c level
        then (output ++ [mkLex "indent" ("", []) c i], c :: level)
        else Lexer.offside_pop c i output level
    end in
  tokens ← lex fuel terminals str 0 i;
  Ok (output ++ removelast tokens, level, last tokens).

(** [while (0 < level[level.length - 1])], with the position of
    [terminateToken]. *)
Fixpoint lexOffside_close (terminateToken : LexTree) (output : list LexTree)
    (level : list nat) : list LexTree :=
  match level with
  | top :: level' =>
      if decide (0 < top) then
        lexOffside_close terminateToken
          (output ++ [mkLex "dedent" ("", []) (index terminateToken) (line terminateToken)])
          level'
      else output
  | [] => output
  end.

Definition lexOffside (fuel : nat) (terminals : list Terminal) (input : string)
    : outcome (list LexTree) :=
  let lines := Lexer.split_lines input "" in
  '(output, level, terminateToken) ←
    foldM (lexOffside_line fuel terminals) ([], [0], None) (imap pair lines);
  match terminateToken with
  | Some t => Ok (lexOffside_close t output level ++ [t])
  | None =>
      (* [split] gives at least one line *)
      Throw (TypeError "Cannot read properties of undefined")
  end.

End TextLexer.

(** ** The parse runtime *)

Record pstate := mkP {
  symbolStack : list Tree;
  readStack : list (list (option nat));
  stateStack : list nat;
  lexToken : option LexTree;
  pindex : nat;   (* index *)
  pi : nat        (* i *)
}.

Definition pstate_init : pstate := mkP [] [[]] [0] None 0 0.

(** [l.splice(-n)]: what stays and what is removed.  A count that is
    [undefined] or zero gives the start index 0, which removes everything. *)
Definition splice_last {A} (n : option nat) (l : list A) : list A * list A :=
  let start := match n with Some (S n') => length l - S n' | _ => 0 end in
  (take start l, drop start l).

(** [readStack[readStack.length - 1][rule]] with a numeric [rule]. *)
Definition read_count (top : list (option nat)) (rule : nat) : option nat :=
  mjoin (top !! rule).

Definition undefined_read : error :=
  TypeError "Cannot read properties of undefined".

(** One call of the arrow function of [action.cameFrom.map(...)]; [map]
    leaves the holes of a sparse array alone. *)
Definition read_next (top : option (list (option nat))) (v : cfval)
    : outcome (option nat) :=
  match v with
  | cf_hole => Ok None
  | cf_null =>
      match top with
      | None => Throw undefined_read
      | Some _ => Ok (Some 1)
      end
  | cf_idx rule =>
      match top with
      | None => Throw undefined_read
      | Some t => Ok (Some (default 0 (read_count t rule) + 1))
      end
  end.

Fixpoint read_entry (top : option (list (option nat))) (cameFrom : list cfval)
    : outcome (list (option nat)) :=
  match cameFrom with
  | [] => Ok []
  | v :: rest =>
      x ← read_next top v;
      xs ← read_entry top rest;
      Ok (x :: xs)
  end.

(** [this.actionTable[stateStack[stateStack.length - 1]]] *)
Definition current_row (actionTable : ActionTable) (stateStack : list nat)
    : option Row :=
  last stateStack ≫= λ s, actionTable !! s.

(** The two lines after the [switch]: push the new read counts and the
    goto state. *)
Definition push_goto (st : pstate) (goto : nat) (cameFrom : list cfval)
    : outcome pstate :=
  entry ← read_entry (last (readStack st)) cameFrom;
  Ok (mkP (symbolStack st) (readStack st ++ [entry]) (stateStack st ++ [goto])
          (lexToken st) (pindex st) (pi st)).

(** The part of the loop body that follows the lexing of the token. *)
Definition parse_action (actionTable : ActionTable) (st : pstate) (token : LexTree)
    : outcome (pstate + Tree) :=
  if decide (type token = "whitespace") then
    Ok (inl (mkP (symbolStack st) (readStack st) (stateStack st) None (pindex st)
                 (if lexToken st is Some _ then pi st else pi st + 1)))
  else
    match current_row actionTable (stateStack st) with
    | None => Throw undefined_read
    | Some row =>
        match row !! type token with
        | None =>
            Throw (ParseError "Parser failed to parse symbol" (line token) (index token))
        | Some (shift goto cameFrom) =>
            st' ← push_goto
                    (mkP (symbolStack st ++ [Leaf token]) (readStack st) (stateStack st)
                         None (pindex st) (if lexToken st is Some _ then pi st else pi st + 1))
                    goto cameFrom;
            Ok (inl st')
        | Some (reduce k rule) =>
            match last (readStack st) with
            | None => Throw undefined_read
            | Some top =>
                let symbolsRead := read_count top rule in
                let '(symbols, popped) := splice_last symbolsRead (symbolStack st) in
                let parent := Node k popped in
                let reads := (splice_last symbolsRead (readStack st)).1 in
                let states := (splice_last symbolsRead (stateStack st)).1 in
                match current_row actionTable states with
                | None => Throw undefined_read
                | Some row' =>
                    match row' !! k with
                    | Some (shift goto cameFrom) =>
                        st' ← push_goto
                                (mkP (symbols ++ [parent]) reads states
                                     (lexToken st) (pindex st) (pi st))
                                goto cameFrom;
                        Ok (inl st')
                    | _ => Throw undefined_read
                    end
                end
            end
        | Some (accept k) => Ok (inr (Node k (symbolStack st)))
        end
    end.

(** One turn of the loop [for (let i = 0; true;)]. *)
Definition parse_step (actionTable : ActionTable) (lexer : list Terminal)
    (tokens : list LexTree) (st : pstate) : outcome (pstate + Tree) :=
  match lexToken st with
  | Some token => parse_action actionTable st token
  | None =>
      match tokens !! pi st with
      | None => Throw undefined_read
      | Some token =>
          if decide (type token = "unknown") then
            lexed ← Lexer.next lexer token (pindex st)
                      (current_row actionTable (stateStack st));
            if decide (type lexed = "$") then
              Ok (inl (mkP (symbolStack st) (readStack st) (stateStack st) None 0
                           (pi st + 1)))
            else
              parse_action actionTable
                (mkP (symbolStack st) (readStack st) (stateStack st) (Some lexed)
                     (pindex st + String.length (match0 lexed)) (pi st))
                lexed
          else parse_action actionTable st token
      end
  end.

Fixpoint parse_loop (fuel : nat) (actionTable : ActionTable) (lexer : list Terminal)
    (tokens : list LexTree) (st : pstate) : outcome Tree :=
  match fuel with
  | 0 => Timeout
  | S fuel =>
      r ← parse_step actionTable lexer tokens st;
      match r with
      | inl st' => parse_loop fuel actionTable lexer tokens st'
      | inr tree => Ok tree
      end
  end.

Definition parse (fuel : nat) (actionTable : ActionTable) (lexer : list Terminal)
    (tokens : list LexTree) : outcome Tree :=
  parse_loop fuel actionTable lexer tokens pstate_init.

(** ** The constructor of [Parser] and the terminals of a rule set *)

Module Parser.

(** The two assertions of the constructor, for each key in turn. *)
Fixpoint check_rules (rules : RuleSet) : outcome unit :=
  match rules with
  | [] => Ok tt
  | (_, rs) :: rest =>
      if decide (rs = [])
      then Throw (AssertionError "Each non-terminal should contain at least one rule")
      else if bool_decide (Exists (λ r : Rule, r = []) rs)
      then Throw (AssertionError "Each rule should contain at least one element")
      else check_rules rest
  end.

(** [new Parser(rules, start)] without a version tag. *)
Definition new (fuel : nat) (rules : RuleSet) (start : string) : outcome ActionTable :=
  _ ← check_rules rules;
  buildTable fuel rules start.

(** The pattern [new RegExp(el.replace(..., "\\$&"))] once made sticky:
    every character of [el] stands for itself, so the pattern matches
    exactly the text [el] at the index. *)
Definition literal (el : string) : RegExp :=
  λ input i,
    if decide (substring i (String.length el) input = el
               ∧ i + String.length el ≤ String.length input)
    then Some (el, []) else None.

Definition terminals_el (rules : RuleSet)
    (acc : list string * list Terminal) (el : string) : list string * list Terminal :=
  let '(terminalSet, ruleTerminals) := acc in
  let el := base el in
  if negb (hasOwn rules el) && bool_decide (el ∉ terminalSet)
  then (terminalSet ++ [el], ruleTerminals ++ [mkTerminal el (literal el)])
  else acc.

Definition terminals (rules : RuleSet) (terminals : list Terminal) : list Terminal :=
  let terminalSet := Set_new (ttype <$> terminals) in
  let '(_, ruleTerminals) :=
    foldl (λ acc '(_, rs), foldl (foldl (terminals_el rules)) acc rs)
          (terminalSet, []) rules in
  ruleTerminals ++ terminals.

End Parser.

(** ** Persisting the action table *)

Inductive json :=
  | JNull
  | JNumber (n : nat)
  | JString (s : string)
  | JArray (l : list json)
  | JObject (l : list (string * json)).

(** [JSON.stringify] writes [null] for a hole of an array. *)
Definition cf_to_json (v : cfval) : json :=
  match v with
  | cf_idx n => JNumber n
  | cf_hole | cf_null => JNull
  end.

Definition action_to_json (a : Action) : json :=
  match a with
  | shift goto cameFrom =>
      JObject [("type", JString "shift"); ("goto", JNumber goto);
               ("cameFrom", JArray (cf_to_json <$> cameFrom))]
  | reduce k rule =>
      JObject [("type", JString "reduce"); ("key", JString k); ("rule", JNumber rule)]
  | accept k =>
      JObject [("type", JString "accept"); ("key", JString k)]
  end.

Definition row_to_json (row : Row) : json :=
  JObject (prod_map id action_to_json <$> map_to_list row).

(** [JSON.stringify(this.actionTable)], as the value [JSON.parse] gives
    back for the text. *)
Definition stringify (actionTable : ActionTable) : json :=
  JArray (row_to_json <$> actionTable).

Fixpoint field (l : list (string * json)) (k : string) : option json :=
  match l with
  | [] => None
  | (k', v) :: rest => if decide (k' = k) then Some v else field rest k
  end.

(** Reading the parsed value back at the types the parser uses it at. *)
Definition cf_of_json (j : json) : option cfval :=
  match j with
  | JNumber n => Some (cf_idx n)
  | JNull => Some cf_null
  | _ => None
  end.

Definition action_of_json (j : json) : option Action :=
  match j with
  | JObject l =>
      match field l "type" with
      | Some (JString "shift") =>
          match field l "goto", field l "cameFrom" with
          | Some (JNumber g), Some (JArray cf) => shift g <$> mapM cf_of_json cf
          | _, _ => None
          end
      | Some (JString "reduce") =>
          match field l "key", field l "rule" with
          | Some (JString k), Some (JNumber r) => Some (reduce k r)
          | _, _ => None
          end
      | Some (JString "accept") =>
          match field l "key" with
          | Some (JString k) => Some (accept k)
          | _ => None
          end
      | _ => None
      end
  | _ => None
  end.

Definition row_of_json (j : json) : option Row :=
  match j with
  | JObject l =>
      list_to_map <$> mapM (λ '(k, v), pair k <$> action_of_json v) l
  | _ => None
  end.

Definition table_of_json (j : json) : option ActionTable :=
  match j with
  | JArray rows => mapM row_of_json rows
  | _ => None
  end.

(** The files of the working directory, by name. *)
Abbreviation Files := (gmap string json).

Module Persist.

Definition file_name (version : string) : string :=
  "dsl-parser_v" +:+ version +:+ ".json".

(** [new Parser(rules, start, version)]: the table of the parser and the
    files it leaves behind.  An empty version string is as good as none. *)
Definition new (fuel : nat) (rules : RuleSet) (start : string)
    (version : option string) (files : Files) : outcome (ActionTable * Files) :=
  _ ← Parser.check_rules rules;
  let tag := match version with
             | Some v => if decide (v = "") then None else Some v
             | None => None
             end in
  match tag ≫= λ v, files !! file_name v with
  | Some j =>
      match table_of_json j with
      | Some actionTable => Ok (actionTable, files)
      | None => Throw (TypeError "the file does not hold an action table")
      end
  | None =>
      actionTable ← buildTable fuel rules start;
      Ok (actionTable,
          match tag with
          | Some v => <[file_name v := stringify actionTable]> files
          | None => files
          end)
  end.

End Persist.

(** ** The visitor harness *)

Module Visitor.

Section visit.
Context {T St : Type}.

(** A [visit_<type>] method: it receives [this.visit] to walk further
    down, the state and the node. *)
Definition method := (St → Tree → outcome T) → St → Tree → outcome T.

(** The visitor object: what [this["visit_" + type]] finds, by the full
    method name. *)
Definition visitor := string → option method.

Definition no_method : error :=
  Error_ "Each terminal should have a corresponding visit method".

(** [visitChildren]: the loop over all children but the last, whose
    results are dropped, and the visit of the last one. *)
Fixpoint visit_all (visit : St → Tree → outcome T) (state : St)
    (children : list Tree) : outcome T :=
  match children with
  | [] => Throw undefined_read
  | [c] => visit state c
  | c :: rest => _ ← visit state c; visit_all visit state rest
  end.

Fixpoint visit (fuel : nat) (v : visitor) (state : St) (tree : Tree) : outcome T :=
  match fuel with
  | 0 => Timeout
  | S fuel =>
      match v ("visit_" +:+ tree_type tree) with
      | Some m => m (visit fuel v) state tree
      | None =>
          match tree with
          | Node _ children => visit_all (visit fuel v) state children
          | Leaf _ => Throw no_method
          end
      end
  end.

Definition visitChildren (fuel : nat) (v : visitor) (state : St) (tree : Tree)
    : outcome T :=
  match tree with
  | Node _ children => visit_all (visit fuel v) state children
  | Leaf _ => Throw undefined_read
  end.
End visit.

End Visitor.

(** The decorator [skipOneChild]: the method it puts in the place of
    [originalVisitor].  [tree.children.length] of a leaf and the visit of
    [tree.children[0]] of a node without children read a property of
    [undefined]. *)
Definition skipOneChild {T St : Type} (originalVisitor : @Visitor.method T St)
    : @Visitor.method T St :=
  λ visit state tree,
    match tree with
    | Node _ children =>
        if decide (1 < length children) then originalVisitor visit state tree
        else
          match children with
          | c :: _ => visit state c
          | [] => Throw undefined_read
          end
    | Leaf _ => Throw undefined_read
    end.

(** ** [ParseError] *)

(** [ParseError.fromTree]: the error made from the line and the index of
    the first leaf down the first children.  The [in] test on the
    [undefined] first child of a node without children is a [TypeError]. *)
Fixpoint fromTree (message : string) (tree : Tree) : outcome error :=
  match tree with
  | Leaf t => Ok (ParseError message (line t) (index t))
  | Node _ children =>
      match children with
      | c :: _ => fromTree message c
      | [] => Throw (TypeError "Cannot use 'in' operator to search for 'children' in undefined")
      end
  end.

(** [toString] of a [ParseError]. *)
Definition toString (message : string) (line0 index0 : nat) : string :=
  message +:+ " at line " +:+ pretty (line0 + 1) +:+ ":" +:+ pretty (index0 + 1).

(** * Loops that may throw *)

Lemma foldM_cons {A B} (f : A → B → outcome A) a b l :
  foldM f a (b :: l) = f a b ≫= λ a', foldM f a' l.
Proof. done. Qed.

Lemma foldM_app {A B} (f : A → B → outcome A) a l1 l2 :
  foldM f a (l1 ++ l2) = foldM f a l1 ≫= λ a', foldM f a' l2.
Proof.
  revert a. induction l1 as [|b l1 IH]; intros a; [done|].
  simpl. destruct (f a b); simpl; auto.
Qed.

Lemma bind_Ok {A B} (m : outcome A) (f : A → outcome B) b :
  m ≫= f = Ok b ↔ ∃ a, m = Ok a ∧ f a = Ok b.
Proof.
  destruct m; simpl; split; try done; try (by intros (? & [=] & _)).
  - eauto.
  - by intros (? & [= ->] & ?).
Qed.

(** * The lexer *)

(** ** [splitOffside] against the description of the offside rule *)

Module OffsideSpec.

Definition indent (c i : nat) : LexTree := mkLex "indent" ("", []) c i.
Definition dedent (c i : nat) : LexTree := mkLex "dedent" ("", []) c i.

(** What one line contributes, and the stack of columns after it.  The
    columns on the stack increase towards the top, so popping while [c] is
    below the top removes the levels above [c], one [dedent] each, and
    leaves the others. *)
Definition line_tokens (level : list nat) (i : nat) (str : string)
    : outcome (list LexTree * list nat) :=
  match Lexer.first_nonspace str 0 with
  | None => Ok ([Lexer.unknown str i], level)
  | Some c =>
      if bool_decide (Forall (λ l, l < c) level ∧ level ≠ [])
      then Ok ([indent c i; Lexer.unknown str i], c :: level)
      else
        let above := filter (λ l, c < l) level in
        let rest := filter (λ l, l ≤ c) level in
        if decide (c ∈ rest)
        then Ok (replicate (length above) (dedent c i) ++ [Lexer.unknown str i], rest)
        else Throw (ParseError "Invalid indentation detected" i c)
  end.

Fixpoint lines_tokens (level : list nat) (i : nat) (lines : list string)
    : outcome (list LexTree * list nat) :=
  match lines with
  | [] => Ok ([], level)
  | str :: rest =>
      '(out, level) ← line_tokens level i str;
      '(outs, level) ← lines_tokens level (S i) rest;
      Ok (out ++ outs, level)
  end.

(** The tokens of the whole input: those of the lines, one [dedent] per
    level that is not zero, and the end marker, both placed at the end of
    the last line. *)
Definition splitOffside (lines : list string) : outcome (list LexTree) :=
  '(out, level) ← lines_tokens [0] 0 lines;
  let eol := String.length (default "" (last lines)) in
  let l := length lines - 1 in
  Ok (out ++ replicate (length (filter (λ c, 0 < c) level)) (dedent eol l)
          ++ [mkLex "$" ("", []) eol l]).

End OffsideSpec.

Lemma filter_none {A} (P : A → Prop) `{∀ x, Decision (P x)} (l : list A) :
  Forall (λ x, ¬ P x) l → filter P l = [].
Proof.
  induction 1 as [|x l Hx _ IH]; [done|].
  by rewrite filter_cons, decide_False.
Qed.

Lemma filter_all {A} (P : A → Prop) `{∀ x, Decision (P x)} (l : list A) :
  Forall P l → filter P l = l.
Proof.
  induction 1 as [|x l Hx _ IH]; [done|].
  by rewrite filter_cons, decide_True, IH.
Qed.

(** The stack of columns, top first, falls strictly. *)
Fixpoint falling (level : list nat) : Prop :=
  match level with
  | [] => True
  | top :: rest => Forall (λ l, l < top) rest ∧ falling rest
  end.

Lemma falling_filter_le c level :
  falling level → falling (filter (λ l, l ≤ c) level).
Proof.
  induction level as [|top rest IH]; simpl; [done|].
  intros [Hall Hf]. rewrite filter_cons. case_decide; simpl; auto.
  split; [|auto]. apply Forall_forall. intros x [_ Hx]%list_elem_of_filter.
  rewrite Forall_forall in Hall. auto.
Qed.

Lemma offside_pop_falling c i output level :
  falling level →
  Lexer.offside_pop c i output level =
    (output ++ replicate (length (filter (λ l, c < l) level)) (OffsideSpec.dedent c i),
     filter (λ l, l ≤ c) level).
Proof.
  revert output. induction level as [|top rest IH]; intros output Hf; simpl.
  - by rewrite app_nil_r.
  - destruct Hf as [Hall Hf]. rewrite !filter_cons. case_decide.
    + rewrite IH by done. rewrite decide_False by lia. simpl.
      by rewrite <- app_assoc.
    + rewrite decide_True by lia.
      assert (Hall' : Forall (λ l, ¬ c < l ∧ l ≤ c) rest).
      { eapply Forall_impl; [exact Hall|]. simpl. intros; lia. }
      rewrite (filter_none (λ l, c < l) rest).
      2:{ eapply Forall_impl; [exact Hall'|]. simpl. tauto. }
      simpl. rewrite app_nil_r. f_equal. f_equal.
      symmetry. apply filter_all. eapply Forall_impl; [exact Hall'|]. simpl. tauto.
Qed.

Lemma above_top_falling c level :
  falling level →
  Lexer.above_top c level = bool_decide (Forall (λ l, l < c) level ∧ level ≠ []).
Proof.
  destruct level as [|top rest].
  - intros _. symmetry. apply bool_decide_eq_false_2. tauto.
  - intros [Hall _]. unfold Lexer.above_top. simpl head. apply bool_decide_ext.
    split.
    + intros Hlt. split; [|done]. constructor; [done|].
      eapply Forall_impl; [exact Hall|]. simpl. lia.
    + intros [Hc _]. by inversion Hc.
Qed.

Lemma head_filter_le c level :
  falling level →
  head (filter (λ l, l ≤ c) level) = Some c ↔ c ∈ filter (λ l, l ≤ c) level.
Proof.
  intros Hf%(falling_filter_le c).
  assert (Hle : Forall (λ l, l ≤ c) (filter (λ l, l ≤ c) level)).
  { apply Forall_forall. by intros x [? _]%list_elem_of_filter. }
  destruct (filter (λ l, l ≤ c) level) as [|top rest]; simpl.
  - split; [done|]. by intros ?%elem_of_nil.
  - destruct Hf as [Hall _]. inversion Hle as [|? ? Htop Hrest]; subst. split.
    + intros [= ->]. left.
    + intros [->|Hin]%elem_of_cons; [done|].
      rewrite Forall_forall in Hall. specialize (Hall _ Hin). lia.
Qed.

Lemma offside_line_spec output level i str :
  falling level →
  Lexer.offside_line (output, level) (i, str) =
    ('(out, level') ← OffsideSpec.line_tokens level i str; Ok (output ++ out, level')).
Proof.
  intros Hf. unfold Lexer.offside_line, OffsideSpec.line_tokens.
  destruct (Lexer.first_nonspace str 0) as [c|]; simpl; [|done].
  rewrite above_top_falling by done.
  case_bool_decide; simpl.
  - by rewrite <- app_assoc.
  - rewrite offside_pop_falling by done.
    destruct (decide (c ∈ _)) as [Hin|Hin].
    + rewrite decide_True by (by apply head_filter_le). simpl.
      by rewrite <- !app_assoc.
    + rewrite decide_False; [done|]. by rewrite head_filter_le.
Qed.

Lemma line_tokens_falling level i str out level' :
  falling level → OffsideSpec.line_tokens level i str = Ok (out, level') →
  falling level'.
Proof.
  unfold OffsideSpec.line_tokens. intros Hf.
  destruct (Lexer.first_nonspace str 0) as [c|]; [|by intros [= <- <-]].
  case_bool_decide as Hc.
  - intros [= <- <-]. simpl. tauto.
  - case_decide; [|done]. intros [= <- <-]. by apply falling_filter_le.
Qed.

Lemma lines_tokens_falling lines : ∀ lv i out level,
  falling lv → OffsideSpec.lines_tokens lv i lines = Ok (out, level) → falling level.
Proof.
  induction lines as [|str rest IH]; intros lv i out level Hf; simpl.
  - by intros [= <- <-].
  - intros ([o lv'] & Hl & Hr)%bind_Ok.
    apply bind_Ok in Hr as ([os lv''] & Hr & [= <- <-]).
    eapply IH; [|exact Hr]. eapply line_tokens_falling; eauto.
Qed.

Lemma offside_lines_spec lines : ∀ output level i,
  falling level →
  foldM Lexer.offside_line (output, level) (imap (λ j, pair (i + j)) lines) =
    ('(out, level') ← OffsideSpec.lines_tokens level i lines; Ok (output ++ out, level')).
Proof.
  induction lines as [|str rest IH]; intros output level i Hf.
  - simpl. by rewrite app_nil_r.
  - rewrite imap_cons, foldM_cons.
    rewrite Nat.add_0_r, offside_line_spec by done. cbn [OffsideSpec.lines_tokens].
    destruct (OffsideSpec.line_tokens level i str) as [[out level']| |] eqn:Hl;
      simpl; [|done..].
    rewrite (imap_ext _ (λ j, pair (S i + j))) by (intros; simpl; f_equal; lia).
    rewrite IH by (eapply line_tokens_falling; eauto).
    destruct (OffsideSpec.lines_tokens level' (S i) rest) as [[outs level'']| |];
      simpl; [|done..].
    by rewrite app_assoc.
Qed.

Lemma offside_close_spec lines str output level :
  falling level → last lines = Some str →
  Lexer.offside_close lines output level =
    Ok (output ++ replicate (length (filter (λ c, 0 < c) level))
                    (OffsideSpec.dedent (String.length str) (length lines - 1))).
Proof.
  intros Hf Hlast. revert output Hf.
  induction level as [|top rest IH]; intros output Hf; simpl.
  - by rewrite app_nil_r.
  - destruct Hf as [Hall Hf]. rewrite filter_cons. case_decide.
    + unfold Lexer.marker. rewrite Hlast. simpl. rewrite IH by done.
      by rewrite <- app_assoc.
    + rewrite (filter_none (λ c, 0 < c) rest).
      * by rewrite app_nil_r.
      * eapply Forall_impl; [exact Hall|]. simpl. lia.
Qed.


Lemma split_lines_nonempty input cur : Lexer.split_lines input cur ≠ [].
Proof.
  remember (String.length input) as n eqn:Hn.
  revert input cur Hn. induction (lt_wf n) as [n _ IH]. intros input cur ->.
  destruct input as [|c rest]; simpl; [done|].
  case_decide; [done|].
  destruct rest as [|c' rest']; [done|].
  case_decide; [done|].
  eapply (IH (String.length (String c' rest'))); [simpl; lia | done].
Qed.

Lemma kept_lines_None input : Lexer.kept_lines input None = Lexer.split_lines input "".
Proof.
  unfold Lexer.kept_lines. apply filter_all, Forall_forall. done.
Qed.

Lemma splitOffside_refines input comment :
  Lexer.kept_lines input comment ≠ [] →
  Lexer.splitOffside input comment =
    OffsideSpec.splitOffside (Lexer.kept_lines input comment).
Proof.
  unfold Lexer.splitOffside, OffsideSpec.splitOffside.
  generalize (Lexer.kept_lines input comment) as lines. intros lines Hne.
  pose proof (offside_lines_spec lines [] [0] 0) as Hl.
  change (imap (λ j, pair (0 + j)) lines) with (imap pair lines) in Hl.
  rewrite Hl by (split; [constructor | done]). clear Hl.
  destruct (OffsideSpec.lines_tokens [0] 0 lines) as [[out level]| |] eqn:Hrun;
    simpl; [|done..].
  assert (Hf : falling level).
  { eapply lines_tokens_falling; [|exact Hrun]. split; [constructor | done]. }
  destruct (last lines) as [str|] eqn:Hlast.
  2:{ by apply last_None in Hlast. }
  rewrite (offside_close_spec lines str) by done. simpl.
  unfold Lexer.marker. rewrite Hlast. simpl. by rewrite <- app_assoc.
Qed.

(** C7.  [splitOffside] is the offside rule as described: starting from the
    stack [0], a line whose first column that is not white space is [c]
    gives [indent] and a push when [c] is above the top, otherwise one
    [dedent] for each level above [c] and the indentation error unless [c]
    is then the top; the line itself follows as an unknown token; at the end
    come one [dedent] for each level that is not zero and the end marker.
    Without a comment pattern at least one line is always left.  On the four
    lines a, two blanks b, two blanks c, d the tokens are unknown a, indent,
    unknown b, unknown c, dedent, unknown d and the end marker. *)
Theorem splitOffside_offside_rule :
  (∀ input comment,
     Lexer.kept_lines input comment ≠ [] →
     Lexer.splitOffside input comment =
       OffsideSpec.splitOffside (Lexer.kept_lines input comment))
  ∧ (∀ input, Lexer.kept_lines input None ≠ [])
  ∧ Lexer.splitOffside (String.concat (String "010" "") ["a"; "  b"; "  c"; "d"]) None =
      Ok [Lexer.unknown "a" 0;
          mkLex "indent" ("", []) 2 1;
          Lexer.unknown "  b" 1;
          Lexer.unknown "  c" 2;
          mkLex "dedent" ("", []) 0 3;
          Lexer.unknown "d" 3;
          mkLex "$" ("", []) 1 3].
Proof.
  split; [exact splitOffside_refines|]. split.
  - intros input. rewrite kept_lines_None. apply split_lines_nonempty.
  - vm_compute. reflexivity.
Qed.

Lemma splitOffside_offside_rule_witness :
  Lexer.splitOffside "a" None = OffsideSpec.splitOffside (Lexer.kept_lines "a" None).
Proof.
  apply (proj1 splitOffside_offside_rule "a" None). vm_compute. discriminate.
Defined.

(** ** [next]: which terminal wins *)

Module NextSpec.
Section spec.
Context {V : Type} `{Truthy V}.

(** A terminal is tried when no dictionary is given, when the
    dictionary holds a value that counts as true under its type, or
    when it is the white space terminal. *)
Definition eligible (active : option (gmap string V)) (t : Terminal) : Prop :=
  active = None
  ∨ (∃ a v, active = Some a ∧ a !! ttype t = Some v ∧ truthy v = true)
  ∨ ttype t = "whitespace".

(** The same with "its type is a key of the dictionary". *)
Definition eligible_by_key (active : option (gmap string V)) (t : Terminal)
    : Prop :=
  active = None
  ∨ (∃ a, active = Some a ∧ is_Some (a !! ttype t))
  ∨ ttype t = "whitespace".

(** [t] is the first terminal, in declaration order, that is tried and
    matches at [i], and [m] is its match. *)
Definition first_match (elig : Terminal → Prop) (terminals : list Terminal)
    (str : string) (i : nat) (t : Terminal) (m : RegExpMatchArray) : Prop :=
  ∃ pre post,
    terminals = pre ++ t :: post
    ∧ elig t ∧ pattern t str i = Some m
    ∧ Forall (λ t', ¬ (elig t' ∧ is_Some (pattern t' str i))) pre.

Definition no_match (elig : Terminal → Prop) (terminals : list Terminal)
    (str : string) (i : nat) : Prop :=
  Forall (λ t, ¬ (elig t ∧ is_Some (pattern t str i))) terminals.
End spec.
End NextSpec.

Section next_facts.
Context {V : Type} `{Truthy V}.
Implicit Types (active : option (gmap string V)) (t : Terminal).

Lemma attempted_eligible active t :
  Lexer.attempted active t = true ↔ NextSpec.eligible active t.
Proof.
  unfold Lexer.attempted, NextSpec.eligible.
  rewrite orb_true_iff, bool_decide_eq_true. split.
  - intros [Ha|Hw]; [|auto]. destruct active as [a|]; [|auto].
    destruct (a !! ttype t) as [v|] eqn:Hv; [|done]. right; left. eauto.
  - intros [->|[(a & v & -> & Hv & Ht)|Hw]]; [auto| |auto].
    left. by rewrite Hv.
Qed.

Lemma next_scan_first terminals token i active t m :
  NextSpec.first_match (NextSpec.eligible active) terminals (match0 token) i t m →
  Lexer.next_scan terminals token i active =
    Ok (mkLex (ttype t) m (index token + i) (line token)).
Proof.
  intros (pre & post & -> & Ht & Hm & Hpre).
  induction Hpre as [|t' pre Ht' _ IH]; simpl.
  - apply attempted_eligible in Ht. by rewrite Ht, Hm.
  - destruct (Lexer.attempted active t') eqn:Ha; [|done].
    destruct (pattern t' (match0 token) i) eqn:Hp; [|done].
    destruct Ht'. split; [by apply attempted_eligible | by eexists].
Qed.

Lemma next_scan_none terminals token i active :
  NextSpec.no_match (NextSpec.eligible active) terminals (match0 token) i →
  Lexer.next_scan terminals token i active =
    Throw (ParseError "Lexer failed to recognize symbol"
             (line token) (index token + i)).
Proof.
  induction 1 as [|t' pre Ht' _ IH]; simpl; [done|].
  destruct (Lexer.attempted active t') eqn:Ha; [|done].
  destruct (pattern t' (match0 token) i) eqn:Hp; [|done].
  destruct Ht'. split; [by apply attempted_eligible | by eexists].
Qed.
End next_facts.


Definition term_a : Terminal := mkTerminal "a" (Parser.literal "a").



(** ** [lex]: zero-width matches *)

(** The loop of [lex] does not look at the width of a match: a token of
    width zero is kept and the index stays where it is. *)
Lemma lex_line_zero_width terminals token i lexToken :
  Lexer.next (V := Action) terminals token i None = Ok lexToken →
  type lexToken ≠ "$" →
  String.length (match0 lexToken) = 0 →
  ∀ fuel output, Lexer.lex_line fuel terminals token i output = Timeout.
Proof.
  intros Hnext Hty Hlen fuel.
  induction fuel as [|fuel IH]; intros output; simpl; [done|].
  rewrite Hnext. simpl. rewrite decide_False by done.
  rewrite Hlen, Nat.add_0_r. apply IH.
Qed.

(** C6, as the code has it.  When the terminal that wins at the current
    index matches the empty text, the loop of [lex] appends the token and
    stays at the same index, so it never ends: no amount of fuel brings it
    to a result or to an error.  The same holds for [lex] itself when this
    happens at the start of its first unknown token. *)
Theorem lex_zero_width_loops :
  ∀ (terminals : list Terminal) (token : LexTree) (i : nat) (lexToken : LexTree),
    Lexer.next (V := Action) terminals token i None = Ok lexToken →
    type lexToken ≠ "$" →
    String.length (match0 lexToken) = 0 →
    (∀ fuel output,
       Lexer.lex_line (S fuel) terminals token i output =
         Lexer.lex_line fuel terminals token i (output ++ [lexToken]))
    ∧ (∀ fuel output, Lexer.lex_line fuel terminals token i output = Timeout)
    ∧ (i = 0 → type token = "unknown" →
       ∀ fuel rest, Lexer.lex fuel terminals (token :: rest) = Timeout).
Proof.
  intros terminals token i lexToken Hnext Hty Hlen. split; [|split].
  - intros fuel output. simpl. rewrite Hnext. simpl.
    rewrite decide_False by done. by rewrite Hlen, Nat.add_0_r.
  - by eapply lex_line_zero_width.
  - intros -> Hunk fuel rest. unfold Lexer.lex. rewrite foldM_cons.
    rewrite decide_True by done.
    by rewrite (lex_line_zero_width _ _ _ _ Hnext Hty Hlen).
Qed.

(** A terminal whose pattern matches the empty text everywhere. *)
Definition term_empty : Terminal := mkTerminal "e" (λ _ _, Some ("", [])).

Lemma lex_zero_width_loops_witness :
  Lexer.lex_line 7 [term_empty] (Lexer.unknown "a" 0) 0 [] = Timeout.
Proof.
  refine (proj1 (proj2 (lex_zero_width_loops [term_empty] (Lexer.unknown "a" 0) 0
            (mkLex "e" ("", []) 0 0) _ _ _)) 7 []).
  - reflexivity.
  - discriminate.
  - reflexivity.
Defined.

(** C6, as stated, fails: with a terminal that matches the empty text, [lex]
    on the line "a" never throws, whatever the fuel. *)
Lemma lex_zero_width_no_error :
  ¬ ∃ fuel e, Lexer.lex fuel [term_empty] [Lexer.unknown "a" 0] = Throw e.
Proof.
  intros (fuel & e & Hthrow).
  assert (Hloop : Lexer.lex fuel [term_empty] [Lexer.unknown "a" 0] = Timeout).
  { unfold Lexer.lex. rewrite foldM_cons, decide_True by done.
    by rewrite (lex_line_zero_width [term_empty] (Lexer.unknown "a" 0) 0
                  (mkLex "e" ("", []) 0 0)). }
  congruence.
Qed.

(** ** The earlier lexer against the lexer on line tokens *)

(** What the earlier [lex] throws where [next] of the later lexer throws
    its [ParseError]. *)
Definition text_error (e : error) : error :=
  match e with
  | ParseError _ l ix =>
      Error_ ("Lexer failed to recognize symbol at "
              +:+ pretty (l + 1) +:+ ":" +:+ pretty (ix + 1))
  | _ => e
  end.

(** The end marker that the earlier [lex] leaves at the end of its tokens. *)
Definition text_end (input : string) (line0 : nat) : LexTree :=
  mkLex "$" ("", []) (String.length input) line0.

Lemma text_next_scan terminals input groups line0 i :
  TextLexer.next_scan terminals input i line0 =
    match Lexer.next_scan (V := Action) terminals
            (mkLex "unknown" (input, groups) 0 line0) i None with
    | Ok token => Some token
    | _ => None
    end
  ∧ (∀ e, Lexer.next_scan (V := Action) terminals
            (mkLex "unknown" (input, groups) 0 line0) i None = Throw e →
          e = ParseError "Lexer failed to recognize symbol" line0 i)
  ∧ Lexer.next_scan (V := Action) terminals
      (mkLex "unknown" (input, groups) 0 line0) i None ≠ Timeout.
Proof.
  induction terminals as [|t ts IH]; simpl.
  - split; [done|]. split; [by intros e [= <-]|done].
  - unfold match0. simpl. destruct (pattern t input i); [|exact IH].
    split; [done|]. split; [by intros e|done].
Qed.

(** The earlier [lex] on a text is the inner loop of the later [lex] on the
    line token of that text, with the end marker added to the tokens and
    the error of the earlier lexer in place of the [ParseError]. *)
Lemma text_lex_loop_line terminals input groups line0 :
  Forall (λ t, ttype t ≠ "$") terminals →
  ∀ fuel i output,
    TextLexer.lex_loop fuel terminals input i line0 output =
      match Lexer.lex_line fuel terminals
              (mkLex "unknown" (input, groups) 0 line0) i output with
      | Ok r => Ok (r ++ [text_end input line0])
      | Throw e => Throw (text_error e)
      | Timeout => Timeout
      end.
Proof.
  intros Heof. induction fuel as [|fuel IH]; intros i output; simpl; [done|].
  unfold TextLexer.next, Lexer.next, match0. simpl.
  case_decide as Hi; simpl.
  { done. }
  destruct (text_next_scan terminals input groups line0 i) as (-> & Hthrow & Htime).
  destruct (Lexer.next_scan _ _ _ _) as [token|e|] eqn:Hscan; simpl.
  - assert (Hty : type token ≠ "$").
    { clear -Heof Hscan. induction terminals as [|t ts IHt]; simpl in *; [done|].
      apply Forall_cons in Heof as [Ht Hts]. unfold match0 in Hscan. simpl in Hscan.
      destruct (pattern t input i); [|by apply IHt].
      by injection Hscan as <-. }
    rewrite !decide_False by done. apply IH.
  - by rewrite (Hthrow e eq_refl).
  - done.
Qed.

(** So the earlier [lex] loops on a match of width zero as well. *)
Lemma text_lex_zero_width_loops fuel :
  TextLexer.lex fuel [term_empty] "a" 0 0 = Timeout.
Proof.
  unfold TextLexer.lex.
  rewrite (text_lex_loop_line [term_empty] "a" [] 0) by (by repeat constructor).
  by rewrite (lex_line_zero_width [term_empty] (Lexer.unknown "a" 0) 0
                (mkLex "e" ("", []) 0 0)).
Qed.

(** ** [lex] on a line cut in two *)

Lemma string_length_app (s1 s2 : string) :
  String.length (s1 +:+ s2) = String.length s1 + String.length s2.
Proof. induction s1 as [|c s1 IH]; simpl; [done | by rewrite IH]. Qed.

Lemma lex_line_more fuel k terminals token i output r :
  Lexer.lex_line fuel terminals token i output = r → r ≠ Timeout →
  Lexer.lex_line (fuel + k) terminals token i output = r.
Proof.
  revert i output. induction fuel as [|fuel IH]; intros i output; simpl.
  - by intros <-.
  - destruct (Lexer.next (V := Action) terminals token i None) as [t| |]; simpl; [|done..].
    case_decide; [done|]. apply IH.
Qed.

Lemma lex_line_output fuel terminals token i pre output :
  Lexer.lex_line fuel terminals token i (pre ++ output) =
    (lex ← Lexer.lex_line fuel terminals token i output; Ok (pre ++ lex)).
Proof.
  revert i output. induction fuel as [|fuel IH]; intros i output; simpl; [done|].
  destruct (Lexer.next (V := Action) terminals token i None) as [t| |]; simpl; [|done..].
  case_decide; [done|]. by rewrite <- app_assoc, IH.
Qed.

Section lex_concat.
Variables (terminals : list Terminal) (s1 s2 : string).
Variables (groups : list (option string)) (ix l : nat).

(** The line [s1 s2], its first part, and its second part placed at the
    column where it starts. *)
Definition whole : LexTree := mkLex "unknown" (s1 +:+ s2, groups) ix l.
Definition left_part : LexTree := mkLex "unknown" (s1, groups) ix l.
Definition right_part : LexTree :=
  mkLex "unknown" (s2, groups) (ix + String.length s1) l.

(** No terminal is named "$", which the constructor of the lexer checks. *)
Hypothesis no_eof : Forall (λ t, ttype t ≠ "$") terminals.
(** A match inside [s1] ends inside [s1], as the match of a pattern does. *)
Hypothesis inside : ∀ t i m,
  t ∈ terminals → pattern t s1 i = Some m →
  i + String.length m.1 ≤ String.length s1.
(** No terminal straddles the boundary: from a position of [s1] a pattern
    finds in [s1 s2] what it finds in [s1], and from the boundary on what
    it finds in [s2]. *)
Hypothesis left_alone : ∀ t i,
  t ∈ terminals → i < String.length s1 →
  pattern t (s1 +:+ s2) i = pattern t s1 i.
Hypothesis right_alone : ∀ t i,
  t ∈ terminals → pattern t (s1 +:+ s2) (String.length s1 + i) = pattern t s2 i.

Lemma next_scan_left ts i :
  ts ⊆ terminals → i < String.length s1 →
  Lexer.next_scan (V := Action) ts whole i None =
    Lexer.next_scan (V := Action) ts left_part i None.
Proof.
  intros Hsub Hi. induction ts as [|t ts IH]; simpl; [done|].
  assert (Ht : t ∈ terminals) by (apply Hsub; left).
  assert (Hts : ts ⊆ terminals) by (intros x Hx; apply Hsub; by right).
  unfold match0; simpl. rewrite left_alone by done.
  destruct (pattern t s1 i); [done | by apply IH].
Qed.

Lemma next_scan_right ts j :
  ts ⊆ terminals →
  Lexer.next_scan (V := Action) ts whole (String.length s1 + j) None =
    Lexer.next_scan (V := Action) ts right_part j None.
Proof.
  intros Hsub. induction ts as [|t ts IH]; simpl.
  - by rewrite Nat.add_assoc.
  - assert (Ht : t ∈ terminals) by (apply Hsub; left).
    assert (Hts : ts ⊆ terminals) by (intros x Hx; apply Hsub; by right).
    unfold match0; simpl. rewrite right_alone by done.
      destruct (pattern t s2 j); [by rewrite Nat.add_assoc | by apply IH].
Qed.

Lemma next_left i :
  i < String.length s1 →
  Lexer.next (V := Action) terminals whole i None =
    Lexer.next (V := Action) terminals left_part i None.
Proof.
  intros Hi. unfold Lexer.next, match0. simpl.
  rewrite string_length_app, !decide_False by lia.
  by apply next_scan_left.
Qed.

Lemma next_right j :
  Lexer.next (V := Action) terminals whole (String.length s1 + j) None =
    Lexer.next (V := Action) terminals right_part j None.
Proof.
  unfold Lexer.next, match0. simpl. rewrite string_length_app.
  destruct (decide (String.length s2 ≤ j)).
  - rewrite decide_True by lia. by rewrite Nat.add_assoc.
  - rewrite decide_False by lia. by apply next_scan_right.
Qed.

Lemma next_scan_token ts token i lexToken :
  ts ⊆ terminals →
  Lexer.next_scan (V := Action) ts token i None = Ok lexToken →
  ∃ t, t ∈ terminals ∧ type lexToken = ttype t
       ∧ pattern t (match0 token) i = Some (match_ lexToken).
Proof.
  intros Hsub. induction ts as [|t ts IH]; simpl; [done|].
  assert (Ht : t ∈ terminals) by (apply Hsub; left).
  assert (Hts : ts ⊆ terminals) by (intros x Hx; apply Hsub; by right).
  destruct (pattern t (match0 token) i) eqn:Hp; [|by apply IH].
  intros [= <-]. by exists t.
Qed.

Lemma lex_line_right fuel j output :
  Lexer.lex_line fuel terminals whole (String.length s1 + j) output =
    Lexer.lex_line fuel terminals right_part j output.
Proof.
  revert j output. induction fuel as [|fuel IH]; intros j output; simpl; [done|].
  rewrite next_right.
  destruct (Lexer.next (V := Action) terminals right_part j None) as [t| |]; simpl; [|done..].
  case_decide; [done|]. by rewrite <- Nat.add_assoc, IH.
Qed.

Lemma lex_line_left fuel1 : ∀ i output out1,
  i ≤ String.length s1 →
  Lexer.lex_line fuel1 terminals left_part i output = Ok out1 →
  ∀ fuel2 out2,
    Lexer.lex_line fuel2 terminals right_part 0 out1 = Ok out2 →
    Lexer.lex_line (fuel1 + fuel2) terminals whole i output = Ok out2.
Proof.
  induction fuel1 as [|fuel1 IH]; intros i output out1 Hi; [done|].
  destruct (decide (i = String.length s1)) as [->|Hne].
  - intros H1 fuel2 out2 H2. simpl in H1. unfold Lexer.next in H1.
    rewrite decide_True in H1 by (unfold match0, left_part; simpl; lia).
    simpl in H1. injection H1 as <-.
    rewrite (Nat.add_comm (S fuel1)). apply lex_line_more; [|done].
    rewrite <- (Nat.add_0_r (String.length s1)). by rewrite lex_line_right.
  - intros H1 fuel2 out2 H2.
    change (S fuel1 + fuel2) with (S (fuel1 + fuel2)). simpl in H1 |- *.
    rewrite next_left by lia.
    destruct (Lexer.next (V := Action) terminals left_part i None) as [t| |] eqn:Hnext;
      simpl in H1 |- *; [|done..].
    unfold Lexer.next in Hnext. rewrite decide_False in Hnext by (unfold match0, left_part; simpl; lia).
    apply next_scan_token in Hnext as (t' & Ht' & Hty & Hpat); [|done].
    rewrite decide_False in H1 |- *.
    2,3: rewrite Hty; by eapply Forall_forall in no_eof.
    eapply IH; [|exact H1|exact H2].
    apply inside in Hpat; [|done]. unfold match0. lia.
Qed.

Lemma lex_line_left_throw fuel e : ∀ i output,
  i ≤ String.length s1 →
  Lexer.lex_line fuel terminals left_part i output = Throw e →
  Lexer.lex_line fuel terminals whole i output = Throw e.
Proof.
  induction fuel as [|fuel IH]; intros i output Hi; [done|].
  destruct (decide (i = String.length s1)) as [->|Hne].
  - simpl. unfold Lexer.next at 1.
    by rewrite decide_True by (unfold match0, left_part; simpl; lia).
  - simpl. rewrite next_left by lia.
    destruct (Lexer.next (V := Action) terminals left_part i None) as [t| |] eqn:Hnext;
      simpl; [|done..].
    unfold Lexer.next in Hnext. rewrite decide_False in Hnext by (unfold match0, left_part; simpl; lia).
    apply next_scan_token in Hnext as (t' & Ht' & Hty & Hpat); [|done].
    case_decide; [done|]. apply IH.
    apply inside in Hpat; [|done]. unfold match0. lia.
Qed.

Lemma lex_concat_ok fuel1 fuel2 out1 out2 :
  Lexer.lex fuel1 terminals [left_part] = Ok out1 →
  Lexer.lex fuel2 terminals [right_part] = Ok out2 →
  Lexer.lex (fuel1 + fuel2) terminals [whole] = Ok (out1 ++ out2).
Proof.
  unfold Lexer.lex. simpl.
  intros (o1 & H1 & [= <-])%bind_Ok (o2 & H2 & [= <-])%bind_Ok.
  erewrite lex_line_left; [done | lia | exact H1 |].
  rewrite <- (app_nil_r o1) at 1. by rewrite lex_line_output, H2.
Qed.

Lemma lex_concat_throw fuel e :
  Lexer.lex fuel terminals [left_part] = Throw e →
  Lexer.lex fuel terminals [whole] = Throw e.
Proof.
  unfold Lexer.lex. simpl.
  destruct (Lexer.lex_line fuel terminals left_part 0 []) eqn:H1; simpl; [done| |done].
  intros [= <-]. by rewrite (lex_line_left_throw _ _ _ _ (Nat.le_0_l _) H1).
Qed.
End lex_concat.

(** C9, as the code has it.  Let no terminal be named "$", let every match
    inside [s1] end inside [s1], and let no terminal straddle the boundary.
    Then the tokens of the line [s1 s2] are those of [s1] followed by those
    of [s2] placed at the column where it starts, that is, with the columns
    of the second part moved right by the length of [s1]; and an error of
    [lex] on [s1] is the error of [lex] on [s1 s2]. *)
Theorem lex_concat :
  ∀ (terminals : list Terminal) (s1 s2 : string) (groups : list (option string))
    (ix l : nat),
    Forall (λ t, ttype t ≠ "$") terminals →
    (∀ t i m, t ∈ terminals → pattern t s1 i = Some m →
              i + String.length m.1 ≤ String.length s1) →
    (∀ t i, t ∈ terminals → i < String.length s1 →
            pattern t (s1 +:+ s2) i = pattern t s1 i) →
    (∀ t i, t ∈ terminals →
            pattern t (s1 +:+ s2) (String.length s1 + i) = pattern t s2 i) →
    (∀ fuel1 fuel2 out1 out2,
       Lexer.lex fuel1 terminals [left_part s1 groups ix l] = Ok out1 →
       Lexer.lex fuel2 terminals [right_part s1 s2 groups ix l] = Ok out2 →
       Lexer.lex (fuel1 + fuel2) terminals [whole s1 s2 groups ix l] =
         Ok (out1 ++ out2))
    ∧ (∀ fuel e,
         Lexer.lex fuel terminals [left_part s1 groups ix l] = Throw e →
         Lexer.lex fuel terminals [whole s1 s2 groups ix l] = Throw e).
Proof.
  intros terminals s1 s2 groups ix l Heof Hin Hl Hr. split.
  - intros. by eapply lex_concat_ok.
  - intros. by eapply lex_concat_throw.
Qed.

(** The terminal "a" on the line "aa" cut in the middle meets the
    conditions: nothing it matches straddles the cut. *)
Lemma term_a_no_straddle :
  Forall (λ t, ttype t ≠ "$") [term_a]
  ∧ (∀ t i m, t ∈ [term_a] → pattern t "a" i = Some m →
              i + String.length m.1 ≤ String.length "a")
  ∧ (∀ t i, t ∈ [term_a] → i < String.length "a" →
            pattern t ("a" +:+ "a") i = pattern t "a" i)
  ∧ (∀ t i, t ∈ [term_a] →
            pattern t ("a" +:+ "a") (String.length "a" + i) = pattern t "a" i).
Proof.
  split; [by repeat constructor|]. split; [|split].
  - intros t i m ->%list_elem_of_singleton. simpl. unfold Parser.literal.
    case_decide as Hd; [|done]. intros [= <-]. simpl in *. lia.
  - intros t i ->%list_elem_of_singleton Hi. simpl in Hi.
    assert (i = 0) as -> by lia. reflexivity.
  - intros t i ->%list_elem_of_singleton. simpl. unfold Parser.literal. simpl.
    destruct (decide _) as [[H1 H2]|H1], (decide _) as [[H3 H4]|H3];
      try done; exfalso; apply H3 || apply H1; split; (done || lia).
Qed.

Lemma lex_concat_witness :
  Lexer.lex (5 + 5) [term_a] [whole "a" "a" [] 0 0] =
    Ok ([mkLex "a" ("a", []) 0 0] ++ [mkLex "a" ("a", []) 1 0]).
Proof.
  refine (proj1 (lex_concat [term_a] "a" "a" [] 0 0
            (proj1 term_a_no_straddle)
            (proj1 (proj2 term_a_no_straddle))
            (proj1 (proj2 (proj2 term_a_no_straddle)))
            (proj2 (proj2 (proj2 term_a_no_straddle)))) 5 5 _ _ _ _).
  - vm_compute. reflexivity.
  - vm_compute. reflexivity.
Defined.

(** C9, as stated, fails on the columns: the terminal "a" cannot straddle
    the middle of "aa", yet the second token of "aa" stands at column 1
    while the token of "a" lexed alone stands at column 0. *)
Lemma lex_concat_columns_differ :
  ((∀ t i m, t ∈ [term_a] → pattern t "a" i = Some m →
             i + String.length m.1 ≤ String.length "a")
   ∧ (∀ t i, t ∈ [term_a] → i < String.length "a" →
             pattern t ("a" +:+ "a") i = pattern t "a" i)
   ∧ (∀ t i, t ∈ [term_a] →
             pattern t ("a" +:+ "a") (String.length "a" + i) = pattern t "a" i))
  ∧ Lexer.lex 5 [term_a] [Lexer.unknown ("a" +:+ "a") 0] =
      Ok [mkLex "a" ("a", []) 0 0; mkLex "a" ("a", []) 1 0]
  ∧ Lexer.lex 5 [term_a] [Lexer.unknown "a" 0] = Ok [mkLex "a" ("a", []) 0 0]
  ∧ [mkLex "a" ("a", []) 0 0; mkLex "a" ("a", []) 1 0] ≠
      [mkLex "a" ("a", []) 0 0] ++ [mkLex "a" ("a", []) 0 0].
Proof.
  split; [exact (proj2 term_a_no_straddle)|].
  split; [by vm_compute|]. split; [by vm_compute|]. discriminate.
Qed.

(** The earlier lexer ends the tokens of a text with the end marker, so
    the tokens of "a" taken twice hold a marker in the middle that the
    tokens of "aa" do not have, besides the column of the second "a". *)
Lemma text_lex_concat_differs :
  TextLexer.lex 5 [term_a] ("a" +:+ "a") 0 0 =
    Ok [mkLex "a" ("a", []) 0 0; mkLex "a" ("a", []) 1 0; mkLex "$" ("", []) 2 0]
  ∧ TextLexer.lex 5 [term_a] "a" 0 0 =
      Ok [mkLex "a" ("a", []) 0 0; mkLex "$" ("", []) 1 0]
  ∧ [mkLex "a" ("a", []) 0 0; mkLex "a" ("a", []) 1 0; mkLex "$" ("", []) 2 0] ≠
      [mkLex "a" ("a", []) 0 0; mkLex "$" ("", []) 1 0]
      ++ [mkLex "a" ("a", []) 0 0; mkLex "$" ("", []) 1 0].
Proof. split; [by vm_compute|]. split; [by vm_compute|]. discriminate. Qed.

(** * The visitor harness *)

(** C10.  A leaf whose type has no visit method makes [visit] throw the
    error "Each terminal should have a corresponding visit method"; the
    fallback is for internal nodes only: there [visit] is [visitChildren],
    which visits the children in order, gives up at the first one that
    throws, and returns what the visit of the last child returns. *)
Theorem visit_leaf_without_method :
  ∀ (T St : Type) (fuel : nat) (v : @Visitor.visitor T St) (state : St),
    (∀ leaf,
       v ("visit_" +:+ type leaf) = None →
       Visitor.visit (S fuel) v state (Leaf leaf) =
         Throw (Error_ "Each terminal should have a corresponding visit method"))
    ∧ (∀ k children,
         v ("visit_" +:+ k) = None →
         Visitor.visit (S fuel) v state (Node k children) =
           Visitor.visitChildren fuel v state (Node k children))
    ∧ (∀ k children last_child r,
         Forall (λ c, ∃ x, Visitor.visit fuel v state c = Ok x) children →
         Visitor.visit fuel v state last_child = r →
         Visitor.visitChildren fuel v state (Node k (children ++ [last_child])) = r)
    ∧ (∀ k before c after e,
         Forall (λ c, ∃ x, Visitor.visit fuel v state c = Ok x) before →
         Visitor.visit fuel v state c = Throw e →
         Visitor.visitChildren fuel v state (Node k (before ++ c :: after)) = Throw e).
Proof.
  intros T St fuel v state. repeat split.
  - intros leaf Hnone. simpl. by rewrite Hnone.
  - intros k children Hnone. simpl. by rewrite Hnone.
  - intros k children last_child r Hall <-. simpl.
    induction Hall as [|c cs [x Hx] _ IH]; [done|].
    simpl. destruct cs; simpl in *; by rewrite Hx.
  - intros k before c after e Hall Hthrow. simpl.
    induction Hall as [|c' cs [x Hx] _ IH]; simpl.
    + destruct after; by rewrite Hthrow.
    + destruct cs; simpl in *; by rewrite Hx.
Qed.

Lemma visit_leaf_without_method_witness :
  Visitor.visit (T := nat) (St := unit) 1 (λ _, None) tt
    (Leaf (mkLex "number" ("3", []) 0 0)) =
    Throw (Error_ "Each terminal should have a corresponding visit method").
Proof.
  apply (proj1 (visit_leaf_without_method nat unit 0 (λ _, None) tt)).
  reflexivity.
Defined.

(** * More fuel never changes a result

    Fuel only bounds the loops of the model: once a run has ended, with a
    value or with an exception, every run with more fuel ends the same
    way. *)

(** [m'] is [m] unless [m] ran out of fuel. *)
Definition settles {A} (m m' : outcome A) : Prop := m ≠ Timeout → m' = m.

Lemma settles_refl {A} (m : outcome A) : settles m m.
Proof. by intros ?. Qed.

Lemma settles_Timeout {A} (m : outcome A) : settles Timeout m.
Proof. by intros ?. Qed.

#[local] Hint Resolve settles_refl settles_Timeout : core.

Lemma settles_trans {A} (m1 m2 m3 : outcome A) :
  settles m1 m2 → settles m2 m3 → settles m1 m3.
Proof. intros H12 H23 Hne. rewrite <- (H12 Hne). apply H23. by rewrite (H12 Hne). Qed.

Lemma settles_bind {A B} (m m' : outcome A) (f f' : A → outcome B) :
  settles m m' → (∀ a, settles (f a) (f' a)) → settles (m ≫= f) (m' ≫= f').
Proof.
  intros Hm Hf. destruct m as [a|e|]; simpl; intros Hne; [| |done].
  - rewrite Hm by done. simpl. by apply Hf.
  - by rewrite Hm.
Qed.

Lemma settles_foldM {A B} (f f' : A → B → outcome A) l :
  (∀ a b, settles (f a b) (f' a b)) → ∀ a, settles (foldM f a l) (foldM f' a l).
Proof.
  intros Hf. induction l as [|b l IH]; intros a; simpl; [done|].
  apply settles_bind; [apply Hf | apply IH].
Qed.

Lemma settles_le {A} (F : nat → outcome A) :
  (∀ n, settles (F n) (F (S n))) → ∀ n n', n ≤ n' → settles (F n) (F n').
Proof.
  intros Hstep n n' Hle. induction Hle as [|m _ IH]; [done|].
  eapply settles_trans; [exact IH | apply Hstep].
Qed.

Lemma settles_Ok {A} (m m' : outcome A) a : settles m m' → m = Ok a → m' = Ok a.
Proof. intros H ->. by apply H. Qed.

Lemma settles_Throw {A} (m m' : outcome A) e : settles m m' → m = Throw e → m' = Throw e.
Proof. intros H ->. by apply H. Qed.

(** ** The table builder *)

Lemma while_changed_fuel {X} (pass : X → X * bool) n :
  ∀ n' x, n ≤ n' → settles (while_changed n pass x) (while_changed n' pass x).
Proof.
  induction n as [|n IH]; intros n' x Hle; [done|].
  destruct n' as [|n']; [lia|]. simpl. destruct (pass x) as [y changed].
  destruct changed; [apply IH; lia | done].
Qed.

Lemma first_fuel rules n n' : n ≤ n' → settles (first n rules) (first n' rules).
Proof. apply while_changed_fuel. Qed.

Lemma follow_fuel rules start n n' :
  n ≤ n' → settles (follow n rules start) (follow n' rules start).
Proof.
  intros Hle. unfold follow. destruct (follow_init rules !! start); [|done].
  apply settles_bind; [by apply first_fuel|].
  intros f. by apply while_changed_fuel.
Qed.

Lemma closure_loop_fuel rules n n' :
  n ≤ n' → ∀ ruleSet p,
    settles (closure_loop n rules ruleSet p) (closure_loop n' rules ruleSet p).
Proof.
  revert n'. induction n as [|n IH]; intros n' Hle ruleSet p; [done|].
  destruct n' as [|n']; [lia|]. simpl.
  destruct (ruleSet !! p); [apply IH; lia | done].
Qed.

Lemma closure_fuel rules root n n' :
  n ≤ n' → settles (closure n rules root) (closure n' rules root).
Proof. intros Hle. by apply closure_loop_fuel. Qed.

Lemma goto_advance_fuel rules rule i j acc n n' :
  n ≤ n' →
  settles (goto_advance n rules rule i j acc) (goto_advance n' rules rule i j acc).
Proof.
  intros Hle. unfold goto_advance.
  apply settles_bind; [by apply closure_fuel | done].
Qed.

Lemma goto_rule_fuel rules el acc ir n n' :
  n ≤ n' → settles (goto_rule n rules el acc ir) (goto_rule n' rules el acc ir).
Proof.
  intros Hle. unfold goto_rule. destruct ir as [i rule].
  destruct (children rule !! dot rule) as [e|]; [|done].
  case_decide; [|done].
  apply settles_bind; [by apply goto_advance_fuel|].
  intros acc'. destruct (canRepeat e); [by apply goto_advance_fuel | done].
Qed.

Lemma goto_fuel rules ruleSet el n n' :
  n ≤ n' → settles (goto n rules ruleSet el) (goto n' rules ruleSet el).
Proof.
  intros Hle. unfold goto. apply settles_foldM.
  intros acc ir. by apply goto_rule_fuel.
Qed.

Lemma table_item_fuel rules start follow st acc jr n n' :
  n ≤ n' →
  settles (table_item n rules start follow st acc jr)
          (table_item n' rules start follow st acc jr).
Proof.
  intros Hle. unfold table_item. destruct acc as [states row], jr as [j rule].
  case_decide; [done|].
  destruct (children rule !! dot rule) as [e|]; [|done].
  destruct (row !! base e); [done|].
  apply settles_bind; [by apply goto_fuel | done].
Qed.

Lemma buildTable_loop_fuel rules start follow n :
  ∀ n' i i' states actionTable,
    n ≤ n' → i ≤ i' →
    settles (buildTable_loop n i rules start follow states actionTable)
            (buildTable_loop n' i' rules start follow states actionTable).
Proof.
  induction n as [|n IH]; intros n' i i' states actionTable Hn Hi; [done|].
  destruct n' as [|n']; [lia|]. simpl.
  destruct (states !! length actionTable) as [st|]; [|done].
  apply settles_bind.
  - apply settles_foldM. intros acc jr. by apply table_item_fuel.
  - intros [states' row]. apply IH; lia.
Qed.

Lemma buildTable_states_fuel rules start n n' :
  n ≤ n' →
  settles (buildTable_states n rules start) (buildTable_states n' rules start).
Proof.
  intros Hle. unfold buildTable_states.
  apply settles_bind; [by apply closure_fuel|]. intros st0.
  apply settles_bind; [by apply follow_fuel|]. intros fol.
  by apply buildTable_loop_fuel.
Qed.

Lemma buildTable_fuel rules start n n' :
  n ≤ n' → settles (buildTable n rules start) (buildTable n' rules start).
Proof.
  intros Hle. unfold buildTable.
  apply settles_bind; [by apply buildTable_states_fuel | done].
Qed.

Lemma Parser_new_fuel rules start n n' :
  n ≤ n' → settles (Parser.new n rules start) (Parser.new n' rules start).
Proof.
  intros Hle. unfold Parser.new.
  apply settles_bind; [done|]. intros _. by apply buildTable_fuel.
Qed.

Lemma Persist_new_fuel rules start version files n n' :
  n ≤ n' →
  settles (Persist.new n rules start version files)
          (Persist.new n' rules start version files).
Proof.
  intros Hle. unfold Persist.new.
  apply settles_bind; [done|]. intros _.
  destruct (_ ≫= _); [done|].
  apply settles_bind; [by apply buildTable_fuel | done].
Qed.

(** ** The lexer and the parse runtime *)

Lemma lex_line_fuel terminals token n :
  ∀ n' i output,
    n ≤ n' →
    settles (Lexer.lex_line n terminals token i output)
            (Lexer.lex_line n' terminals token i output).
Proof.
  induction n as [|n IH]; intros n' i output Hle; [done|].
  destruct n' as [|n']; [lia|]. simpl.
  apply settles_bind; [done|]. intros lexToken.
  case_decide; [done | apply IH; lia].
Qed.

Lemma lex_fuel terminals tokens n n' :
  n ≤ n' → settles (Lexer.lex n terminals tokens) (Lexer.lex n' terminals tokens).
Proof.
  intros Hle. unfold Lexer.lex. apply settles_foldM.
  intros output token. case_decide; [by apply lex_line_fuel | done].
Qed.

Lemma parse_loop_fuel actionTable lexer tokens n :
  ∀ n' st,
    n ≤ n' →
    settles (parse_loop n actionTable lexer tokens st)
            (parse_loop n' actionTable lexer tokens st).
Proof.
  induction n as [|n IH]; intros n' st Hle; [done|].
  destruct n' as [|n']; [lia|]. simpl.
  apply settles_bind; [done|]. intros [st'|tree]; [apply IH; lia | done].
Qed.

Lemma parse_fuel actionTable lexer tokens n n' :
  n ≤ n' →
  settles (parse n actionTable lexer tokens) (parse n' actionTable lexer tokens).
Proof. intros Hle. by apply parse_loop_fuel. Qed.

(** * Two grammars run end to end *)

(** The grammar list → "[" item* "]", item → "a". *)
Definition list_rules : RuleSet :=
  [("list", [["["; "item*"; "]"]]); ("item", [["a"]])].

(** Build the parser and a lexer over the terminals promoted from the
    rules, split the input and parse it. *)
Definition parse_text (fuel : nat) (rules : RuleSet) (start input : string)
    : outcome Tree :=
  actionTable ← Parser.new fuel rules start;
  lexer ← Lexer.new (Parser.terminals rules []);
  tokens ← Lexer.split input None;
  parse fuel actionTable lexer tokens.

Definition leaf (ty : string) (column : nat) : Tree :=
  Leaf (mkLex ty (ty, []) column 0).

Lemma parse_text_fuel rules start input n n' :
  n ≤ n' →
  settles (parse_text n rules start input) (parse_text n' rules start input).
Proof.
  intros Hle. unfold parse_text.
  apply settles_bind; [by apply Parser_new_fuel|]. intros actionTable.
  apply settles_bind; [done|]. intros lexer.
  apply settles_bind; [done|]. intros tokens.
  by apply parse_fuel.
Qed.

Lemma parse_empty_list fuel :
  parse_text (50 + fuel) list_rules "list" "[]" =
    Ok (Node "list" [leaf "[" 0; leaf "]" 1]).
Proof.
  eapply settles_Ok; [apply (parse_text_fuel _ _ _ 50); lia|].
  vm_compute. reflexivity.
Qed.

(** C2, as the code has it.  With fuel enough for the loops to end, on
    "[]" the parser returns a list node with two children, the two
    brackets; on "[aaa]" it returns a list node with five children: the
    opening bracket, three item subtrees and the closing bracket, in source
    order. *)
Theorem parse_list_star :
  ∀ fuel,
    parse_text (50 + fuel) list_rules "list" "[]" =
      Ok (Node "list" [leaf "[" 0; leaf "]" 1])
    ∧ parse_text (50 + fuel) list_rules "list" "[aaa]" =
      Ok (Node "list"
            [leaf "[" 0;
             Node "item" [leaf "a" 1];
             Node "item" [leaf "a" 2];
             Node "item" [leaf "a" 3];
             leaf "]" 4]).
Proof.
  intros fuel. split; [apply parse_empty_list|].
  eapply settles_Ok; [apply (parse_text_fuel _ _ _ 50); lia|].
  vm_compute. reflexivity.
Qed.

(** C2, as stated, fails on "[]": whatever the fuel, the node returned does
    not have three children. *)
Lemma parse_empty_list_not_three :
  ¬ ∃ fuel children,
      parse_text fuel list_rules "list" "[]" = Ok (Node "list" children)
      ∧ length children = 3.
Proof.
  intros (fuel & children & Hparse & Hlen).
  assert (Hmore : parse_text (50 + fuel) list_rules "list" "[]" =
                    Ok (Node "list" children)).
  { eapply settles_Ok; [apply (parse_text_fuel _ _ _ fuel); lia | exact Hparse]. }
  rewrite parse_empty_list in Hmore. injection Hmore as <-. discriminate Hlen.
Qed.

(** * The persisted table *)

(** What [JSON.parse] gives back for what [JSON.stringify] wrote: the
    table with [null] in every hole of a [cameFrom] array. *)
Definition null_hole (v : cfval) : cfval :=
  match v with cf_hole => cf_null | _ => v end.

Definition null_holes_action (a : Action) : Action :=
  match a with
  | shift goto cameFrom => shift goto (null_hole <$> cameFrom)
  | _ => a
  end.

Definition null_holes (actionTable : ActionTable) : ActionTable :=
  (λ row : Row, null_holes_action <$> row) <$> (actionTable : list Row).

(** No [cameFrom] array of the table has a hole. *)
Definition hole_free (actionTable : ActionTable) : Prop :=
  ∀ row el goto cameFrom,
    row ∈ actionTable → row !! el = Some (shift goto cameFrom) →
    cf_hole ∉ cameFrom.

Lemma mapM_fmap_Some {A B C} (f : A → B) (g : B → option C) (h : A → C) l :
  (∀ x, g (f x) = Some (h x)) → mapM g (f <$> l) = Some (h <$> l).
Proof.
  intros Hgf. induction l as [|x l IH]; [done|].
  rewrite !fmap_cons. cbn [mapM]. by rewrite Hgf, IH.
Qed.

Lemma action_of_json_to_json a :
  action_of_json (action_to_json a) = Some (null_holes_action a).
Proof.
  destruct a as [goto cameFrom|k rule|k]; simpl; [|done..].
  rewrite (mapM_fmap_Some _ _ null_hole); [done|]. by intros [].
Qed.

Lemma row_of_json_to_json (row : Row) :
  row_of_json (row_to_json row) = Some (null_holes_action <$> row).
Proof.
  unfold row_of_json, row_to_json.
  rewrite (mapM_fmap_Some _ _ (prod_map id null_holes_action)).
  - simpl. f_equal. by rewrite list_to_map_fmap, list_to_map_to_list.
  - intros [k a]. simpl. by rewrite action_of_json_to_json.
Qed.

(** The round trip through the file puts [null] in the holes and changes
    nothing else. *)
Lemma table_of_json_stringify actionTable :
  table_of_json (stringify actionTable) = Some (null_holes actionTable).
Proof.
  unfold table_of_json, stringify, null_holes.
  apply mapM_fmap_Some, row_of_json_to_json.
Qed.

(** A table without holes comes back as it was written. *)
Lemma null_holes_hole_free actionTable :
  hole_free actionTable → null_holes actionTable = actionTable.
Proof.
  intros Hfree. unfold null_holes. apply list_eq. intros i.
  rewrite list_lookup_fmap. destruct (_ !! i) as [row|] eqn:Hrow; [|done].
  simpl. f_equal. apply map_eq. intros el. rewrite lookup_fmap.
  destruct (row !! el) as [a|] eqn:Ha; [|done]. simpl. f_equal.
  destruct a as [goto cameFrom|k rule|k]; [|done..]. simpl. f_equal.
  assert (Hcf : cf_hole ∉ cameFrom).
  { eapply Hfree; [|exact Ha]. by eapply list_elem_of_lookup_2. }
  clear -Hcf. induction cameFrom as [|v cf IH]; [done|].
  apply not_elem_of_cons in Hcf as [Hv Hcf]. rewrite fmap_cons, IH by done.
  by destruct v.
Qed.

(** The grammar root → "x" B | "x" C, B → "b", C → "c": after "x" the
    state holds the item of B between the two items of root, so the
    [cameFrom] array of the shift on "x" has a hole. *)
Definition hole_rules : RuleSet :=
  [("root", [["x"; "B"]; ["x"; "C"]]); ("B", [["b"]]); ("C", [["c"]])].

(** Parse [input] with the parser that [new Parser(rules, start, version)]
    makes in the working directory [files]; the files it leaves are
    returned too. *)
Definition parse_versioned (fuel : nat) (rules : RuleSet) (start : string)
    (version : option string) (files : Files) (input : string)
    : outcome (Tree * Files) :=
  '(actionTable, files) ← Persist.new fuel rules start version files;
  lexer ← Lexer.new (Parser.terminals rules []);
  tokens ← Lexer.split input None;
  tree ← parse fuel actionTable lexer tokens;
  Ok (tree, files).

Lemma parse_versioned_fuel rules start version files input n n' :
  n ≤ n' →
  settles (parse_versioned n rules start version files input)
          (parse_versioned n' rules start version files input).
Proof.
  intros Hle. unfold parse_versioned.
  apply settles_bind; [by apply Persist_new_fuel|]. intros [actionTable files'].
  apply settles_bind; [done|]. intros lexer.
  apply settles_bind; [done|]. intros tokens.
  apply settles_bind; [by apply parse_fuel | done].
Qed.

(** The table of [hole_rules]. *)
Definition hole_table : ActionTable :=
  match Parser.new 50 hole_rules "root" with
  | Ok actionTable => actionTable
  | _ => []
  end.

(** The working directory once the first parser has written its table. *)
Definition hole_files : Files :=
  <[Persist.file_name "1" := stringify hole_table]> ∅.

(** C3 fails on the code.  The first parser built with the version tag "1"
    builds the table, writes it and parses "xb" into root("x", B("b")).  A
    second parser made from the same rules with the same tag reads the
    table back with [null] in the place of the hole, counts one symbol too
    many for the item of B and, reducing B, pops "x" as well: the parse
    throws. *)
Theorem persisted_table_differs :
  ∀ fuel,
    Parser.new (50 + fuel) hole_rules "root" = Ok hole_table
    ∧ parse_versioned (50 + fuel) hole_rules "root" (Some "1") ∅ "xb" =
        Ok (Node "root" [leaf "x" 0; Node "B" [leaf "b" 1]], hole_files)
    ∧ Persist.new (50 + fuel) hole_rules "root" (Some "1") hole_files =
        Ok (null_holes hole_table, hole_files)
    ∧ null_holes hole_table ≠ hole_table
    ∧ parse_versioned (50 + fuel) hole_rules "root" (Some "1") hole_files "xb" =
        Throw undefined_read.
Proof.
  intros fuel. split; [|split; [|split; [|split]]].
  - eapply settles_Ok; [apply (Parser_new_fuel _ _ 50); lia|]. by vm_compute.
  - eapply settles_Ok; [apply (parse_versioned_fuel _ _ _ _ _ 50); lia|].
    by vm_compute.
  - unfold Persist.new. simpl. unfold hole_files. rewrite lookup_insert_eq.
    by rewrite table_of_json_stringify.
  - by vm_compute.
  - eapply settles_Throw; [apply (parse_versioned_fuel _ _ _ _ _ 50); lia|].
    by vm_compute.
Qed.

(** * The parse runtime: the stacks *)

(** The states the loop of [parse] goes through. *)
Inductive reachable (actionTable : ActionTable) (lexer : list Terminal)
    (tokens : list LexTree) : pstate → Prop :=
  | reach_init : reachable actionTable lexer tokens pstate_init
  | reach_step st st' :
      reachable actionTable lexer tokens st →
      parse_step actionTable lexer tokens st = Ok (inl st') →
      reachable actionTable lexer tokens st'.

(** [symbolStack] is one shorter than [stateStack], and [readStack] is as
    long as [stateStack]. *)
Definition stacks_aligned (st : pstate) : Prop :=
  length (symbolStack st) + 1 = length (stateStack st)
  ∧ length (readStack st) = length (stateStack st).

(** What a shift does to the stacks. *)
Definition shifted (st st' : pstate) (token : LexTree) (goto : nat) : Prop :=
  symbolStack st' = symbolStack st ++ [Leaf token]
  ∧ stateStack st' = stateStack st ++ [goto]
  ∧ length (readStack st') = length (readStack st) + 1.

(** What a reduce does to the stacks: the same number [n] of entries leaves
    each of them, then the parent and the goto state are pushed. *)
Definition reduced (st st' : pstate) (k : string) (n goto : nat) : Prop :=
  ∃ symbols popped states popped_states reads popped_reads entry,
    symbolStack st = symbols ++ popped ∧ length popped = n
    ∧ stateStack st = states ++ popped_states ∧ length popped_states = n
    ∧ readStack st = reads ++ popped_reads ∧ length popped_reads = n
    ∧ symbolStack st' = symbols ++ [Node k popped]
    ∧ stateStack st' = states ++ [goto]
    ∧ readStack st' = reads ++ [entry].

Lemma push_goto_stacks st goto cameFrom st' :
  push_goto st goto cameFrom = Ok st' →
  symbolStack st' = symbolStack st
  ∧ stateStack st' = stateStack st ++ [goto]
  ∧ (∃ entry, readStack st' = readStack st ++ [entry])
  ∧ lexToken st' = lexToken st ∧ pindex st' = pindex st ∧ pi st' = pi st.
Proof.
  unfold push_goto. intros (entry & _ & [= <-])%bind_Ok. simpl. eauto 10.
Qed.

Lemma splice_last_app {A} (n : option nat) (l : list A) :
  (splice_last n l).1 ++ (splice_last n l).2 = l.
Proof. unfold splice_last. simpl. apply take_drop. Qed.

Lemma current_row_Some actionTable stateStack row :
  current_row actionTable stateStack = Some row →
  ∃ s, last stateStack = Some s ∧ actionTable !! s = Some row.
Proof.
  unfold current_row. destruct (last stateStack) as [s|]; simpl; [eauto | done].
Qed.

(** The number of entries that [splice(-n)] removes from each stack when
    the state stack is not left empty. *)
Lemma splice_last_same {A B} (n : option nat) (l1 : list A) (l2 : list B) :
  length l1 + 1 = length l2 →
  (splice_last n l2).1 ≠ [] →
  ∃ m, n = Some m ∧ 0 < m
       ∧ length (splice_last n l1).2 = m ∧ length (splice_last n l2).2 = m.
Proof.
  unfold splice_last. simpl. intros Hlen Hne.
  destruct n as [[|m]|]; [by rewrite take_0 in Hne| |by rewrite take_0 in Hne].
  destruct (decide (length l2 - S m = 0)) as [Hz|Hz].
  { rewrite Hz, take_0 in Hne. done. }
  exists (S m). rewrite !length_drop. repeat split; lia.
Qed.

Lemma splice_last_equal {A B} (n : option nat) (l1 : list A) (l2 : list B) :
  length l1 = length l2 →
  length (splice_last n l1).2 = length (splice_last n l2).2.
Proof.
  unfold splice_last. simpl. intros Hlen. rewrite !length_drop.
  destruct n as [[|m]|]; lia.
Qed.

(** The effect of the body of the loop once the token is known. *)
Lemma parse_action_stacks actionTable st token st' :
  stacks_aligned st →
  parse_action actionTable st token = Ok (inl st') →
  (type token = "whitespace"
   ∧ symbolStack st' = symbolStack st ∧ stateStack st' = stateStack st
   ∧ readStack st' = readStack st)
  ∨ (∃ row goto cameFrom,
       type token ≠ "whitespace"
       ∧ current_row actionTable (stateStack st) = Some row
       ∧ row !! type token = Some (shift goto cameFrom)
       ∧ shifted st st' token goto)
  ∨ (∃ row k rule top n goto,
       type token ≠ "whitespace"
       ∧ current_row actionTable (stateStack st) = Some row
       ∧ row !! type token = Some (reduce k rule)
       ∧ last (readStack st) = Some top
       ∧ read_count top rule = Some n ∧ 0 < n
       ∧ reduced st st' k n goto).
Proof.
  intros [Hsym Hread]. unfold parse_action.
  case_decide as Hws.
  { intros [= <-]. left. simpl. done. }
  destruct (current_row actionTable (stateStack st)) as [row|] eqn:Hrow; [|done].
  destruct (row !! type token) as [[goto cameFrom|k rule|k]|] eqn:Hact; [| |done..].
  - intros (st1 & Hpush & [= <-])%bind_Ok.
    apply push_goto_stacks in Hpush as (Hs & Hst & [entry Hr] & _). simpl in *.
    right; left. exists row, goto, cameFrom. repeat split; try done.
    rewrite Hr, length_app. simpl. lia.
  - destruct (last (readStack st)) as [top|] eqn:Htop; [|done].
    destruct (splice_last (read_count top rule) (symbolStack st))
      as [symbols popped] eqn:Hsplice.
    destruct (current_row actionTable
                (splice_last (read_count top rule) (stateStack st)).1)
      as [row'|] eqn:Hrow'; [|done].
    destruct (row' !! k) as [[goto cameFrom|?|?]|] eqn:Hgoto; [|done..].
    assert (Hne : (splice_last (read_count top rule) (stateStack st)).1 ≠ []).
    { intros Hnil. by rewrite Hnil in Hrow'. }
    intros (st1 & Hpush & [= <-])%bind_Ok.
    apply push_goto_stacks in Hpush as (Hs & Hst & [entry Hr] & _).
    cbn [symbolStack stateStack readStack] in Hs, Hst, Hr.
    destruct (splice_last_same _ (symbolStack st) _ Hsym Hne)
      as (n & Hn & Hpos & Hl1 & Hl2).
    right; right. exists row, k, rule, top, n, goto.
    repeat split; try done.
    exists symbols, popped,
      (splice_last (read_count top rule) (stateStack st)).1,
      (splice_last (read_count top rule) (stateStack st)).2,
      (splice_last (read_count top rule) (readStack st)).1,
      (splice_last (read_count top rule) (readStack st)).2, entry.
    pose proof (splice_last_app (read_count top rule) (symbolStack st)) as Happ.
    rewrite Hsplice in Happ, Hl1. simpl in Happ, Hl1.
    repeat split; try done.
    + by rewrite splice_last_app.
    + by rewrite splice_last_app.
    + by rewrite (splice_last_equal _ _ (stateStack st)).
Qed.

(** The token the body of the loop works on, and the state it works from:
    the lexer may have filled [lexToken] and moved [index], the stacks are
    those of the start of the turn. *)
Lemma parse_step_action actionTable lexer tokens st r :
  parse_step actionTable lexer tokens st = Ok r →
  (∃ st', r = inl st' ∧ symbolStack st' = symbolStack st
          ∧ stateStack st' = stateStack st ∧ readStack st' = readStack st)
  ∨ (∃ st0 token,
       parse_action actionTable st0 token = Ok r
       ∧ symbolStack st0 = symbolStack st ∧ stateStack st0 = stateStack st
       ∧ readStack st0 = readStack st).
Proof.
  unfold parse_step.
  destruct (lexToken st) as [token|]; [right; by exists st, token|].
  destruct (tokens !! pi st) as [token|]; [|done].
  case_decide; [|right; by exists st, token].
  intros (lexed & Hnext & Hrest)%bind_Ok.
  case_decide.
  - injection Hrest as <-. left. eexists. by split.
  - right. eexists _, lexed. by split.
Qed.

Lemma aligned_after_shift st st' token goto :
  stacks_aligned st → shifted st st' token goto → stacks_aligned st'.
Proof.
  intros [Hs Hr] (Hs' & Hst' & Hr'). unfold stacks_aligned.
  rewrite Hs', Hst', Hr', !length_app. simpl. lia.
Qed.

Lemma aligned_after_reduce st st' k n goto :
  stacks_aligned st → reduced st st' k n goto → stacks_aligned st'.
Proof.
  intros [Hs Hr] (symbols & popped & states & popped_states & reads & popped_reads
                  & entry & Hsym & Hn1 & Hst & Hn2 & Hrd & Hn3 & Hs' & Hst' & Hr').
  rewrite Hsym, Hst, Hrd, !length_app in *. unfold stacks_aligned.
  rewrite Hs', Hst', Hr', !length_app. simpl. lia.
Qed.

Lemma parse_step_aligned actionTable lexer tokens st st' :
  stacks_aligned st →
  parse_step actionTable lexer tokens st = Ok (inl st') →
  stacks_aligned st'.
Proof.
  intros Hal Hstep.
  apply parse_step_action in Hstep
    as [(st1 & [= <-] & Hs & Hst & Hr)|(st0 & token & Hact & Hs & Hst & Hr)].
  - destruct Hal. unfold stacks_aligned. by rewrite Hs, Hst, Hr.
  - assert (Hal0 : stacks_aligned st0).
    { destruct Hal. unfold stacks_aligned. by rewrite Hs, Hst, Hr. }
    apply parse_action_stacks in Hact
      as [(_ & Hs' & Hst' & Hr')
         |[(row & goto & cf & _ & _ & _ & Hshift)
          |(row & k & rule & top & n & goto & _ & _ & _ & _ & _ & _ & Hred)]];
      [| | |done].
    + destruct Hal0. unfold stacks_aligned. by rewrite Hs', Hst', Hr'.
    + by eapply aligned_after_shift.
    + by eapply aligned_after_reduce.
Qed.

Lemma reachable_aligned actionTable lexer tokens st :
  reachable actionTable lexer tokens st → stacks_aligned st.
Proof.
  induction 1 as [|st st' _ IH Hstep].
  - split; reflexivity.
  - by eapply parse_step_aligned.
Qed.


(** * The table builder: items, closure and goto *)

Lemma foldM_invariant {A B} (P : A → Prop) (f : A → B → outcome A) l a r :
  P a →
  (∀ a b a', b ∈ l → P a → f a b = Ok a' → P a') →
  foldM f a l = Ok r → P r.
Proof.
  revert a. induction l as [|b l IH]; intros a Ha Hf; simpl.
  - by intros [= <-].
  - intros (a' & Hb & Hrest)%bind_Ok. eapply IH; [|by eauto using list_elem_of_further|done].
    eapply Hf; [left|done..].
Qed.

Lemma elem_of_imap_pair {A} (l : list A) i x :
  (i, x) ∈ imap pair l ↔ l !! i = Some x.
Proof.
  rewrite elem_of_lookup_imap. split.
  - by intros (j & y & [= -> ->] & Hl).
  - intros Hl. by exists i, x.
Qed.

(** A rule without quantifiers. *)
Definition quantifier_free (ch : Rule) : Prop :=
  Forall (λ e, canOmit e = false ∧ canRepeat e = false) ch.

(** An item that [closure] adds: one of [skipOmit] of a rule of a
    non-terminal with the dot at the start. *)
Definition closure_born (rules : RuleSet) (it : DottedRule) : Prop :=
  ∃ nt rs ch, rules_get rules nt = Some rs ∧ ch ∈ rs
              ∧ it ∈ skipOmit (mkDotted nt ch 0).

Lemma skipOmit_from_elem k ch i rest it :
  it ∈ skipOmit_from k ch i rest →
  key it = k ∧ children it = ch ∧ i < dot it ≤ i + length rest
  ∧ ∃ e, e ∈ rest ∧ canOmit e = true.
Proof.
  revert i. induction rest as [|e rest IH]; intros i; simpl.
  - by intros ?%elem_of_nil.
  - destruct (canOmit e) eqn:He; [|by intros ?%elem_of_nil].
    intros [->|Hin]%elem_of_cons.
    + simpl. repeat split; try lia. exists e. split; [left | done].
    + apply IH in Hin as (? & ? & ? & e' & ? & ?).
      repeat split; try done; try lia. exists e'. split; [by right | done].
Qed.

Lemma skipOmit_elem root it :
  it ∈ skipOmit root →
  key it = key root ∧ children it = children root
  ∧ (it = root
     ∨ (dot root < dot it ≤ dot root + length (drop (dot root) (children root))
        ∧ ∃ e, e ∈ children root ∧ canOmit e = true)).
Proof.
  unfold skipOmit. intros [->|Hin]%elem_of_cons; [by auto|].
  apply skipOmit_from_elem in Hin as (? & ? & ? & e & He & ?).
  repeat split; try done. right. split; [done|].
  exists e. split; [|done]. eapply list_elem_of_lookup.
  apply list_elem_of_lookup in He as [j Hj]. rewrite lookup_drop in Hj. eauto.
Qed.

Lemma quantifier_free_no_omit ch e :
  quantifier_free ch → e ∈ ch → canOmit e = true → False.
Proof.
  intros Hq He Ho. eapply Forall_forall in Hq as [Hq _]; [|done]. congruence.
Qed.

Lemma skipOmit_quantifier_free root it :
  quantifier_free (children root) → it ∈ skipOmit root → it = root.
Proof.
  intros Hq (_ & _ & [->|[_ (e & He & Ho)]])%skipOmit_elem; [done|].
  by destruct (quantifier_free_no_omit _ _ Hq He Ho).
Qed.

Lemma closure_born_quantifier_free rules it :
  closure_born rules it → quantifier_free (children it) → dot it = 0.
Proof.
  intros (nt & rs & ch & _ & _ & Hin) Hq.
  pose proof Hin as (_ & Hch & _)%skipOmit_elem. simpl in Hch.
  apply skipOmit_quantifier_free in Hin; [by subst | simpl; congruence].
Qed.

Lemma push_new_elem ruleSet nextRule it :
  it ∈ push_new ruleSet nextRule ↔ it ∈ ruleSet ∨ it = nextRule.
Proof.
  unfold push_new. case_decide.
  - split; [auto|]. intros [?| ->]; done.
  - rewrite elem_of_app, list_elem_of_singleton. done.
Qed.

Lemma foldl_push_new_elem items : ∀ acc it,
  it ∈ foldl push_new acc items ↔ it ∈ acc ∨ it ∈ items.
Proof.
  induction items as [|y items IH]; intros acc it; simpl.
  - rewrite elem_of_nil. tauto.
  - rewrite IH, push_new_elem, elem_of_cons. tauto.
Qed.

Lemma foldl_skipOmit_elem nt rs : ∀ acc it,
  it ∈ foldl (λ ruleSet ch, foldl push_new ruleSet (skipOmit (mkDotted nt ch 0)))
          acc rs
  ↔ it ∈ acc ∨ ∃ ch, ch ∈ rs ∧ it ∈ skipOmit (mkDotted nt ch 0).
Proof.
  induction rs as [|ch rs IH]; intros acc it; cbn [foldl].
  - split; [auto|]. intros [?|(? & ?%elem_of_nil & _)]; done.
  - rewrite IH, foldl_push_new_elem. split.
    + intros [[?|?]|(ch' & ? & ?)]; [by auto| |].
      * right. exists ch. split; [left | done].
      * right. exists ch'. split; [by right | done].
    + intros [?|(ch' & [->|?]%elem_of_cons & ?)]; [by auto|by auto|].
      right. by exists ch'.
Qed.

Lemma closure_expand_elem rules ruleSet rule it :
  it ∈ closure_expand rules ruleSet rule →
  it ∈ ruleSet ∨ closure_born rules it.
Proof.
  unfold closure_expand.
  destruct (children rule !! dot rule) as [e|]; [|by left].
  destruct (rules_get rules (base e)) as [rs|] eqn:Hrs; [|by left].
  rewrite foldl_skipOmit_elem. intros [?|(ch & Hch & Hin)]; [by left|].
  right. by exists (base e), rs, ch.
Qed.

Lemma closure_loop_elem fuel rules : ∀ ruleSet p cl it,
  closure_loop fuel rules ruleSet p = Ok cl → it ∈ cl →
  it ∈ ruleSet ∨ closure_born rules it.
Proof.
  induction fuel as [|fuel IH]; intros ruleSet p cl it; simpl; [done|].
  destruct (ruleSet !! p) as [rule|]; [|by intros [= <-]; auto].
  intros Hloop Hin. eapply IH in Hin as [Hin|?]; [|by right|exact Hloop].
  by apply closure_expand_elem in Hin.
Qed.

Lemma closure_elem fuel rules root cl it :
  closure fuel rules root = Ok cl → it ∈ cl →
  it ∈ skipOmit root ∨ closure_born rules it.
Proof. apply closure_loop_elem. Qed.

(** ** What [goto] records in [cameFrom]

    For an item without quantifiers the array holds nothing when the dot is
    at the start, and otherwise the position, in the state [goto] started
    from, of the same rule with the dot one step back. *)
Definition cameFrom_tracks (ruleSet output : State) (cameFrom : list cfval) : Prop :=
  length cameFrom ≤ length output
  ∧ ∀ r it,
      output !! r = Some it → quantifier_free (children it) →
      (dot it = 0 → cf_lookup cameFrom r = cf_hole)
      ∧ (0 < dot it →
         ∃ i, cf_lookup cameFrom r = cf_idx i
              ∧ ruleSet !! i = Some (mkDotted (key it) (children it) (dot it - 1))).

Lemma cf_lookup_ge cameFrom r :
  length cameFrom ≤ r → cf_lookup cameFrom r = cf_hole.
Proof. intros Hr. unfold cf_lookup. by rewrite lookup_ge_None_2. Qed.

Lemma cf_lookup_arr_set cameFrom n v r :
  length cameFrom ≤ n →
  cf_lookup (arr_set cameFrom n v) r =
    if decide (r = n) then v else cf_lookup cameFrom r.
Proof.
  intros Hn. unfold arr_set. rewrite decide_False by lia. unfold cf_lookup.
  destruct (decide (r < length cameFrom)) as [Hr|Hr].
  { rewrite lookup_app_l by done. by rewrite decide_False by lia. }
  rewrite lookup_app_r by lia.
  rewrite (lookup_ge_None_2 cameFrom r) by lia.
  destruct (decide (r - length cameFrom < n - length cameFrom)) as [Hr'|Hr'].
  { rewrite lookup_app_l by (by rewrite length_replicate).
    rewrite lookup_replicate_2 by done. by rewrite decide_False by lia. }
  rewrite lookup_app_r by (rewrite length_replicate; lia).
  rewrite length_replicate.
  case_decide as Heq.
  - subst r. by replace (n - length cameFrom - (n - length cameFrom)) with 0 by lia.
  - rewrite lookup_ge_None_2; [done|]. simpl. lia.
Qed.

Lemma length_arr_set cameFrom n v :
  length cameFrom ≤ n → length (arr_set cameFrom n v) = S n.
Proof.
  intros Hn. unfold arr_set. rewrite decide_False by lia.
  rewrite !length_app, length_replicate. simpl. lia.
Qed.

Lemma quantifier_free_no_repeat ch i e :
  quantifier_free ch → ch !! i = Some e → canRepeat e = true → False.
Proof.
  intros Hq He Hr. eapply Forall_lookup in Hq as [_ Hq]; [|done]. congruence.
Qed.

Lemma goto_add_tracks fuel rules ruleSet rule i j cl acc nextRule acc' :
  ruleSet !! i = Some rule →
  (j = 1 ∨ (j = 0 ∧ ¬ quantifier_free (children rule))) →
  closure fuel rules (mkDotted (key rule) (children rule) (dot rule + j)) = Ok cl →
  nextRule ∈ cl →
  cameFrom_tracks ruleSet acc.1 acc.2 →
  goto_add rule i (skipOmit (mkDotted (key rule) (children rule) (dot rule + j)))
    acc nextRule = Ok acc' →
  cameFrom_tracks ruleSet acc'.1 acc'.2.
Proof.
  intros Hrule Hj Hcl Hnext [Hlen Htr]. destruct acc as [output cameFrom].
  unfold goto_add. simpl in *.
  destruct (list_find (λ r, r = nextRule) output) as [[ruleIndex ?]|].
  { case_match; [done|]. by intros [= <-]. }
  intros [= <-]. simpl.
  set (baseRule := mkDotted (key rule) (children rule) (dot rule + j)) in *.
  assert (Hnew : quantifier_free (children nextRule) →
            (nextRule ∈ skipOmit baseRule → nextRule = baseRule ∧ j = 1)
            ∧ (nextRule ∉ skipOmit baseRule → dot nextRule = 0)).
  { intros Hq. split.
    - intros Hin. pose proof Hin as (_ & Hch & _)%skipOmit_elem. simpl in Hch.
      apply skipOmit_quantifier_free in Hin; [|simpl; congruence].
      split; [done|]. destruct Hj as [?|[_ Hnq]]; [done|].
      destruct Hnq. congruence.
    - intros Hnin. eapply closure_elem in Hnext as [?|Hborn]; [done| |exact Hcl].
      by apply closure_born_quantifier_free in Hborn. }
  split.
  - rewrite length_app. simpl. case_bool_decide.
    + rewrite length_arr_set by done. lia.
    + lia.
  - intros r it Hr Hq.
    assert (Hcf : ∀ r', r' < length output →
              cf_lookup (if bool_decide (nextRule ∈ skipOmit baseRule)
                         then arr_set cameFrom (length output) (cf_idx i)
                         else cameFrom) r' = cf_lookup cameFrom r').
    { intros r' Hr'. case_bool_decide; [|done].
      rewrite cf_lookup_arr_set by done. by rewrite decide_False by lia. }
    apply lookup_app_Some in Hr as [Hr|[Hge Hr]].
    { rewrite Hcf by (by eapply lookup_lt_Some). by apply Htr. }
    apply list_lookup_singleton_Some in Hr as [Hr0 <-].
    assert (r = length output) as -> by lia.
    destruct (Hnew Hq) as [Hin Hnin].
    case_bool_decide as Htracked.
    + destruct (Hin Htracked) as [-> ->]. simpl. split; [lia|]. intros _.
      exists i. rewrite cf_lookup_arr_set by done. rewrite decide_True by done.
      split; [done|]. rewrite Hrule. f_equal. destruct rule; simpl. f_equal. lia.
    + rewrite (Hnin Htracked). split; [|lia]. intros _. by apply cf_lookup_ge.
Qed.

Lemma goto_advance_tracks fuel rules ruleSet rule i j acc acc' :
  ruleSet !! i = Some rule →
  (j = 1 ∨ (j = 0 ∧ ¬ quantifier_free (children rule))) →
  cameFrom_tracks ruleSet acc.1 acc.2 →
  goto_advance fuel rules rule i j acc = Ok acc' →
  cameFrom_tracks ruleSet acc'.1 acc'.2.
Proof.
  intros Hrule Hj Hacc. unfold goto_advance.
  intros (cl & Hcl & Hfold)%bind_Ok.
  eapply (foldM_invariant (λ a, cameFrom_tracks ruleSet a.1 a.2)); [exact Hacc| |exact Hfold].
  intros a b a' Hb Ha Hadd. by eapply goto_add_tracks.
Qed.

Lemma goto_tracks fuel rules ruleSet el output cameFrom :
  goto fuel rules ruleSet el = Ok (output, cameFrom) →
  cameFrom_tracks ruleSet output cameFrom.
Proof.
  unfold goto. intros Hfold.
  change (cameFrom_tracks ruleSet (output, cameFrom).1 (output, cameFrom).2).
  eapply (foldM_invariant (λ a, cameFrom_tracks ruleSet a.1 a.2)); [| |exact Hfold].
  { split; [done|]. intros r it Hr; simpl in Hr; by rewrite lookup_nil in Hr. }
  intros a [i rule] a' Hin%elem_of_imap_pair Ha. unfold goto_rule.
  destruct (children rule !! dot rule) as [e|] eqn:He; [|by intros [= <-]].
  case_decide; [|by intros [= <-]].
  intros (a1 & H1 & H0)%bind_Ok.
  eapply goto_advance_tracks in H1; [|done|by left|done].
  destruct (canRepeat e) eqn:Hrep; [|by injection H0 as <-].
  eapply goto_advance_tracks in H0; [done|done| |done].
  right. split; [done|]. intros Hq. by eapply quantifier_free_no_repeat.
Qed.

(** * The table builder: every action comes from an item *)

Section table_sound.
Variables (ifuel : nat) (rules : RuleSet) (start : string) (follow : SetMap).

(** A shift of state [s] on [el] leads to the state that [goto] computes
    and carries its [cameFrom]; a reduce names a finished item of [s]. *)
Definition action_sound (states : list State) (s : nat) (el : string)
    (a : Action) : Prop :=
  match a with
  | shift g cameFrom =>
      ∃ st output,
        states !! s = Some st ∧ states !! g = Some output
        ∧ goto ifuel rules st el = Ok (output, cameFrom)
  | reduce k j =>
      ∃ st it,
        states !! s = Some st ∧ st !! j = Some it
        ∧ key it = k ∧ dot it = length (children it) ∧ key it ≠ start
  | accept k =>
      ∃ st j it,
        states !! s = Some st ∧ st !! j = Some it
        ∧ k = start ∧ el = "$" ∧ dot it = length (children it) ∧ key it = start
  end.

Definition row_sound (states : list State) (s : nat) (row : Row) : Prop :=
  ∀ el a, row !! el = Some a → action_sound states s el a.

Definition table_sound (states : list State) (actionTable : ActionTable) : Prop :=
  ∀ s row, actionTable !! s = Some row → row_sound states s row.

Lemma action_sound_prefix states states' s el a :
  states `prefix_of` states' →
  action_sound states s el a → action_sound states' s el a.
Proof.
  intros Hpre. destruct a as [g cf|k j|k]; simpl.
  - intros (st & output & ? & ? & ?). exists st, output.
    eauto using prefix_lookup_Some.
  - intros (st & it & ? & ?). exists st, it. eauto using prefix_lookup_Some.
  - intros (st & j & it & ? & ?). exists st, j, it. eauto using prefix_lookup_Some.
Qed.

Lemma row_sound_prefix states states' s row :
  states `prefix_of` states' → row_sound states s row → row_sound states' s row.
Proof. intros Hpre Hrow el a Ha. eapply action_sound_prefix; eauto. Qed.

Lemma row_sound_insert states s row el a :
  row_sound states s row → action_sound states s el a →
  row_sound states s (<[el := a]> row).
Proof.
  intros Hrow Ha el' a'. rewrite lookup_insert_Some.
  intros [[<- <-]|[_ Hold]]; [done | by apply Hrow].
Qed.

(** What the loop over the items of [st], the state number [s], keeps
    true of the collection of states and of the row. *)
Definition item_invariant (states0 : list State) (s : nat) (st : State)
    (acc : list State * Row) : Prop :=
  states0 `prefix_of` acc.1 ∧ acc.1 !! s = Some st ∧ row_sound acc.1 s acc.2.

Lemma table_item_sound states0 s st acc j rule acc' :
  st !! j = Some rule →
  item_invariant states0 s st acc →
  table_item ifuel rules start follow st acc (j, rule) = Ok acc' →
  item_invariant states0 s st acc'.
Proof.
  intros Hj (Hpre & Hs & Hrow). destruct acc as [states row]. simpl in *.
  unfold table_item.
  destruct (decide (dot rule = length (children rule))) as [Hend|Hmid].
  - destruct (decide (key rule = start)) as [Hstart|Hstart].
    + destruct (row !! "$"); [done|]. intros [= <-]. repeat split; try done.
      simpl. apply row_sound_insert; [done|]. by exists st, j, rule.
    + intros (row' & Hfold & [= <-])%bind_Ok. repeat split; try done. simpl.
      eapply (foldM_invariant (row_sound states s)); [exact Hrow| |exact Hfold].
      intros r el r' _ Hr. unfold table_reduce.
      destruct (r !! el); [done|]. intros [= <-].
      apply row_sound_insert; [done|]. by exists st, rule.
  - destruct (children rule !! dot rule) as [e|]; [|by intros [= <-]].
    destruct (row !! base e) as [a|] eqn:Hel.
    { case_decide; [by intros [= <-] | done]. }
    intros ([gotoState cameFrom] & Hgoto & Hfind)%bind_Ok.
    destruct (list_find (λ x, x = gotoState) states) as [[idx x]|] eqn:Hlf.
    + apply list_find_Some in Hlf as (Hidx & -> & _).
      injection Hfind as <-. repeat split; try done. simpl.
      apply row_sound_insert; [done|]. by exists st, gotoState.
    + injection Hfind as <-. simpl.
      assert (Hpre' : states `prefix_of` states ++ [gotoState])
        by apply prefix_app_r, reflexivity.
      repeat split.
      * by etrans.
      * by eapply prefix_lookup_Some.
      * apply row_sound_insert; [by eapply row_sound_prefix|].
        exists st, gotoState. split; [by eapply prefix_lookup_Some|].
        split; [|done]. simpl. by rewrite lookup_app_r, Nat.sub_diag.
Qed.

Lemma table_items_sound states s st acc' :
  states !! s = Some st →
  foldM (table_item ifuel rules start follow st) (states, ∅) (imap pair st) = Ok acc' →
  item_invariant states s st acc'.
Proof.
  intros Hs Hfold.
  eapply (foldM_invariant (item_invariant states s st)); [| |exact Hfold].
  - repeat split; [reflexivity | done |]. intros el a Ha. simpl in Ha. by rewrite lookup_empty in Ha.
  - intros a [j rule] a' Hin%elem_of_imap_pair Ha. by apply table_item_sound.
Qed.

Lemma buildTable_loop_sound fuel : ∀ states actionTable states' actionTable',
  table_sound states actionTable →
  buildTable_loop fuel ifuel rules start follow states actionTable =
    Ok (states', actionTable') →
  states `prefix_of` states'
  ∧ table_sound states' actionTable'
  ∧ (length actionTable ≤ length states → length actionTable' = length states').
Proof.
  induction fuel as [|fuel IH]; intros states tab states' tab' Hsound; simpl; [done|].
  destruct (states !! length tab) as [st|] eqn:Hst.
  2:{ intros [= <- <-]. repeat split; [reflexivity | done |].
      apply lookup_ge_None in Hst. lia. }
  intros ([states1 row] & Hfold & Hloop)%bind_Ok.
  apply (table_items_sound _ (length tab)) in Hfold as (Hpre & Hs1 & Hrow); [|done].
  simpl in *.
  apply IH in Hloop as (Hpre' & Hsound' & Hlen).
  - repeat split; [by etrans | done |]. intros _. apply Hlen.
    rewrite length_app. simpl. apply lookup_lt_Some in Hs1. lia.
  - intros s r Hr. apply lookup_app_Some in Hr as [Hr|[Hge Hr]].
    + eapply row_sound_prefix; [done|]. by apply Hsound.
    + apply list_lookup_singleton_Some in Hr as [Hr0 <-].
      by replace s with (length tab) by lia.
Qed.
End table_sound.

Lemma buildTable_states_sound fuel rules start states actionTable :
  buildTable_states fuel rules start = Ok (states, actionTable) →
  (∃ st0, closure fuel rules (mkDotted start [start] 0) = Ok st0
          ∧ states !! 0 = Some st0)
  ∧ table_sound fuel rules start states actionTable
  ∧ length actionTable = length states.
Proof.
  unfold buildTable_states.
  intros (st0 & Hcl & (follow & Hfollow & Hloop)%bind_Ok)%bind_Ok.
  apply buildTable_loop_sound in Hloop as (Hpre & Hsound & Hlen).
  - split; [|split; [done | apply Hlen; simpl; lia]].
    exists st0. split; [done|]. by apply (prefix_lookup_Some [st0]).
  - intros s row Hrow. by destruct s.
Qed.

(** * The parse runtime: the read counts *)

Section read_counts.
Variables (fuel : nat) (rules : RuleSet) (start : string).
Variables (states : list State) (actionTable : ActionTable).
Hypothesis built : buildTable_states fuel rules start = Ok (states, actionTable).

(** For every state on the stack and every item of it whose rule has no
    quantifier, the count read for the item is the position of its dot,
    and the dot is no further than the state is deep in the stack. *)
Definition counts_dots (stateStack : list nat) (readStack : list (list (option nat)))
    : Prop :=
  length readStack = length stateStack
  ∧ ∀ p s entry,
      stateStack !! p = Some s → readStack !! p = Some entry →
      ∃ st, states !! s = Some st
            ∧ ∀ r it,
                st !! r = Some it → quantifier_free (children it) →
                dot it ≤ p ∧ default 0 (read_count entry r) = dot it.

Lemma read_entry_lookup top cameFrom entry r :
  read_entry (Some top) cameFrom = Ok entry →
  read_count entry r =
    match cf_lookup cameFrom r with
    | cf_hole => None
    | cf_null => Some 1
    | cf_idx i => Some (default 0 (read_count top i) + 1)
    end.
Proof.
  revert entry r. induction cameFrom as [|v cf IH]; intros entry r; simpl.
  - intros [= <-]. unfold read_count, cf_lookup. by rewrite !lookup_nil.
  - intros (x & Hx & (xs & Hxs & [= <-])%bind_Ok)%bind_Ok.
    destruct r as [|r].
    + unfold read_count, cf_lookup. simpl. destruct v; simpl in Hx; by injection Hx as <-.
    + specialize (IH xs r Hxs). by unfold read_count, cf_lookup in *.
Qed.

Lemma counts_dots_init : counts_dots [0] [[]].
Proof.
  destruct (buildTable_states_sound _ _ _ _ _ built)
    as ((st0 & Hcl & Hst0) & _ & _).
  split; [done|]. intros p s entry Hp He.
  apply list_lookup_singleton_Some in Hp as [-> <-].
  apply list_lookup_singleton_Some in He as [_ <-].
  exists st0. split; [done|]. intros r it Hit Hq.
  assert (Hdot : dot it = 0).
  { apply list_elem_of_lookup_2 in Hit.
    eapply closure_elem in Hit as [Hin|Hborn]; [| |exact Hcl].
    - apply skipOmit_quantifier_free in Hin as ->; [done|].
      by apply skipOmit_elem in Hin as (_ & <- & _).
    - by eapply closure_born_quantifier_free. }
  rewrite Hdot. split; [lia|]. unfold read_count. by rewrite lookup_nil.
Qed.

Lemma counts_dots_take n stateStack readStack :
  counts_dots stateStack readStack →
  counts_dots (take n stateStack) (take n readStack).
Proof.
  intros [Hlen Hcd]. split; [by rewrite !length_take, Hlen|].
  intros p s entry Hp He.
  apply lookup_take_Some in Hp as [Hp _]. apply lookup_take_Some in He as [He _].
  by eapply Hcd.
Qed.

Lemma counts_dots_splice n stateStack readStack :
  counts_dots stateStack readStack →
  counts_dots (splice_last n stateStack).1 (splice_last n readStack).1.
Proof.
  intros Hcd. unfold splice_last. simpl. destruct Hcd as [Hlen Hcd'].
  rewrite Hlen. apply counts_dots_take. by split.
Qed.

(** Pushing the goto state of a shift of the top state keeps the counts. *)
Lemma counts_dots_push st st' row el goto cameFrom :
  counts_dots (stateStack st) (readStack st) →
  current_row actionTable (stateStack st) = Some row →
  row !! el = Some (shift goto cameFrom) →
  push_goto st goto cameFrom = Ok st' →
  counts_dots (stateStack st') (readStack st').
Proof.
  intros [Hlen Hcd] Hrow Hact Hpush.
  destruct (buildTable_states_sound _ _ _ _ _ built) as (_ & Hsound & _).
  apply current_row_Some in Hrow as (s & Hlast & Hrow).
  destruct (Hsound s row Hrow el _ Hact) as (stS & output & HstS & Hout & Hgoto).
  apply goto_tracks in Hgoto as [_ Htr].
  unfold push_goto in Hpush. apply bind_Ok in Hpush as (entry & Hentry & [= <-]).
  simpl. split; [rewrite !length_app; simpl; lia|].
  assert (Hne : stateStack st ≠ []) by (intros Hn; by rewrite Hn in Hlast).
  destruct (last (readStack st)) as [top|] eqn:Htop.
  2:{ apply last_None in Htop. rewrite Htop in Hlen.
      destruct (stateStack st); simpl in *; done. }
  rewrite last_lookup in Hlast. rewrite last_lookup, Hlen in Htop.
  destruct (Hcd _ _ _ Hlast Htop) as (stS' & HstS' & Htopcd).
  assert (stS' = stS) as -> by congruence.
  intros p s' entry' Hp He.
  apply lookup_app_Some in Hp as [Hp|[Hge Hp]].
  { apply lookup_app_Some in He as [He|[Hge' _]]; [by eapply Hcd|].
    apply lookup_lt_Some in Hp. lia. }
  apply list_lookup_singleton_Some in Hp as [Hp0 <-].
  apply lookup_app_Some in He as [He|[_ He]].
  { apply lookup_lt_Some in He. lia. }
  apply list_lookup_singleton_Some in He as [_ <-].
  exists output. split; [done|]. intros r it Hit Hq.
  rewrite (read_entry_lookup _ _ _ r Hentry).
  destruct (Htr r it Hit Hq) as [Hzero Hpos].
  destruct (decide (dot it = 0)) as [Hd|Hd].
  - rewrite (Hzero Hd). simpl. lia.
  - destruct Hpos as (i & -> & Hi); [lia|].
    destruct (Htopcd i _ Hi Hq) as [Hle Hcount]. simpl in *.
    assert (0 < length (stateStack st)) by (destruct (stateStack st); simpl; [done|lia]).
    rewrite Hcount. split; lia.
Qed.

Lemma parse_action_counts st token st' :
  stacks_aligned st →
  counts_dots (stateStack st) (readStack st) →
  parse_action actionTable st token = Ok (inl st') →
  counts_dots (stateStack st') (readStack st').
Proof.
  intros Hal Hcd. unfold parse_action.
  case_decide; [by intros [= <-]|].
  destruct (current_row actionTable (stateStack st)) as [row|] eqn:Hrow; [|done].
  destruct (row !! type token) as [[goto cameFrom|k rule|k]|] eqn:Hact; [| |done..].
  - intros (st1 & Hpush & [= <-])%bind_Ok.
    eapply counts_dots_push in Hpush; [done| | |]; simpl; try done.
  - destruct (last (readStack st)) as [top|]; [|done].
    destruct (splice_last (read_count top rule) (symbolStack st)) as [symbols popped].
    destruct (current_row actionTable
                (splice_last (read_count top rule) (stateStack st)).1)
      as [row'|] eqn:Hrow'; [|done].
    destruct (row' !! k) as [[goto cameFrom|?|?]|] eqn:Hgoto; [|done..].
    intros (st1 & Hpush & [= <-])%bind_Ok.
    eapply counts_dots_push in Hpush; [done| | |]; simpl; try done.
    by apply counts_dots_splice.
Qed.

Lemma parse_step_counts lexer tokens st st' :
  stacks_aligned st →
  counts_dots (stateStack st) (readStack st) →
  parse_step actionTable lexer tokens st = Ok (inl st') →
  counts_dots (stateStack st') (readStack st').
Proof.
  intros Hal Hcd Hstep.
  apply parse_step_action in Hstep
    as [(st1 & [= <-] & Hs & Hst & Hr)|(st0 & token & Hact & Hs & Hst & Hr)].
  - by rewrite Hst, Hr.
  - eapply parse_action_counts; [| |exact Hact].
    + destruct Hal. unfold stacks_aligned. by rewrite Hs, Hst, Hr.
    + by rewrite Hst, Hr.
Qed.

Lemma reachable_counts lexer tokens st :
  reachable actionTable lexer tokens st →
  counts_dots (stateStack st) (readStack st).
Proof.
  induction 1 as [|st st' Hreach IH Hstep].
  - apply counts_dots_init.
  - eapply parse_step_counts; [|done..]. by eapply reachable_aligned.
Qed.
End read_counts.

(** * The table builder: the items it can ever make *)

Lemma foldM_outcome {A B} (P : A → Prop) (Q : error → Prop)
    (f : A → B → outcome A) l a :
  P a →
  (∀ a b, b ∈ l → P a →
     (∃ a', f a b = Ok a' ∧ P a') ∨ (∃ e, f a b = Throw e ∧ Q e)) →
  (∃ r, foldM f a l = Ok r ∧ P r) ∨ (∃ e, foldM f a l = Throw e ∧ Q e).
Proof.
  revert a. induction l as [|b l IH]; intros a Ha Hf; simpl; [by eauto|].
  destruct (Hf a b) as [(a' & -> & Ha')|(e & -> & He)];
    [left|done| |by eauto].
  simpl. apply IH; [done|]. intros a0 b0 Hb0. apply Hf. by right.
Qed.

Lemma NoDup_subseteq_length {A} (l k : list A) :
  NoDup l → l ⊆ k → length l ≤ length k.
Proof. intros Hnd Hsub. by apply submseteq_length, NoDup_submseteq. Qed.

Section universe.
Variables (rules : RuleSet) (start : string).

(** The productions as pairs of a key and a rule. *)
Definition rule_list : list (string * Rule) :=
  '(k, rs) ← rules; pair k <$> rs.

(** With the rule of the start item, [start → start]. *)
Definition all_rules : list (string * Rule) := (start, [start]) :: rule_list.

(** An item of the grammar: a production, or the start rule, with the dot
    somewhere in it. *)
Definition item_ok (it : DottedRule) : Prop :=
  (key it, children it) ∈ all_rules ∧ dot it ≤ length (children it).

Definition universe : list DottedRule :=
  '(k, ch) ← all_rules; mkDotted k ch <$> seq 0 (S (length ch)).

Lemma item_ok_universe it : item_ok it → it ∈ universe.
Proof.
  intros [Hrule Hdot]. unfold universe. apply list_elem_of_bind.
  exists (key it, children it). split; [|done].
  apply list_elem_of_fmap. exists (dot it). split; [by destruct it|].
  apply elem_of_seq. lia.
Qed.

Lemma rules_get_rule_list nt rs ch :
  rules_get rules nt = Some rs → ch ∈ rs → (nt, ch) ∈ rule_list.
Proof.
  unfold rule_list. intros Hget Hch. apply list_elem_of_bind.
  exists (nt, rs). split; [by apply list_elem_of_fmap; exists ch|].
  clear Hch. induction rules as [|[k rs'] rest IH]; simpl in *; [done|].
  case_decide; simplify_eq; [left | right; auto].
Qed.

Lemma skipOmit_ok root it : item_ok root → it ∈ skipOmit root → item_ok it.
Proof.
  intros [Hrule Hdot] (Hk & Hch & [->|[Hd _]])%skipOmit_elem; [done|].
  split; [by rewrite Hk, Hch|]. rewrite Hch. rewrite length_drop in Hd. lia.
Qed.

Lemma closure_born_ok it : closure_born rules it → item_ok it.
Proof.
  intros (nt & rs & ch & Hget & Hch & Hin). eapply skipOmit_ok; [|exact Hin].
  split; simpl; [|lia]. right. by eapply rules_get_rule_list.
Qed.

Lemma skipOmit_from_NoDup k ch i rest : NoDup (skipOmit_from k ch i rest).
Proof.
  revert i. induction rest as [|e rest IH]; intros i; simpl; [constructor|].
  destruct (canOmit e); [|constructor]. constructor; [|apply IH].
  intros (_ & _ & Hd & _)%skipOmit_from_elem. simpl in Hd. lia.
Qed.

Lemma skipOmit_NoDup root : NoDup (skipOmit root).
Proof.
  unfold skipOmit. constructor; [|apply skipOmit_from_NoDup].
  intros (_ & _ & Hd & _)%skipOmit_from_elem. lia.
Qed.

Lemma push_new_NoDup ruleSet nextRule :
  NoDup ruleSet → NoDup (push_new ruleSet nextRule).
Proof.
  intros Hnd. unfold push_new. case_decide; [done|].
  apply NoDup_app. split; [done|]. split; [|apply NoDup_singleton].
  intros x Hx ->%list_elem_of_singleton. done.
Qed.

Lemma closure_expand_NoDup ruleSet rule :
  NoDup ruleSet → NoDup (closure_expand rules ruleSet rule).
Proof.
  intros Hnd. unfold closure_expand.
  destruct (children rule !! dot rule) as [e|]; [|done].
  destruct (rules_get rules (base e)) as [rs|]; [|done].
  revert ruleSet Hnd. induction rs as [|ch rs IH]; intros ruleSet Hnd; cbn [foldl]; [done|].
  apply IH. generalize (skipOmit (mkDotted (base e) ch 0)) as items.
  intros items. revert ruleSet Hnd.
  induction items as [|y items IHi]; intros ruleSet Hnd; cbn [foldl]; [done|].
  by apply IHi, push_new_NoDup.
Qed.

Lemma closure_expand_length ruleSet rule :
  length ruleSet ≤ length (closure_expand rules ruleSet rule).
Proof.
  unfold closure_expand.
  destruct (children rule !! dot rule) as [e|]; [|done].
  destruct (rules_get rules (base e)) as [rs|]; [|done].
  assert (Hpush : ∀ items acc, length acc ≤ length (foldl push_new acc items)).
  { induction items as [|y items IHi]; intros acc; cbn [foldl]; [done|].
    etrans; [|apply IHi]. unfold push_new. case_decide; [done|].
    rewrite length_app. lia. }
  revert ruleSet. induction rs as [|ch rs IH]; intros ruleSet; cbn [foldl]; [done|].
  etrans; [|apply IH]. apply Hpush.
Qed.

Lemma closure_expand_ok ruleSet rule :
  Forall item_ok ruleSet → Forall item_ok (closure_expand rules ruleSet rule).
Proof.
  rewrite !Forall_forall. intros Hok it [Hin|Hborn]%closure_expand_elem; [by auto|].
  by apply closure_born_ok.
Qed.

Lemma closure_loop_terminates fuel : ∀ ruleSet p,
  NoDup ruleSet → Forall item_ok ruleSet → p ≤ length ruleSet →
  length universe < fuel + p →
  ∃ cl, closure_loop fuel rules ruleSet p = Ok cl
        ∧ NoDup cl ∧ Forall item_ok cl.
Proof.
  induction fuel as [|fuel IH]; intros ruleSet p Hnd Hok Hp Hfuel.
  - assert (length ruleSet ≤ length universe); [|lia].
    apply NoDup_subseteq_length; [done|]. intros x Hx.
    apply item_ok_universe. by eapply Forall_forall in Hok.
  - simpl. destruct (ruleSet !! p) as [rule|] eqn:Hrule; [|by eauto].
    apply IH.
    + by apply closure_expand_NoDup.
    + by apply closure_expand_ok.
    + apply lookup_lt_Some in Hrule. pose proof (closure_expand_length ruleSet rule). lia.
    + lia.
Qed.

Lemma closure_terminates fuel root :
  item_ok root → length universe < fuel →
  ∃ cl, closure fuel rules root = Ok cl ∧ NoDup cl ∧ Forall item_ok cl.
Proof.
  intros Hroot Hfuel. apply closure_loop_terminates.
  - apply skipOmit_NoDup.
  - apply Forall_forall. intros it Hit. by eapply skipOmit_ok.
  - lia.
  - lia.
Qed.

(** ** [goto] ends with a state or with a reduce/reduce conflict *)

Definition reduce_reduce_conflict (ruleSet : State) (e : error) : Prop :=
  ∃ rule, rule ∈ ruleSet ∧ e = Error_ (conflict_message rule "reduce" "reduce").

Definition state_ok (st : State) : Prop := NoDup st ∧ Forall item_ok st.

Lemma goto_add_outcome ruleSet rule i tracked acc nextRule :
  rule ∈ ruleSet → item_ok nextRule → state_ok acc.1 →
  (∃ acc', goto_add rule i tracked acc nextRule = Ok acc' ∧ state_ok acc'.1)
  ∨ (∃ e, goto_add rule i tracked acc nextRule = Throw e
          ∧ reduce_reduce_conflict ruleSet e).
Proof.
  intros Hrule Hnext [Hnd Hok]. destruct acc as [output cameFrom]. simpl in *.
  unfold goto_add.
  destruct (list_find (λ r, r = nextRule) output) as [[ruleIndex ?]|] eqn:Hfind.
  - case_match.
    + right. eexists. split; [done|]. by exists rule.
    + left. eexists. split; [done|]. done.
  - left. eexists. split; [done|]. simpl. split.
    + apply NoDup_app. split; [done|]. split; [|apply NoDup_singleton].
      intros x Hx ->%list_elem_of_singleton.
      apply list_find_None in Hfind. by eapply Forall_forall in Hfind.
    + apply Forall_app. split; [done|]. by constructor.
Qed.

Lemma goto_advance_outcome fuel ruleSet rule i j acc :
  length universe < fuel →
  rule ∈ ruleSet → item_ok (mkDotted (key rule) (children rule) (dot rule + j)) →
  state_ok acc.1 →
  (∃ acc', goto_advance fuel rules rule i j acc = Ok acc' ∧ state_ok acc'.1)
  ∨ (∃ e, goto_advance fuel rules rule i j acc = Throw e
          ∧ reduce_reduce_conflict ruleSet e).
Proof.
  intros Hfuel Hrule Hbase Hacc. unfold goto_advance.
  destruct (closure_terminates fuel _ Hbase Hfuel) as (cl & -> & _ & Hcl). simpl.
  apply (foldM_outcome (λ a, state_ok a.1)); [done|].
  intros a b Hb Ha. apply goto_add_outcome; [done| |done].
  by eapply Forall_forall in Hcl.
Qed.

Lemma goto_outcome fuel ruleSet el :
  length universe < fuel → Forall item_ok ruleSet →
  (∃ output cameFrom,
     goto fuel rules ruleSet el = Ok (output, cameFrom) ∧ state_ok output)
  ∨ (∃ e, goto fuel rules ruleSet el = Throw e ∧ reduce_reduce_conflict ruleSet e).
Proof.
  intros Hfuel Hok. unfold goto.
  destruct (foldM_outcome (λ a, state_ok a.1) (reduce_reduce_conflict ruleSet)
              (goto_rule fuel rules el) (imap pair ruleSet) ([], []))
    as [([output cameFrom] & Hr & Hst)|?]; [| |by eauto|by right].
  { split; [constructor | constructor]. }
  intros a [i rule] Hin%elem_of_imap_pair Ha.
  assert (Hrule : rule ∈ ruleSet) by (by eapply list_elem_of_lookup_2).
  assert (Hrok : item_ok rule) by (by eapply Forall_forall in Hok).
  unfold goto_rule.
  destruct (children rule !! dot rule) as [e|] eqn:He; [|by left; eauto].
  case_decide; [|by left; eauto].
  apply lookup_lt_Some in He. destruct Hrok as [Hr1 Hr2].
  destruct (goto_advance_outcome fuel ruleSet rule i 1 a Hfuel Hrule)
    as [(a1 & -> & Ha1)|(e1 & -> & He1)]; [by split; simpl; [|lia]|done| |by right; eauto].
  simpl. destruct (canRepeat e); [|by left; eauto].
  apply goto_advance_outcome; try done. split; simpl; [done|lia].
Qed.
End universe.

(** * FIRST and FOLLOW come to an end *)

(** A loop that runs while something changed ends when every turn that
    changes something raises a measure that stays under a bound. *)
Lemma while_changed_terminates {X} (Inv : X → Prop) (M : X → nat) (B : nat)
    (pass : X → X * bool) :
  (∀ x, Inv x →
        Inv (pass x).1 ∧ M (pass x).1 ≤ B
        ∧ ((pass x).2 = true → M x < M (pass x).1)) →
  ∀ fuel x, Inv x → B - M x < fuel →
            ∃ x', while_changed fuel pass x = Ok x' ∧ Inv x'.
Proof.
  intros Hpass. induction fuel as [|fuel IH]; intros x Hx Hfuel; [lia|].
  simpl. destruct (Hpass x Hx) as (Hinv & Hbound & Hgrow).
  destruct (pass x) as [x' changed]. simpl in *.
  destruct changed; [|by eauto].
  apply IH; [done|]. specialize (Hgrow eq_refl). lia.
Qed.

Lemma set_add_elem s x y : y ∈ set_add s x ↔ y ∈ s ∨ y = x.
Proof.
  unfold set_add. case_decide.
  - split; [auto|]. intros [?| ->]; done.
  - by rewrite elem_of_app, list_elem_of_singleton.
Qed.

Lemma set_add_NoDup s x : NoDup s → NoDup (set_add s x).
Proof.
  intros Hnd. unfold set_add. case_decide; [done|].
  apply NoDup_app. split; [done|]. split; [|apply NoDup_singleton].
  by intros y Hy ->%list_elem_of_singleton.
Qed.

Lemma foldl_set_add_elem l : ∀ acc y,
  y ∈ foldl set_add acc l ↔ y ∈ acc ∨ y ∈ l.
Proof.
  induction l as [|x l IH]; intros acc y; simpl.
  - rewrite elem_of_nil. tauto.
  - rewrite IH, set_add_elem, elem_of_cons. tauto.
Qed.

Lemma foldl_set_add_NoDup l : ∀ acc, NoDup acc → NoDup (foldl set_add acc l).
Proof.
  induction l as [|x l IH]; intros acc Hnd; simpl; [done|].
  by apply IH, set_add_NoDup.
Qed.

Lemma set_union_elem a b y : y ∈ set_union a b ↔ y ∈ a ∨ y ∈ b.
Proof.
  unfold set_union, Set_new. rewrite foldl_set_add_elem, elem_of_app, elem_of_nil.
  tauto.
Qed.

Lemma set_union_NoDup a b : NoDup (set_union a b).
Proof. apply foldl_set_add_NoDup. constructor. Qed.

Lemma set_union_length a b : NoDup a → length a ≤ length (set_union a b).
Proof.
  intros Hnd. apply NoDup_subseteq_length; [done|].
  intros y Hy. apply set_union_elem. by left.
Qed.

(** ** Maps of sets that stay within a universe *)

Section sets_within.
Variable (U : list string).

Definition sets_within (f : SetMap) : Prop :=
  ∀ k, NoDup (f !!! k) ∧ f !!! k ⊆ U.

Definition size_le (f f' : SetMap) : Prop :=
  ∀ k, length (f !!! k) ≤ length (f' !!! k).

Lemma size_le_refl f : size_le f f.
Proof. by intros k. Qed.

Lemma size_le_trans f g h : size_le f g → size_le g h → size_le f h.
Proof. intros H1 H2 k. etrans; [apply H1 | apply H2]. Qed.

Lemma sets_within_empty : sets_within ∅.
Proof.
  intros k. rewrite lookup_total_empty. split; [constructor|].
  by intros x ?%elem_of_nil.
Qed.

Lemma sets_within_insert f k s :
  sets_within f → NoDup s → s ⊆ U → sets_within (<[k := s]> f).
Proof.
  intros Hf Hnd Hsub k'. rewrite lookup_total_insert. by case_decide.
Qed.

Lemma sets_within_length f k : sets_within f → length (f !!! k) ≤ length U.
Proof. intros Hf. destruct (Hf k). by apply NoDup_subseteq_length. Qed.

(** [f[k] = new Set([...f[k], ...s])] keeps the sets within the universe
    and lets no set shrink. *)
Lemma insert_union_within f k s :
  sets_within f → s ⊆ U →
  sets_within (<[k := set_union (f !!! k) s]> f)
  ∧ size_le f (<[k := set_union (f !!! k) s]> f).
Proof.
  intros Hf Hs. split.
  - apply sets_within_insert; [done | apply set_union_NoDup|].
    intros y [Hy|Hy]%set_union_elem; [by apply (Hf k) | by apply Hs].
  - intros k'. rewrite lookup_total_insert. case_decide; [subst|done].
    apply set_union_length, Hf.
Qed.
End sets_within.

(** The measure: the sizes of the sets of the keys, summed. *)
Definition sets_size (rules : RuleSet) (f : SetMap) : nat :=
  sum_list_with (λ kr, length (f !!! kr.1)) rules.

Lemma sets_size_bound U rules f :
  sets_within U f → sets_size rules f ≤ length rules * length U.
Proof.
  intros Hf. unfold sets_size. induction rules as [|[k rs] rest IH]; simpl; [lia|].
  pose proof (sets_within_length U f k Hf). lia.
Qed.

Lemma sets_size_le rules f f' :
  size_le f f' → sets_size rules f ≤ sets_size rules f'.
Proof.
  intros Hle. unfold sets_size. induction rules as [|[k rs] rest IH]; simpl; [lia|].
  specialize (Hle k). lia.
Qed.

Lemma sets_size_lt rules f f' k :
  size_le f f' → k ∈ rules.*1 → length (f !!! k) < length (f' !!! k) →
  sets_size rules f < sets_size rules f'.
Proof.
  intros Hle Hk Hlt. unfold sets_size.
  induction rules as [|[k' rs] rest IH]; simpl in *; [by apply elem_of_nil in Hk|].
  apply elem_of_cons in Hk as [<-|Hk].
  - pose proof (sets_size_le rest f f' Hle). unfold sets_size in *. lia.
  - specialize (IH Hk). specialize (Hle k'). lia.
Qed.

(** What a turn of either loop does: the sets stay within the universe, no
    set shrinks, and a turn that reports a change made the set of a key
    grow. *)
Definition grows (U : list string) (rules : RuleSet) (f : SetMap)
    (r : SetMap * bool) : Prop :=
  sets_within U r.1 ∧ size_le f r.1
  ∧ (r.2 = true → ∃ k, k ∈ rules.*1 ∧ length (f !!! k) < length (r.1 !!! k)).

Lemma grows_start U rules f : sets_within U f → grows U rules f (f, false).
Proof. intros Hf. split; [done|]. split; [apply size_le_refl | done]. Qed.

(** One more update after [r]: [g] is the new map, [c] tells whether the
    set of the key [k] grew since [prev] was measured. *)
Lemma grows_step U rules f r g k prev :
  grows U rules f r → sets_within U g → size_le r.1 g →
  k ∈ rules.*1 → length (f !!! k) ≤ prev →
  grows U rules f (g, r.2 || bool_decide (prev < length (g !!! k))).
Proof.
  intros (Hin & Hle & Hch) Hg Hrg Hk Hprev. split; [done|].
  split; [by eapply size_le_trans|]. simpl.
  intros [Hold|Hnew%bool_decide_eq_true]%orb_true_iff.
  - destruct (Hch Hold) as (k0 & Hk0 & Hlt). exists k0. split; [done|].
    specialize (Hrg k0). lia.
  - exists k. split; [done | lia].
Qed.

Lemma hasOwn_key rules k : hasOwn rules k = true → k ∈ rules.*1.
Proof.
  unfold hasOwn. intros [rs Hrs]%bool_decide_eq_true.
  induction rules as [|[k' rs'] rest IH]; simpl in *; [done|].
  case_decide; [subst; left | right; auto].
Qed.

Lemma key_hasOwn rules k : k ∈ rules.*1 → hasOwn rules k = true.
Proof.
  unfold hasOwn. intros Hk. apply bool_decide_eq_true.
  induction rules as [|[k' rs'] rest IH]; simpl in *; [by apply elem_of_nil in Hk|].
  case_decide; [by eexists|]. apply elem_of_cons in Hk as [->|Hk]; [done | auto].
Qed.

(** ** FIRST *)

Section first_terminates.
Variable (rules : RuleSet).

(** The symbols of the grammar: the base of every element of every rule. *)
Definition symbols : list string :=
  '(_, rs) ← rules; rule ← rs; base <$> rule.

Lemma symbols_elem k rs rule e :
  (k, rs) ∈ rules → rule ∈ rs → e ∈ rule → base e ∈ symbols.
Proof.
  intros Hk Hrule He. unfold symbols. apply list_elem_of_bind.
  exists (k, rs). split; [|done]. apply list_elem_of_bind.
  exists rule. split; [|done]. apply list_elem_of_fmap. by exists e.
Qed.

Lemma first_init_el_within f e :
  base e ∈ symbols → sets_within symbols f → sets_within symbols (first_init_el f e).
Proof.
  intros He Hf. unfold first_init_el. destruct (f !! base e); [done|].
  apply sets_within_insert; [done | apply NoDup_singleton|].
  by intros y ->%list_elem_of_singleton.
Qed.

Lemma first_init_within : sets_within symbols (first_init rules).
Proof.
  unfold first_init.
  assert (Hgen : ∀ l acc,
            l ⊆ rules → sets_within symbols acc →
            sets_within symbols
              (foldl (λ first '(key, rs),
                        foldl (foldl first_init_el) (<[key := []]> first) rs)
                     acc l)).
  { induction l as [|[k rs] l IH]; intros acc Hl Hacc; cbn [foldl]; [done|].
    apply IH; [intros x Hx; apply Hl; by right|].
    assert (Hk : (k, rs) ∈ rules) by (apply Hl; left).
    assert (Hacc' : sets_within symbols (<[k := []]> acc)).
    { apply sets_within_insert; [done | constructor | by intros y ?%elem_of_nil]. }
    revert Hacc'. generalize (<[k := []]> acc) as acc'.
    assert (Hrs : ∀ rs', rs' ⊆ rs → ∀ acc',
              sets_within symbols acc' →
              sets_within symbols (foldl (foldl first_init_el) acc' rs')).
    { induction rs' as [|rule rs' IHr]; intros Hsub acc' Hacc'; cbn [foldl]; [done|].
      apply IHr; [intros x Hx; apply Hsub; by right|].
      assert (Hrule : rule ∈ rs) by (apply Hsub; left).
      assert (Hel : ∀ es, es ⊆ rule → ∀ acc'',
                sets_within symbols acc'' →
                sets_within symbols (foldl first_init_el acc'' es)).
      { induction es as [|e es IHe]; intros Hes acc'' Hacc''; cbn [foldl]; [done|].
        apply IHe; [intros x Hx; apply Hes; by right|].
        apply first_init_el_within; [|done].
        eapply symbols_elem; [exact Hk | exact Hrule | apply Hes; left]. }
      by apply Hel. }
    intros acc'. by apply Hrs. }
  apply Hgen; [done | apply sets_within_empty].
Qed.

Lemma first_rule_grows key rule : ∀ f,
  sets_within symbols f →
  sets_within symbols (first_rule key f rule) ∧ size_le f (first_rule key f rule).
Proof.
  induction rule as [|el rest IH]; intros f Hf; simpl.
  - split; [done | apply size_le_refl].
  - destruct (insert_union_within symbols f key (f !!! base el) Hf) as [Hin Hle];
      [apply Hf|].
    destruct (canOmit el); [|done].
    destruct (IH _ Hin) as [Hin' Hle']. split; [done|]. by eapply size_le_trans.
Qed.

Lemma first_rules_grow key rs : ∀ f,
  sets_within symbols f →
  sets_within symbols (foldl (first_rule key) f rs)
  ∧ size_le f (foldl (first_rule key) f rs).
Proof.
  induction rs as [|rule rs IH]; intros f Hf; cbn [foldl].
  - split; [done | apply size_le_refl].
  - destruct (first_rule_grows key rule f Hf) as [Hin Hle].
    destruct (IH _ Hin) as [Hin' Hle']. split; [done|]. by eapply size_le_trans.
Qed.

Lemma first_pass_grows f :
  sets_within symbols f → grows symbols rules f (first_pass rules f).
Proof.
  intros Hf. unfold first_pass.
  assert (Hgen : ∀ l acc,
            l ⊆ rules → grows symbols rules f acc →
            grows symbols rules f
              (foldl (λ '(first, changed) '(key, rs),
                        let prevSize := length (first !!! key) in
                        let first := foldl (first_rule key) first rs in
                        (first, changed || bool_decide (prevSize < length (first !!! key))))
                     acc l)).
  { induction l as [|[k rs] l IH]; intros [g c] Hl Hacc; cbn [foldl]; [done|].
    apply IH; [intros x Hx; apply Hl; by right|].
    destruct (first_rules_grow k rs g) as [Hin Hle]; [apply Hacc|].
    apply (grows_step symbols rules f (g, c)); try done.
    - apply list_elem_of_fmap. exists (k, rs). split; [done|]. apply Hl. left.
    - apply Hacc. }
  apply Hgen; [done | by apply grows_start].
Qed.

Lemma grows_measure U f r :
  grows U rules f r →
  sets_within U r.1 ∧ sets_size rules r.1 ≤ length rules * length U
  ∧ (r.2 = true → sets_size rules f < sets_size rules r.1).
Proof.
  intros (Hin & Hle & Hch). split; [done|]. split; [by apply sets_size_bound|].
  intros Hc. destruct (Hch Hc) as (k & Hk & Hlt). by eapply sets_size_lt.
Qed.

Lemma first_terminates fuel :
  length rules * length symbols < fuel →
  ∃ f, first fuel rules = Ok f ∧ sets_within symbols f.
Proof.
  intros Hfuel. unfold first.
  eapply (while_changed_terminates (sets_within symbols) (sets_size rules)
            (length rules * length symbols)).
  - intros f Hf. by apply grows_measure, first_pass_grows.
  - apply first_init_within.
  - lia.
Qed.
End first_terminates.

(** ** FOLLOW *)

Section follow_terminates.
Variables (rules : RuleSet) (first : SetMap).
Hypothesis first_within : sets_within (symbols rules) first.

(** The universe of the FOLLOW sets: the symbols and the end marker. *)
Definition follow_universe : list string := "$" :: symbols rules.

Lemma first_in_follow_universe k : first !!! k ⊆ follow_universe.
Proof. intros y Hy. right. by apply (first_within k). Qed.

Lemma follow_scan_grows key el rest : ∀ f,
  sets_within follow_universe f →
  sets_within follow_universe (follow_scan first key el f rest)
  ∧ size_le f (follow_scan first key el f rest).
Proof.
  induction rest as [|e rest IH]; intros f Hf; simpl.
  - apply insert_union_within; [done | apply Hf].
  - destruct (insert_union_within follow_universe f el (first !!! base e) Hf)
      as [Hin Hle]; [apply first_in_follow_universe|].
    destruct (canOmit e); [|done].
    destruct (IH _ Hin) as [Hin' Hle']. split; [done|]. by eapply size_le_trans.
Qed.

Lemma follow_el_grows f0 key acc e rest :
  grows follow_universe rules f0 acc →
  grows follow_universe rules f0 (follow_el rules first key acc e rest).
Proof.
  intros Hacc. unfold follow_el. destruct acc as [f c].
  destruct (hasOwn rules (base e)) eqn:Hown; [|done].
  assert (Hrep : ∃ g, g = (if canRepeat e
                           then <[base e := set_union (f !!! base e) (first !!! base e)]> f
                           else f)
                      ∧ sets_within follow_universe g ∧ size_le f g).
  { eexists. split; [done|]. destruct (canRepeat e).
    - apply insert_union_within; [apply Hacc | apply first_in_follow_universe].
    - split; [apply Hacc | apply size_le_refl]. }
  destruct Hrep as (g & <- & Hg & Hfg).
  destruct (follow_scan_grows key (base e) rest g Hg) as [Hin Hle].
  apply (grows_step follow_universe rules f0 (f, c)); try done.
  - by eapply size_le_trans.
  - by apply hasOwn_key.
  - apply Hacc.
Qed.

Lemma follow_rule_grows f0 key rule : ∀ acc,
  grows follow_universe rules f0 acc →
  grows follow_universe rules f0 (follow_rule rules first key acc rule).
Proof.
  induction rule as [|e rest IH]; intros acc Hacc; simpl; [done|].
  by apply IH, follow_el_grows.
Qed.

Lemma follow_pass_grows f :
  sets_within follow_universe f →
  grows follow_universe rules f (follow_pass rules first f).
Proof.
  intros Hf. unfold follow_pass.
  assert (Hgen : ∀ (l : RuleSet) acc,
            grows follow_universe rules f acc →
            grows follow_universe rules f
              (foldl (λ acc '(key, rs), foldl (follow_rule rules first key) acc rs)
                     acc l)).
  { induction l as [|[k rs] l IH]; intros acc Hacc; cbn [foldl]; [done|].
    apply IH. revert acc Hacc.
    induction rs as [|rule rs IHr]; intros acc Hacc; cbn [foldl]; [done|].
    by apply IHr, follow_rule_grows. }
  by apply Hgen, grows_start.
Qed.

Lemma follow_init_within : sets_within follow_universe (follow_init rules).
Proof.
  unfold follow_init.
  assert (Hgen : ∀ (l : RuleSet) (acc : SetMap),
            sets_within follow_universe acc →
            sets_within follow_universe
              (foldl (λ follow '(key, _), <[key := []]> follow) acc l)).
  { induction l as [|[k rs] l IH]; intros acc Hacc; cbn [foldl]; [done|].
    apply IH. apply sets_within_insert; [done | constructor|].
    by intros y ?%elem_of_nil. }
  apply Hgen, sets_within_empty.
Qed.

Lemma follow_init_key k :
  k ∈ rules.*1 → is_Some (follow_init rules !! k).
Proof.
  unfold follow_init. intros Hk.
  assert (Hgen : ∀ (l : RuleSet) (acc : SetMap),
            k ∈ l.*1 ∨ is_Some (acc !! k) →
            is_Some (foldl (λ follow '(key, _), <[key := []]> follow) acc l !! k)).
  { induction l as [|[k' rs] l IH]; intros acc Hor; cbn [foldl].
    - destruct Hor as [Hin|?]; [by apply elem_of_nil in Hin | done].
    - apply IH. destruct Hor as [[->|Hin]%elem_of_cons|Hacc]; [| by left |].
      + right. rewrite lookup_insert_eq. by eexists.
      + right. rewrite lookup_insert. case_decide; [by eexists | done]. }
  apply Hgen. by left.
Qed.
End follow_terminates.

Lemma follow_terminates fuel rules start :
  start ∈ rules.*1 →
  length rules * length (follow_universe rules) < fuel →
  ∃ fol, follow fuel rules start = Ok fol.
Proof.
  intros Hstart Hfuel. unfold follow.
  destruct (follow_init_key rules start Hstart) as [s Hs]. rewrite Hs.
  destruct (first_terminates rules fuel) as (f & -> & Hf).
  { unfold follow_universe in Hfuel. simpl in Hfuel. lia. }
  simpl.
  destruct (while_changed_terminates (sets_within (follow_universe rules))
              (sets_size rules) (length rules * length (follow_universe rules))
              (follow_pass rules f)) with (fuel := fuel)
              (x := <[start := set_add s "$"]> (follow_init rules))
    as (fol & Hfol & _); [| | |by eauto].
  - intros g Hg. by apply grows_measure, follow_pass_grows.
  - pose proof (follow_init_within rules) as Hinit.
    apply sets_within_insert; [done| |].
    + apply set_add_NoDup. specialize (Hinit start).
      rewrite lookup_total_alt, Hs in Hinit. apply Hinit.
    + intros y [Hy| ->]%set_add_elem; [|left].
      specialize (Hinit start). rewrite lookup_total_alt, Hs in Hinit.
      by apply Hinit.
  - lia.
Qed.

(** * The table builder: a table or a conflict *)

Lemma foldM_outcome_prefix {A B} (P : list B → A → Prop) (Q : error → Prop)
    (f : A → B → outcome A) l a :
  P [] a →
  (∀ pre b post a, l = pre ++ b :: post → P pre a →
     (∃ a', f a b = Ok a' ∧ P (pre ++ [b]) a') ∨ (∃ e, f a b = Throw e ∧ Q e)) →
  (∃ r, foldM f a l = Ok r ∧ P l r) ∨ (∃ e, foldM f a l = Throw e ∧ Q e).
Proof.
  intros Ha Hf.
  assert (Hgen : ∀ post pre a,
            l = pre ++ post → P pre a →
            (∃ r, foldM f a post = Ok r ∧ P l r) ∨ (∃ e, foldM f a post = Throw e ∧ Q e)).
  { induction post as [|b post IH]; intros pre a0 Hl Ha0; simpl.
    - left. exists a0. rewrite app_nil_r in Hl. by subst.
    - destruct (Hf pre b post a0 Hl Ha0) as [(a' & -> & Ha')|(e & -> & He)];
        [|by eauto].
      simpl. apply (IH (pre ++ [b])); [|done]. by rewrite <- app_assoc. }
  by apply (Hgen l []).
Qed.

(** All lists of at most [n] elements of [U]. *)
Fixpoint lists_upto {A} (n : nat) (U : list A) : list (list A) :=
  match n with
  | 0 => [[]]
  | S n => [] :: (x ← U; cons x <$> lists_upto n U)
  end.

Lemma lists_upto_elem {A} (U : list A) n : ∀ l,
  l ⊆ U → length l ≤ n → l ∈ lists_upto n U.
Proof.
  induction n as [|n IH]; intros l Hsub Hlen.
  - destruct l; simpl in *; [left | lia].
  - destruct l as [|x l]; simpl in *; [left|]. right.
    apply list_elem_of_bind. exists x. split; [|apply Hsub; left].
    apply list_elem_of_fmap. exists l. split; [done|].
    apply IH; [|lia]. intros y Hy. apply Hsub. by right.
Qed.

Section table_outcome.
Variables (ifuel : nat) (rules : RuleSet) (start : string) (follow : SetMap).
Hypothesis enough : length (universe rules start) < ifuel.

(** The three kinds of action. *)
Definition kinds : list string := ["shift"; "reduce"; "accept"].

(** A conflict error: its message names a rule of the grammar, by key and
    children, and two kinds of action. *)
Definition conflict (e : error) : Prop :=
  ∃ rule kind1 kind2,
    e = Error_ (conflict_message rule kind1 kind2)
    ∧ (key rule, children rule) ∈ all_rules rules start
    ∧ kind1 ∈ kinds ∧ kind2 ∈ kinds.

Lemma action_type_kind a : action_type a ∈ kinds.
Proof. destruct a; simpl; unfold kinds; set_solver. Qed.

(** All states there can be: the lists without repetition of items of the
    grammar. *)
Definition state_universe : list State :=
  lists_upto (length (universe rules start)) (universe rules start).

Definition states_ok (states : list State) : Prop :=
  NoDup states ∧ Forall (state_ok rules start) states.

Lemma states_ok_length states :
  states_ok states → length states ≤ length state_universe.
Proof.
  intros [Hnd Hok]. apply NoDup_subseteq_length; [done|].
  intros st Hst. eapply Forall_forall in Hok as [Hnd' Hok']; [|done].
  assert (Hsub : st ⊆ universe rules start).
  { intros it Hit. apply item_ok_universe. by eapply Forall_forall in Hok'. }
  apply lists_upto_elem; [done|]. by apply NoDup_subseteq_length.
Qed.

(** What the item number [j] of the state [st] asks of the row of [st]: a
    finished item of the start symbol asks for accept on the end marker,
    another finished item for its reduce on every symbol that can follow
    its key, an unfinished one for the shift that [goto] computes on the
    symbol after the dot. *)
Definition item_done (states : list State) (st : State) (row : Row)
    (j : nat) (it : DottedRule) : Prop :=
  (dot it = length (children it) → key it = start →
     row !! "$" = Some (accept start))
  ∧ (dot it = length (children it) → key it ≠ start →
     ∀ el, el ∈ follow !!! key it → row !! el = Some (reduce (key it) j))
  ∧ (∀ e, children it !! dot it = Some e →
     ∃ g cameFrom output,
       row !! base e = Some (shift g cameFrom)
       ∧ states !! g = Some output
       ∧ goto ifuel rules st (base e) = Ok (output, cameFrom)).

Lemma item_done_mono states states' st row row' j it :
  states `prefix_of` states' → row ⊆ row' →
  item_done states st row j it → item_done states' st row' j it.
Proof.
  intros Hpre Hsub (Hacc & Hred & Hsh). split; [|split].
  - intros H1 H2. eapply lookup_weaken; [by apply Hacc | done].
  - intros H1 H2 el Hel. eapply lookup_weaken; [by apply Hred | done].
  - intros e He. destruct (Hsh e He) as (g & cf & out & Hrow & Hg & Hgoto).
    exists g, cf, out. split; [by eapply lookup_weaken|].
    split; [by eapply prefix_lookup_Some | done].
Qed.

(** What holds of the states and the row once the items [pre] are done. *)
Definition items_done (states0 : list State) (s : nat) (st : State)
    (pre : list (nat * DottedRule)) (acc : list State * Row) : Prop :=
  item_invariant ifuel rules start states0 s st acc
  ∧ states_ok acc.1
  ∧ ∀ j it, (j, it) ∈ pre → item_done acc.1 st acc.2 j it.

Lemma items_done_next states0 s st pre states row states' row' j it :
  items_done states0 s st pre (states, row) →
  states `prefix_of` states' → row ⊆ row' →
  states' !! s = Some st → row_sound ifuel rules start states' s row' →
  states_ok states' →
  item_done states' st row' j it →
  items_done states0 s st (pre ++ [(j, it)]) (states', row').
Proof.
  intros ((Hpre & Hs & Hrow) & Hok & Hdone) Hp Hsub Hs' Hrow' Hok' Hnew.
  simpl in *. split; [|split; [done|]].
  - split; [by etrans|]. by split.
  - intros j' it' [Hin|[= -> ->]%list_elem_of_singleton]%elem_of_app; [|done].
    eapply item_done_mono; [done..|]. by apply Hdone.
Qed.

Lemma table_item_outcome states0 s st pre acc j rule :
  st !! j = Some rule → Forall (item_ok rules start) st →
  items_done states0 s st pre acc →
  (∃ acc', table_item ifuel rules start follow st acc (j, rule) = Ok acc'
           ∧ items_done states0 s st (pre ++ [(j, rule)]) acc')
  ∨ (∃ e, table_item ifuel rules start follow st acc (j, rule) = Throw e
          ∧ conflict e).
Proof.
  intros Hj Hst Hacc. destruct acc as [states row].
  pose proof Hacc as ((Hpre & Hs & Hrow) & Hok & Hdone). simpl in *.
  assert (Hrule : item_ok rules start rule).
  { eapply Forall_forall in Hst; [done|]. by eapply list_elem_of_lookup_2. }
  unfold table_item.
  destruct (decide (dot rule = length (children rule))) as [Hend|Hmid].
  - assert (Hnone : children rule !! dot rule = None).
    { apply lookup_ge_None. lia. }
    destruct (decide (key rule = start)) as [Hstart|Hstart].
    + destruct (row !! "$") as [a|] eqn:Hdollar.
      * right. eexists. split; [done|]. exists rule, (action_type a), "reduce".
        split; [done|]. split; [apply Hrule|].
        split; [apply action_type_kind | unfold kinds; set_solver].
      * left. eexists. split; [done|].
        eapply items_done_next; [done|done|by apply insert_subseteq|done| |done|].
        -- apply row_sound_insert; [done|]. by exists st, j, rule.
        -- split; [|split]; [|done|by intros e; rewrite Hnone].
           intros _ _. apply lookup_insert_eq.
    + destruct (foldM_outcome_prefix
                  (λ done r, row ⊆ r ∧ row_sound ifuel rules start states s r
                             ∧ ∀ el, el ∈ done → r !! el = Some (reduce (key rule) j))
                  conflict (table_reduce rule j) (follow !!! key rule) row)
        as [(row' & -> & Hsub & Hsound & Hall)|(e & -> & He)]; [| | |by right; eauto].
      * split; [done|]. split; [done|]. by intros el ?%elem_of_nil.
      * intros done el post r _ (Hsub & Hsound & Hall). unfold table_reduce.
        destruct (r !! el) as [a|] eqn:Hel.
        -- right. eexists. split; [done|]. exists rule, (action_type a), "reduce".
           split; [done|]. split; [apply Hrule|].
           split; [apply action_type_kind | unfold kinds; set_solver].
        -- left. eexists. split; [done|]. split; [|split].
           ++ etrans; [done|]. by apply insert_subseteq.
           ++ apply row_sound_insert; [done|]. by exists st, rule.
           ++ intros el' [Hin| ->%list_elem_of_singleton]%elem_of_app.
              ** rewrite lookup_insert_ne; [by apply Hall|].
                 intros <-. specialize (Hall _ Hin). congruence.
              ** apply lookup_insert_eq.
      * left. eexists. split; [done|].
        eapply items_done_next; [done|done|done|done|done|done|].
        split; [|split]; [done| |by intros e; rewrite Hnone].
        intros _ _ el Hel. by apply Hall.
  - destruct (children rule !! dot rule) as [e|] eqn:He.
    2:{ apply lookup_ge_None in He. destruct Hrule as [_ Hle]. lia. }
    destruct (row !! base e) as [a|] eqn:Hel.
    { destruct (decide (action_type a = "shift")) as [Hsh|Hsh].
      - left. eexists. split; [done|].
        eapply items_done_next; [done|done|done|done|done|done|].
        split; [|split]; [done|done|].
        intros e' He'; rewrite He in He'; injection He' as <-. destruct a as [g cf| |]; try done.
        destruct (Hrow _ _ Hel) as (st' & out & Hst' & Hout & Hgoto).
        assert (st' = st) as -> by congruence. by exists g, cf, out.
      - right. eexists. split; [done|]. exists rule, "shift", (action_type a).
        split; [done|]. split; [apply Hrule|].
        split; [unfold kinds; set_solver | apply action_type_kind]. }
    destruct (goto_outcome rules start ifuel st (base e) enough Hst)
      as [(out & cf & Hgoto & Hout)|(e' & Hgoto & rule' & Hin & ->)].
    2:{ right. rewrite Hgoto. simpl. eexists. split; [done|].
        exists rule', "reduce", "reduce". split; [done|].
        split; [|unfold kinds; set_solver].
        eapply Forall_forall in Hst; [apply Hst | done]. }
    rewrite Hgoto. simpl. left.
    destruct (list_find (λ x, x = out) states) as [[idx x]|] eqn:Hlf.
    + apply list_find_Some in Hlf as (Hidx & -> & _).
      eexists. split; [done|].
      eapply items_done_next; [done|done|by apply insert_subseteq|done| |done|].
      * apply row_sound_insert; [done|]. by exists st, out.
      * split; [|split]; [done|done|]. intros e' He'; rewrite He in He'; injection He' as <-.
        exists idx, cf, out. split; [apply lookup_insert_eq | done].
    + eexists. split; [done|].
      assert (Hpre' : states `prefix_of` states ++ [out])
        by apply prefix_app_r, reflexivity.
      assert (Hnew : (states ++ [out]) !! length states = Some out)
        by (by rewrite lookup_app_r, Nat.sub_diag).
      eapply items_done_next;
        [done|done|by apply insert_subseteq|by eapply prefix_lookup_Some| | |].
      * apply row_sound_insert; [by eapply row_sound_prefix|].
        exists st, out. split; [by eapply prefix_lookup_Some | done].
      * destruct Hok as [Hnd Hall]. split.
        -- apply NoDup_app. split; [done|]. split; [|apply NoDup_singleton].
           intros x Hx ->%list_elem_of_singleton.
           apply list_find_None in Hlf. by eapply Forall_forall in Hlf.
        -- apply Forall_app. split; [done|]. by constructor.
      * split; [|split]; [done|done|]. intros e' He'; rewrite He in He'; injection He' as <-.
        exists (length states), cf, out. split; [apply lookup_insert_eq | done].
Qed.

(** The row of every state numbered so far answers every item of it. *)
Definition table_complete (states : list State) (actionTable : ActionTable) : Prop :=
  ∀ s st row,
    states !! s = Some st → actionTable !! s = Some row →
    ∀ j it, st !! j = Some it → item_done states st row j it.

Definition table_built (states : list State) (actionTable : ActionTable) : Prop :=
  states_ok states
  ∧ table_sound ifuel rules start states actionTable
  ∧ table_complete states actionTable
  ∧ length actionTable ≤ length states.

Lemma table_items_outcome states actionTable st :
  table_built states actionTable →
  states !! length actionTable = Some st →
  (∃ states' row,
     foldM (table_item ifuel rules start follow st) (states, ∅) (imap pair st) =
       Ok (states', row)
     ∧ states `prefix_of` states'
     ∧ table_built states' (actionTable ++ [row]))
  ∨ (∃ e, foldM (table_item ifuel rules start follow st) (states, ∅) (imap pair st) =
            Throw e
          ∧ conflict e).
Proof.
  intros (Hok & Hsound & Hcomplete & Hlen) Hst.
  assert (Hstok : Forall (item_ok rules start) st).
  { destruct Hok as [_ Hall]. eapply Forall_forall in Hall; [apply Hall|].
    by eapply list_elem_of_lookup_2. }
  destruct (foldM_outcome_prefix
              (items_done states (length actionTable) st) conflict
              (table_item ifuel rules start follow st) (imap pair st) (states, ∅))
    as [([states' row] & Hfold & (Hpre & Hs & Hrow) & Hok' & Hdone)|?];
    [| | |by right].
  - split; [|split; [done|]].
    + split; [reflexivity|]. split; [done|]. intros el a Ha. simpl in Ha.
      by rewrite lookup_empty in Ha.
    + by intros j it ?%elem_of_nil.
  - intros pre [j rule] post acc Hl Hacc. apply table_item_outcome; [|done..].
    apply elem_of_imap_pair. rewrite Hl. apply elem_of_app. right. left.
  - simpl in *. left. exists states', row. split; [done|]. split; [done|].
    split; [done|]. split; [|split].
    + intros s r Hr. apply lookup_app_Some in Hr as [Hr|[Hge Hr]].
      * eapply row_sound_prefix; [done|]. by apply Hsound.
      * apply list_lookup_singleton_Some in Hr as [Hr0 <-].
        by replace s with (length actionTable) by lia.
    + intros s st' r Hs' Hr j it Hit.
      apply lookup_app_Some in Hr as [Hr|[Hge Hr]].
      * assert (Hs0 : states !! s = Some st').
        { apply lookup_lt_Some in Hr.
          destruct (lookup_lt_is_Some_2 states s) as [x Hx]; [lia|].
          pose proof (prefix_lookup_Some _ _ _ _ Hx Hpre). congruence. }
        eapply item_done_mono; [done|reflexivity|]. by eapply Hcomplete.
      * apply list_lookup_singleton_Some in Hr as [Hr0 <-].
        assert (s = length actionTable) as -> by lia.
        assert (st' = st) as -> by congruence.
        apply Hdone. by apply elem_of_imap_pair.
    + rewrite length_app. simpl. apply lookup_lt_Some in Hs. lia.
Qed.

Lemma buildTable_loop_outcome fuel : ∀ states actionTable,
  table_built states actionTable →
  length state_universe - length actionTable < fuel →
  (∃ states' actionTable',
     buildTable_loop fuel ifuel rules start follow states actionTable =
       Ok (states', actionTable')
     ∧ states `prefix_of` states'
     ∧ table_built states' actionTable'
     ∧ length actionTable' = length states')
  ∨ (∃ e, buildTable_loop fuel ifuel rules start follow states actionTable = Throw e
          ∧ conflict e).
Proof.
  induction fuel as [|fuel IH]; intros states tab Hbuilt Hfuel; [lia|].
  simpl. destruct (states !! length tab) as [st|] eqn:Hst.
  2:{ left. exists states, tab. split; [done|]. split; [reflexivity|].
      split; [done|]. apply lookup_ge_None in Hst.
      destruct Hbuilt as (_ & _ & _ & Hlen). lia. }
  destruct (table_items_outcome states tab st Hbuilt Hst)
    as [(states1 & row & -> & Hpre & Hbuilt1)|(e & -> & He)]; [|by right; eauto].
  simpl.
  destruct (IH states1 (tab ++ [row]) Hbuilt1)
    as [(states' & tab' & Hloop & Hpre' & Hb' & Hlen')|?]; [| |by right].
  - destruct Hbuilt1 as (Hok1 & _ & _ & Hlen1).
    apply states_ok_length in Hok1. rewrite length_app in *. simpl in *. lia.
  - left. exists states', tab'. split; [done|]. split; [by etrans | done].
Qed.
End table_outcome.

(** * The reads of [first] and [follow] find a set

    The model reads [first] and [follow] with the total lookup.  The keys
    that are read are the keys of the rule set and the symbols of the rules
    for [first], the keys of the rule set for [follow]; both loops only
    ever add keys, so every read finds the set that the initialisation put
    there or a later one. *)

Definition defined_on (keys : list string) (f : SetMap) : Prop :=
  ∀ k, k ∈ keys → is_Some (f !! k).

Definition keeps_keys (f f' : SetMap) : Prop :=
  ∀ k, is_Some (f !! k) → is_Some (f' !! k).

Lemma keeps_keys_refl f : keeps_keys f f.
Proof. by intros k. Qed.

Lemma keeps_keys_trans f g h : keeps_keys f g → keeps_keys g h → keeps_keys f h.
Proof. intros H1 H2 k Hk. by apply H2, H1. Qed.

Lemma keeps_keys_insert (f : SetMap) k s : keeps_keys f (<[k := s]> f).
Proof.
  intros k' Hk'. rewrite lookup_insert. case_decide; [by eexists | done].
Qed.

Lemma defined_on_keeps keys f f' :
  defined_on keys f → keeps_keys f f' → defined_on keys f'.
Proof. intros Hf Hk k Hin. by apply Hk, Hf. Qed.

Lemma while_changed_invariant {X} (Inv : X → Prop) (pass : X → X * bool) :
  (∀ x, Inv x → Inv (pass x).1) →
  ∀ fuel x x', Inv x → while_changed fuel pass x = Ok x' → Inv x'.
Proof.
  intros Hpass. induction fuel as [|fuel IH]; intros x x' Hx; simpl; [done|].
  specialize (Hpass x Hx). destruct (pass x) as [y changed]. simpl in *.
  destruct changed; [by apply IH | by intros [= <-]].
Qed.

Lemma first_rule_keeps key rule : ∀ f, keeps_keys f (first_rule key f rule).
Proof.
  induction rule as [|el rest IH]; intros f; simpl; [apply keeps_keys_refl|].
  destruct (canOmit el); [|apply keeps_keys_insert].
  eapply keeps_keys_trans; [apply keeps_keys_insert | apply IH].
Qed.

Lemma first_pass_keeps rules f : keeps_keys f (first_pass rules f).1.
Proof.
  unfold first_pass.
  assert (Hgen : ∀ (l : RuleSet) acc,
            keeps_keys f acc.1 →
            keeps_keys f
              (foldl (λ '(first, changed) '(key, rs),
                        let prevSize := length (first !!! key) in
                        let first := foldl (first_rule key) first rs in
                        (first, changed || bool_decide (prevSize < length (first !!! key))))
                     acc l).1).
  { induction l as [|[k rs] l IH]; intros [g c] Hacc; cbn [foldl]; [done|].
    apply IH. simpl in *. eapply keeps_keys_trans; [exact Hacc|].
    clear. revert g. induction rs as [|rule rs IHr]; intros g; cbn [foldl].
    - apply keeps_keys_refl.
    - eapply keeps_keys_trans; [apply first_rule_keeps | apply IHr]. }
  apply Hgen, keeps_keys_refl.
Qed.

Lemma first_init_el_keeps f e :
  keeps_keys f (first_init_el f e) ∧ is_Some (first_init_el f e !! base e).
Proof.
  unfold first_init_el. destruct (f !! base e) eqn:He.
  - split; [apply keeps_keys_refl | by rewrite He].
  - split; [apply keeps_keys_insert | rewrite lookup_insert_eq; by eexists].
Qed.

Lemma first_init_defined rules :
  defined_on (rules.*1 ++ symbols rules) (first_init rules).
Proof.
  unfold first_init, symbols.
  assert (Hrule : ∀ (rule : Rule) f,
            keeps_keys f (foldl first_init_el f rule)
            ∧ defined_on (base <$> rule) (foldl first_init_el f rule)).
  { induction rule as [|e rule IH]; intros f; cbn [foldl].
    - split; [apply keeps_keys_refl | by intros k ?%elem_of_nil].
    - destruct (first_init_el_keeps f e) as [Hk He].
      destruct (IH (first_init_el f e)) as [Hk' Hd]. split.
      + by eapply keeps_keys_trans.
      + intros k [->|Hin]%elem_of_cons; [by apply Hk' | by apply Hd]. }
  assert (Hrs : ∀ (rs : list Rule) f,
            keeps_keys f (foldl (foldl first_init_el) f rs)
            ∧ defined_on (rule ← rs; base <$> rule) (foldl (foldl first_init_el) f rs)).
  { induction rs as [|rule rs IH]; intros f; cbn [foldl].
    - split; [apply keeps_keys_refl | by intros k ?%elem_of_nil].
    - destruct (Hrule rule f) as [Hk Hd].
      destruct (IH (foldl first_init_el f rule)) as [Hk' Hd']. split.
      + by eapply keeps_keys_trans.
      + intros k [Hin|Hin]%elem_of_app; [by apply Hk', Hd | by apply Hd']. }
  assert (Hgen : ∀ (l : RuleSet) f,
            keeps_keys f
              (foldl (λ first '(key, rs),
                        foldl (foldl first_init_el) (<[key := []]> first) rs) f l)
            ∧ defined_on (l.*1 ++ ('(_, rs) ← l; rule ← rs; base <$> rule))
                (foldl (λ first '(key, rs),
                          foldl (foldl first_init_el) (<[key := []]> first) rs) f l)).
  { induction l as [|[k rs] l IH]; intros f; cbn [foldl].
    - split; [apply keeps_keys_refl|]. intros k' Hk'. simpl in Hk'.
      by apply elem_of_nil in Hk'.
    - destruct (Hrs rs (<[k := []]> f)) as [Hk Hd].
      destruct (IH (foldl (foldl first_init_el) (<[k := []]> f) rs)) as [Hk' Hd'].
      split.
      + eapply keeps_keys_trans; [apply keeps_keys_insert|].
        by eapply keeps_keys_trans.
      + intros k' Hin. simpl in Hin.
        apply elem_of_cons in Hin as [->|Hin].
        { apply Hk', Hk. rewrite lookup_insert_eq. by eexists. }
        apply elem_of_app in Hin as [Hin|Hin].
        { apply Hd'. apply elem_of_app. by left. }
        apply elem_of_app in Hin as [Hin|Hin].
        { by apply Hk', Hd. }
        apply Hd'. apply elem_of_app. by right. }
  apply Hgen.
Qed.

(** Every key and every symbol has its set in the result of [first]. *)
Lemma first_defined fuel rules f :
  first fuel rules = Ok f → defined_on (rules.*1 ++ symbols rules) f.
Proof.
  unfold first.
  apply (while_changed_invariant (defined_on (rules.*1 ++ symbols rules))).
  - intros g Hg. eapply defined_on_keeps; [exact Hg | apply first_pass_keeps].
  - apply first_init_defined.
Qed.

Lemma follow_scan_keeps first key el rest : ∀ f,
  keeps_keys f (follow_scan first key el f rest).
Proof.
  induction rest as [|e rest IH]; intros f; simpl; [apply keeps_keys_insert|].
  destruct (canOmit e); [|apply keeps_keys_insert].
  eapply keeps_keys_trans; [apply keeps_keys_insert | apply IH].
Qed.

Lemma follow_rule_keeps rules first key rule : ∀ acc,
  keeps_keys acc.1 (follow_rule rules first key acc rule).1.
Proof.
  induction rule as [|e rest IH]; intros acc; simpl; [apply keeps_keys_refl|].
  eapply keeps_keys_trans; [|apply IH].
  unfold follow_el. destruct acc as [f c]. simpl.
  destruct (hasOwn rules (base e)); [|apply keeps_keys_refl]. simpl.
  eapply keeps_keys_trans; [|apply follow_scan_keeps].
  destruct (canRepeat e); [apply keeps_keys_insert | apply keeps_keys_refl].
Qed.

Lemma follow_pass_keeps rules first f : keeps_keys f (follow_pass rules first f).1.
Proof.
  unfold follow_pass.
  assert (Hgen : ∀ (l : RuleSet) acc,
            keeps_keys f acc.1 →
            keeps_keys f
              (foldl (λ acc '(key, rs), foldl (follow_rule rules first key) acc rs)
                     acc l).1).
  { induction l as [|[k rs] l IH]; intros acc Hacc; cbn [foldl]; [done|].
    apply IH. eapply keeps_keys_trans; [exact Hacc|].
    clear. revert acc. induction rs as [|rule rs IHr]; intros acc; cbn [foldl].
    - apply keeps_keys_refl.
    - eapply keeps_keys_trans; [apply follow_rule_keeps | apply IHr]. }
  apply Hgen, keeps_keys_refl.
Qed.

(** Every key has its set in the result of [follow]. *)
Lemma follow_defined fuel rules start fol :
  follow fuel rules start = Ok fol → defined_on rules.*1 fol.
Proof.
  unfold follow. destruct (follow_init rules !! start) as [s|] eqn:Hs; [|done].
  intros (f & _ & Hloop)%bind_Ok. revert Hloop.
  apply (while_changed_invariant (defined_on rules.*1)).
  - intros g Hg. eapply defined_on_keeps; [exact Hg | apply follow_pass_keeps].
  - eapply defined_on_keeps; [|apply keeps_keys_insert].
    intros k Hk. by apply follow_init_key.
Qed.

(** The key of an item that asks for a reduce is a key of the rule set, so
    the builder finds its FOLLOW set. *)
Lemma item_key_defined rules start it :
  item_ok rules start it → key it ≠ start → key it ∈ rules.*1.
Proof.
  intros [[[= ? _]|Hin]%elem_of_cons _] Hne; [done|].
  unfold rule_list in Hin.
  apply list_elem_of_bind in Hin as ([k rs] & Hin & Hkrs).
  apply list_elem_of_fmap in Hin as (ch & [= -> _] & _).
  apply list_elem_of_fmap. by exists (k, rs).
Qed.

(** * The items of a table that was built *)

Section items_of_states.
Variables (ifuel : nat) (rules : RuleSet) (start : string) (follow : SetMap).

Lemma closure_items_ok fuel root cl :
  item_ok rules start root → closure fuel rules root = Ok cl →
  Forall (item_ok rules start) cl.
Proof.
  intros Hroot Hcl. apply Forall_forall. intros it Hit.
  eapply closure_elem in Hit as [Hin|Hborn]; [| |exact Hcl].
  - by eapply skipOmit_ok.
  - by apply closure_born_ok.
Qed.

Lemma goto_advance_items_ok fuel rule i j acc acc' :
  item_ok rules start (mkDotted (key rule) (children rule) (dot rule + j)) →
  Forall (item_ok rules start) acc.1 →
  goto_advance fuel rules rule i j acc = Ok acc' →
  Forall (item_ok rules start) acc'.1.
Proof.
  intros Hbase Hacc. unfold goto_advance. intros (cl & Hcl & Hfold)%bind_Ok.
  apply closure_items_ok in Hcl; [|done].
  eapply (foldM_invariant (λ a, Forall (item_ok rules start) a.1));
    [| |exact Hfold]; [done|].
  intros [output cf] nextRule a' Hin Ha. unfold goto_add. simpl in *.
  destruct (list_find _ output) as [[? ?]|].
  - case_match; [done|]. by intros [= <-].
  - intros [= <-]. simpl. apply Forall_app. split; [done|].
    constructor; [|done]. by eapply Forall_forall in Hcl.
Qed.

Lemma goto_items_ok fuel ruleSet el output cameFrom :
  Forall (item_ok rules start) ruleSet →
  goto fuel rules ruleSet el = Ok (output, cameFrom) →
  Forall (item_ok rules start) output.
Proof.
  intros Hok Hfold. unfold goto in Hfold.
  change (Forall (item_ok rules start) (output, cameFrom).1).
  eapply (foldM_invariant (λ a, Forall (item_ok rules start) a.1));
    [| |exact Hfold]; [constructor|].
  intros a [i rule] a' Hin%elem_of_imap_pair Ha. unfold goto_rule.
  assert (Hrule : item_ok rules start rule).
  { eapply Forall_forall in Hok; [done|]. by eapply list_elem_of_lookup_2. }
  destruct (children rule !! dot rule) as [e|] eqn:He; [|by intros [= <-]].
  case_decide; [|by intros [= <-]].
  apply lookup_lt_Some in He. destruct Hrule as [Hr1 Hr2].
  intros (a1 & H1 & H0)%bind_Ok.
  apply goto_advance_items_ok in H1; [|by split; simpl; [|lia]|done].
  destruct (canRepeat e); [|by injection H0 as <-].
  apply goto_advance_items_ok in H0; [done| |done]. split; simpl; [done|lia].
Qed.

Lemma table_item_items_ok st acc jr acc' :
  Forall (item_ok rules start) st →
  Forall (Forall (item_ok rules start)) acc.1 →
  table_item ifuel rules start follow st acc jr = Ok acc' →
  Forall (Forall (item_ok rules start)) acc'.1.
Proof.
  intros Hst Hacc. destruct acc as [states row], jr as [j rule]. simpl in *.
  unfold table_item. case_decide.
  - case_decide.
    + destruct (row !! "$"); [done|]. by intros [= <-].
    + by intros (row' & _ & [= <-])%bind_Ok.
  - destruct (children rule !! dot rule) as [e|]; [|by intros [= <-]].
    destruct (row !! base e).
    { case_decide; [by intros [= <-] | done]. }
    intros ([gotoState cf] & Hgoto & Hfind)%bind_Ok.
    apply goto_items_ok in Hgoto; [|done].
    destruct (list_find _ states) as [[? ?]|]; injection Hfind as <-; [done|].
    simpl. apply Forall_app. split; [done|]. by constructor.
Qed.

Lemma buildTable_loop_items_ok fuel : ∀ states actionTable states' actionTable',
  Forall (Forall (item_ok rules start)) states →
  buildTable_loop fuel ifuel rules start follow states actionTable =
    Ok (states', actionTable') →
  Forall (Forall (item_ok rules start)) states'.
Proof.
  induction fuel as [|fuel IH]; intros states tab states' tab' Hok; simpl; [done|].
  destruct (states !! length tab) as [st|] eqn:Hst; [|by intros [= <- <-]].
  intros ([states1 row] & Hfold & Hloop)%bind_Ok.
  eapply IH; [|exact Hloop].
  change states1 with (states1, row).1.
  eapply (foldM_invariant (λ a, Forall (Forall (item_ok rules start)) a.1));
    [| |exact Hfold]; [done|].
  intros a jr a' _ Ha. apply table_item_items_ok; [|done].
  eapply Forall_forall in Hok; [done|]. by eapply list_elem_of_lookup_2.
Qed.
End items_of_states.

Lemma start_item_ok rules start : item_ok rules start (mkDotted start [start] 0).
Proof. split; simpl; [left | lia]. Qed.

Lemma buildTable_states_items_ok fuel rules start states actionTable :
  buildTable_states fuel rules start = Ok (states, actionTable) →
  Forall (Forall (item_ok rules start)) states.
Proof.
  unfold buildTable_states.
  intros (st0 & Hcl & (follow & Hfollow & Hloop)%bind_Ok)%bind_Ok.
  eapply buildTable_loop_items_ok; [|exact Hloop].
  constructor; [|done]. eapply closure_items_ok; [|exact Hcl]. apply start_item_ok.
Qed.

Lemma check_rules_nonempty rules k ch :
  Parser.check_rules rules = Ok tt → (k, ch) ∈ rule_list rules → ch ≠ [].
Proof.
  unfold rule_list. intros Hcheck ([k' rs] & Hin & Hkrs)%list_elem_of_bind.
  apply list_elem_of_fmap in Hin as (ch' & [= -> ->] & Hch).
  induction rules as [|[k0 rs0] rest IH]; [by apply elem_of_nil in Hkrs|].
  simpl in Hcheck. case_decide; [done|]. case_bool_decide as Hex; [done|].
  apply elem_of_cons in Hkrs as [[= <- <-]|Hkrs]; [|by apply IH].
  intros ->. apply Hex. apply Exists_exists. by exists [].
Qed.

(** The constructor succeeds when its assertions hold and the table is
    built. *)
Lemma Parser_new_Ok fuel rules start actionTable :
  Parser.new fuel rules start = Ok actionTable ↔
  Parser.check_rules rules = Ok tt
  ∧ ∃ states, buildTable_states fuel rules start = Ok (states, actionTable).
Proof.
  unfold Parser.new, buildTable.
  destruct (Parser.check_rules rules) as [[]| |]; simpl;
    [|split; [done | by intros [? _]]..].
  destruct (buildTable_states fuel rules start) as [[states table]| |]; simpl.
  - split.
    + intros [= <-]. split; [done|]. by exists states.
    + by intros [_ (states' & [= _ <-])].
  - split; [done | by intros [_ (? & ?)]].
  - split; [done | by intros [_ (? & ?)]].
Qed.

(** * The theorems on the table builder and on the reductions *)


(** The bound on the fuel that the loops of the builder can use. *)
Definition fuel_bound (rules : RuleSet) (start : string) : nat :=
  S (length (universe rules start) + length (state_universe rules start)
     + length rules * length (follow_universe rules)).



(** * The theorems on a run of the list grammar *)

(** The table of the list grammar, its states, and the state of [parse]
    after a number of turns on the input "[a]". *)
Definition list_states : list State :=
  match buildTable_states 50 list_rules "list" with
  | Ok (states, _) => states
  | _ => []
  end.

Definition list_table : ActionTable :=
  match buildTable_states 50 list_rules "list" with
  | Ok (_, actionTable) => actionTable
  | _ => []
  end.

Definition list_lexer : list Terminal := Parser.terminals list_rules [].

Definition list_tokens : list LexTree :=
  match Lexer.split "[a]" None with
  | Ok tokens => tokens
  | _ => []
  end.

Fixpoint turns (n : nat) (st : pstate) : pstate :=
  match n with
  | 0 => st
  | S n =>
      match parse_step list_table list_lexer list_tokens st with
      | Ok (inl st') => turns n st'
      | _ => st
      end
  end.

Lemma turns_reachable n : ∀ st,
  reachable list_table list_lexer list_tokens st →
  reachable list_table list_lexer list_tokens (turns n st).
Proof.
  induction n as [|n IH]; intros st Hreach; simpl; [done|].
  destruct (parse_step list_table list_lexer list_tokens st) as [[st'|]| |] eqn:Hstep;
    try done.
  apply IH. by eapply reach_step.
Defined.




(** * The lexer: lines, indentation and tokens *)

(** ** [split] and the text *)

Definition newline : string := String "010" "".

(** The text holds a carriage return right before a line feed. *)
Fixpoint has_crlf (s : string) : bool :=
  match s with
  | String c (String c' _ as rest) =>
      bool_decide (c = "013"%char ∧ c' = "010"%char) || has_crlf rest
  | _ => false
  end.

(** The tokens of the lines of a text, the markers of indentation and the
    end marker left out. *)
Definition line_tokens_of (tokens : list LexTree) : list LexTree :=
  filter (λ t, type t = "unknown") tokens.

Lemma append_nil_r (s : string) : s +:+ "" = s.
Proof.
  induction s as [|c s IH]; [done|].
  change (String c s +:+ "") with (String c (s +:+ "")). by rewrite IH.
Qed.

Lemma append_String (cur : string) c rest :
  (cur +:+ String c "") +:+ rest = cur +:+ String c rest.
Proof.
  induction cur as [|c0 cur IH]; [done|].
  change (String c0 (cur +:+ String c "") +:+ rest = String c0 (cur +:+ String c rest)).
  change (String c0 ((cur +:+ String c "") +:+ rest) = String c0 (cur +:+ String c rest)).
  by rewrite IH.
Qed.

Lemma has_crlf_tail c rest : has_crlf (String c rest) = false → has_crlf rest = false.
Proof.
  destruct rest as [|c' rest']; [done|].
  cbn [has_crlf]. by intros [_ ?]%orb_false_iff.
Qed.

Lemma concat_split_lines input :
  ∀ cur, has_crlf input = false →
    String.concat newline (Lexer.split_lines input cur) = cur +:+ input.
Proof.
  remember (String.length input) as n eqn:Hn.
  revert input Hn. induction (lt_wf n) as [n _ IH]. intros input -> cur Hcr.
  destruct input as [|c rest]; [by rewrite append_nil_r|].
  cbn [Lexer.split_lines]. case_decide as Hc.
  - subst c. pose proof (split_lines_nonempty rest "") as Hne.
    destruct (Lexer.split_lines rest "") as [|y l] eqn:Hs; [done|].
    change (String.concat newline (cur :: y :: l))
      with (cur +:+ newline +:+ String.concat newline (y :: l)).
    rewrite <- Hs.
    rewrite (IH (String.length rest) ltac:(simpl; lia) rest eq_refl ""
               (has_crlf_tail _ _ Hcr)).
    done.
  - destruct rest as [|c' rest']; [done|].
    case_decide as Hcrlf.
    + exfalso. cbn [has_crlf] in Hcr. apply orb_false_iff in Hcr as [Hcr _].
      by apply bool_decide_eq_false in Hcr.
    + rewrite (IH (String.length (String c' rest')) ltac:(simpl; lia)
                 (String c' rest') eq_refl _ (has_crlf_tail _ _ Hcr)).
      apply append_String.
Qed.

Lemma imap_id {A} (l : list A) : imap (λ _ x, x) l = l.
Proof.
  induction l as [|x l IH]; [done|]. rewrite imap_cons. f_equal. exact IH.
Qed.

Lemma line_tokens_of_unknown (lines : list string) :
  line_tokens_of (imap (λ l str, Lexer.unknown str l) lines) =
    imap (λ l str, Lexer.unknown str l) lines.
Proof.
  apply filter_all, Forall_forall.
  by intros t (i & str & -> & _)%elem_of_lookup_imap_1.
Qed.

Lemma match0_unknown (lines : list string) :
  match0 <$> imap (λ l str, Lexer.unknown str l) lines = lines.
Proof.
  rewrite fmap_imap. rewrite (imap_ext _ (λ _ str, str)) by done.
  apply imap_id.
Qed.

Lemma split_Ok input comment tokens :
  Lexer.split input comment = Ok tokens →
  ∃ str,
    last (Lexer.kept_lines input comment) = Some str
    ∧ tokens =
        imap (λ l s, Lexer.unknown s l) (Lexer.kept_lines input comment)
        ++ [mkLex "$" ("", []) (String.length str)
              (length (Lexer.kept_lines input comment) - 1)].
Proof.
  unfold Lexer.split, Lexer.marker.
  destruct (last (Lexer.kept_lines input comment)) as [str|]; [|done].
  simpl. intros [= <-]. by exists str.
Qed.

(** X1.  [split] loses nothing of a text that has no carriage return
    before a line feed: the texts of its line tokens, joined by line feeds,
    are the input. *)
Theorem split_join :
  ∀ (input : string) (tokens : list LexTree),
    has_crlf input = false →
    Lexer.split input None = Ok tokens →
    String.concat newline (match0 <$> line_tokens_of tokens) = input.
Proof.
  intros input tokens Hcr (str & _ & ->)%split_Ok.
  unfold line_tokens_of. rewrite filter_app.
  fold (line_tokens_of (imap (λ l s, Lexer.unknown s l) (Lexer.kept_lines input None))).
  rewrite line_tokens_of_unknown.
  rewrite filter_cons, decide_False by done. rewrite filter_nil, app_nil_r.
  rewrite match0_unknown, kept_lines_None.
  by rewrite concat_split_lines.
Qed.

Lemma split_join_witness :
  String.concat newline
    (match0 <$> line_tokens_of
       [Lexer.unknown "a" 0; Lexer.unknown " b" 1; mkLex "$" ("", []) 2 1]) =
    "a" +:+ newline +:+ " b".
Proof.
  apply (split_join ("a" +:+ newline +:+ " b")).
  - reflexivity.
  - vm_compute. reflexivity.
Defined.

Lemma kept_lines_nil input c :
  Lexer.kept_lines input (Some c) = [] ↔
  Forall (λ l, c l = true) (Lexer.split_lines input "").
Proof.
  unfold Lexer.kept_lines. generalize (Lexer.split_lines input "") as lines.
  induction lines as [|l lines IH]; [by split|].
  rewrite filter_cons. simpl. rewrite Forall_cons. case_decide as Hl.
  - split; [done|]. intros [Hc _]. congruence.
  - rewrite IH. split; [|tauto]. intros ?. split; [|done].
    by destruct (c l).
Qed.

Lemma splitOffside_nil input comment :
  Lexer.kept_lines input comment = [] →
  Lexer.splitOffside input comment =
    Throw (TypeError "Cannot read properties of undefined (reading 'length')").
Proof. unfold Lexer.splitOffside. by intros ->. Qed.

(** X2.  Without a comment pattern [split] and [splitOffside] never fail
    for want of a line; with one, both throw a [TypeError] when the pattern
    takes every line away, and [split] fails in no other case. *)
Theorem split_no_line :
  (∀ input, ∃ tokens, Lexer.split input None = Ok tokens)
  ∧ (∀ input c,
       Forall (λ l, c l = true) (Lexer.split_lines input "") ↔
       ∃ e, Lexer.split input (Some c) = Throw e)
  ∧ (∀ input c,
       Forall (λ l, c l = true) (Lexer.split_lines input "") →
       Lexer.split input (Some c) =
         Throw (TypeError "Cannot read properties of undefined (reading 'length')")
       ∧ Lexer.splitOffside input (Some c) =
           Throw (TypeError "Cannot read properties of undefined (reading 'length')")).
Proof.
  split; [|split].
  - intros input. unfold Lexer.split, Lexer.marker. rewrite kept_lines_None.
    pose proof (split_lines_nonempty input "") as Hne.
    destruct (last (Lexer.split_lines input "")) as [str|] eqn:Hlast.
    + simpl. by eexists.
    + by apply last_None in Hlast.
  - intros input c. rewrite <- kept_lines_nil. unfold Lexer.split, Lexer.marker.
    destruct (last (Lexer.kept_lines input (Some c))) as [str|] eqn:Hlast; simpl.
    + split; [|by intros [e ?]]. intros Hnil. by rewrite Hnil in Hlast.
    + apply last_None in Hlast. split; [by eexists | done].
  - intros input c Hall%kept_lines_nil. split.
    + unfold Lexer.split. by rewrite Hall.
    + by apply splitOffside_nil.
Qed.

(** ** [splitOffside]: the markers pair up *)

(** The depth of indentation after the tokens, from the depth [d] on: an
    [indent] goes one level down, a [dedent] one level up, and there is no
    depth when a [dedent] comes at depth zero. *)
Fixpoint depth_after (d : nat) (tokens : list LexTree) : option nat :=
  match tokens with
  | [] => Some d
  | t :: rest =>
      if decide (type t = "indent") then depth_after (S d) rest
      else if decide (type t = "dedent") then
        match d with
        | 0 => None
        | S d' => depth_after d' rest
        end
      else depth_after d rest
  end.

Lemma depth_after_app tokens1 : ∀ d tokens2,
  depth_after d (tokens1 ++ tokens2) =
    depth_after d tokens1 ≫= λ d', depth_after d' tokens2.
Proof.
  induction tokens1 as [|t tokens1 IH]; intros d tokens2; simpl; [done|].
  repeat case_decide; [by apply IH | | by apply IH].
  destruct d; [done | by apply IH].
Qed.

Lemma depth_after_dedents k c i : ∀ d,
  k ≤ d → depth_after d (replicate k (OffsideSpec.dedent c i)) = Some (d - k).
Proof.
  induction k as [|k IH]; intros d Hk; simpl; [f_equal; lia|].
  destruct d as [|d]; [lia|]. rewrite IH by lia. f_equal.
Qed.

Lemma filter_partition_length (c : nat) (level : list nat) :
  length (filter (λ l, c < l) level) + length (filter (λ l, l ≤ c) level)
  = length level.
Proof.
  induction level as [|top rest IH]; [done|].
  rewrite !filter_cons. repeat case_decide; simpl; lia.
Qed.

Lemma falling_zero_levels level :
  falling level → 0 ∈ level → length (filter (λ c, 0 < c) level) = length level - 1.
Proof.
  induction level as [|top rest IH]; [by intros _ ?%elem_of_nil|].
  intros [Hall Hf] Hin. rewrite filter_cons. case_decide as Htop.
  - apply elem_of_cons in Hin as [Heq|Hin]; [lia|].
    simpl. rewrite IH by done. destruct rest; [by apply elem_of_nil in Hin|].
    simpl. lia.
  - assert (top = 0) as -> by lia.
    destruct rest as [|x rest]; [done|].
    apply Forall_cons in Hall as [Hx _]. lia.
Qed.

Lemma line_tokens_depth level i str out level' :
  falling level → 0 ∈ level →
  OffsideSpec.line_tokens level i str = Ok (out, level') →
  0 ∈ level'
  ∧ depth_after (length level - 1) out = Some (length level' - 1).
Proof.
  unfold OffsideSpec.line_tokens. intros Hf H0.
  destruct (Lexer.first_nonspace str 0) as [c|]; [|by intros [= <- <-]].
  case_bool_decide as Hc.
  - intros [= <- <-]. split; [by right|]. simpl.
    destruct level; [by apply elem_of_nil in H0|]. simpl. f_equal. lia.
  - case_decide as Hin; [|done]. intros [= <- <-].
    split; [apply list_elem_of_filter; split; [lia | done]|].
    rewrite depth_after_app.
    pose proof (filter_partition_length c level) as Hlen.
    assert (Hrest : 0 < length (filter (λ l, l ≤ c) level)).
    { destruct (filter (λ l, l ≤ c) level); [by apply elem_of_nil in Hin|].
      simpl. lia. }
    rewrite depth_after_dedents by lia. simpl. f_equal. lia.
Qed.

Lemma lines_tokens_depth lines : ∀ level i out level',
  falling level → 0 ∈ level →
  OffsideSpec.lines_tokens level i lines = Ok (out, level') →
  falling level' ∧ 0 ∈ level'
  ∧ depth_after (length level - 1) out = Some (length level' - 1).
Proof.
  induction lines as [|str rest IH]; intros level i out level' Hf H0; simpl.
  - by intros [= <- <-].
  - intros ([o lv] & Hl & Hr)%bind_Ok.
    apply bind_Ok in Hr as ([os lv'] & Hr & [= <- <-]).
    pose proof (line_tokens_falling _ _ _ _ _ Hf Hl) as Hf1.
    destruct (line_tokens_depth _ _ _ _ _ Hf H0 Hl) as [H01 Hd1].
    destruct (IH _ _ _ _ Hf1 H01 Hr) as (Hf2 & H02 & Hd2).
    split; [done|]. split; [done|].
    rewrite depth_after_app, Hd1. simpl. exact Hd2.
Qed.

Lemma splitOffside_Ok input comment tokens :
  Lexer.splitOffside input comment = Ok tokens →
  OffsideSpec.splitOffside (Lexer.kept_lines input comment) = Ok tokens.
Proof.
  intros Hrun. rewrite <- splitOffside_refines; [done|].
  intros Hnil. by rewrite (splitOffside_nil _ _ Hnil) in Hrun.
Qed.

(** X3.  In the tokens of [splitOffside] the markers pair up like
    brackets: read from the left, no [dedent] comes when every [indent]
    before it is closed, and at the end every [indent] is closed. *)
Theorem splitOffside_balanced :
  ∀ (input : string) (comment : option (string → bool)) (tokens : list LexTree),
    Lexer.splitOffside input comment = Ok tokens →
    depth_after 0 tokens = Some 0.
Proof.
  intros input comment tokens Hrun%splitOffside_Ok.
  unfold OffsideSpec.splitOffside in Hrun.
  apply bind_Ok in Hrun as ([out level] & Hlines & [= <-]).
  destruct (lines_tokens_depth _ [0] 0 out level
              ltac:(by split; [constructor|]) ltac:(by left) Hlines)
    as (Hf & H0 & Hd).
  rewrite depth_after_app. simpl in Hd. rewrite Hd. simpl.
  rewrite depth_after_app, falling_zero_levels by done.
  rewrite depth_after_dedents by lia. simpl. f_equal. lia.
Qed.

Lemma splitOffside_balanced_witness :
  depth_after 0
    [Lexer.unknown "a" 0; mkLex "indent" ("", []) 1 1; Lexer.unknown " b" 1;
     mkLex "dedent" ("", []) 2 1; mkLex "$" ("", []) 2 1] = Some 0.
Proof.
  apply (splitOffside_balanced ("a" +:+ newline +:+ " b") None).
  vm_compute. reflexivity.
Defined.

(** ** [splitOffside] and [split] *)

Definition is_marker (t : LexTree) : Prop :=
  type t = "indent" ∨ type t = "dedent".

#[global] Instance is_marker_dec t : Decision (is_marker t).
Proof. unfold is_marker. apply _. Defined.

Lemma filter_markers_dedents k c i :
  filter (λ t, ¬ is_marker t) (replicate k (OffsideSpec.dedent c i)) = [].
Proof.
  apply filter_none, Forall_forall. intros t [-> _]%elem_of_replicate.
  intros Hn. apply Hn. by right.
Qed.

Lemma line_tokens_text level i str out level' :
  OffsideSpec.line_tokens level i str = Ok (out, level') →
  filter (λ t, ¬ is_marker t) out = [Lexer.unknown str i].
Proof.
  assert (Hunk : ¬ is_marker (Lexer.unknown str i)) by (by intros [|]).
  unfold OffsideSpec.line_tokens.
  destruct (Lexer.first_nonspace str 0) as [c|].
  - case_bool_decide.
    + intros [= <- <-]. rewrite filter_cons, decide_False.
      * by rewrite filter_cons, decide_True.
      * intros Hn. apply Hn. by left.
    + case_decide; [|done]. intros [= <- <-].
      rewrite filter_app, filter_markers_dedents. simpl.
      by rewrite filter_cons, decide_True.
  - intros [= <- <-]. by rewrite filter_cons, decide_True.
Qed.

Lemma lines_tokens_text lines : ∀ level i out level',
  OffsideSpec.lines_tokens level i lines = Ok (out, level') →
  filter (λ t, ¬ is_marker t) out = imap (λ l s, Lexer.unknown s (i + l)) lines.
Proof.
  induction lines as [|str rest IH]; intros level i out level'; simpl.
  - by intros [= <- <-].
  - intros ([o lv] & Hl & Hr)%bind_Ok.
    apply bind_Ok in Hr as ([os lv'] & Hr & [= <- <-]).
    rewrite filter_app, (line_tokens_text _ _ _ _ _ Hl), (IH _ _ _ _ Hr).
    simpl. rewrite Nat.add_0_r. f_equal.
    apply imap_ext. intros j s _. simpl. f_equal. lia.
Qed.

(** X4.  [splitOffside] adds the markers of indentation to the tokens of
    [split] and changes nothing else: with the markers taken out, its
    tokens are those of [split]. *)
Theorem splitOffside_split :
  ∀ (input : string) (comment : option (string → bool)) (tokens : list LexTree),
    Lexer.splitOffside input comment = Ok tokens →
    Lexer.split input comment = Ok (filter (λ t, ¬ is_marker t) tokens).
Proof.
  intros input comment tokens Hrun.
  assert (Hne : Lexer.kept_lines input comment ≠ []).
  { intros Hnil. by rewrite (splitOffside_nil _ _ Hnil) in Hrun. }
  apply splitOffside_Ok in Hrun. unfold OffsideSpec.splitOffside in Hrun.
  apply bind_Ok in Hrun as ([out level] & Hlines & [= <-]).
  rewrite !filter_app, (lines_tokens_text _ _ _ _ _ Hlines), filter_markers_dedents.
  rewrite filter_cons, decide_True by (by intros [|]).
  unfold Lexer.split, Lexer.marker.
  destruct (last (Lexer.kept_lines input comment)) as [str|] eqn:Hlast.
  - simpl. do 2 f_equal.
  - by apply last_None in Hlast.
Qed.

Lemma splitOffside_split_witness :
  Lexer.split ("a" +:+ newline +:+ " b") None =
    Ok (filter (λ t, ¬ is_marker t)
          [Lexer.unknown "a" 0; mkLex "indent" ("", []) 1 1; Lexer.unknown " b" 1;
           mkLex "dedent" ("", []) 2 1; mkLex "$" ("", []) 2 1]).
Proof.
  apply splitOffside_split. vm_compute. reflexivity.
Defined.

(** ** [lex] over a list of tokens *)

Lemma lex_step_output fuel terminals tokens : ∀ pre output,
  foldM (λ output token,
           if decide (type token = "unknown")
           then Lexer.lex_line fuel terminals token 0 output
           else Ok (output ++ [token]))
        (pre ++ output) tokens =
    (r ← foldM (λ output token,
                  if decide (type token = "unknown")
                  then Lexer.lex_line fuel terminals token 0 output
                  else Ok (output ++ [token]))
               output tokens;
     Ok (pre ++ r)).
Proof.
  induction tokens as [|token tokens IH]; intros pre output; [done|].
  rewrite !foldM_cons. case_decide.
  - rewrite lex_line_output.
    destruct (Lexer.lex_line fuel terminals token 0 output) as [r| |]; simpl; [|done..].
    apply IH.
  - simpl. rewrite <- app_assoc. apply IH.
Qed.

Lemma lex_app fuel terminals tokens1 tokens2 :
  Lexer.lex fuel terminals (tokens1 ++ tokens2) =
    (out1 ← Lexer.lex fuel terminals tokens1;
     out2 ← Lexer.lex fuel terminals tokens2;
     Ok (out1 ++ out2)).
Proof.
  unfold Lexer.lex. rewrite foldM_app.
  destruct (foldM _ [] tokens1) as [out1| |]; simpl; [|done..].
  rewrite <- (app_nil_r out1) at 1. apply lex_step_output.
Qed.

Lemma lex_known fuel terminals tokens :
  Forall (λ t, type t ≠ "unknown") tokens →
  Lexer.lex fuel terminals tokens = Ok tokens.
Proof.
  unfold Lexer.lex. intros Hall.
  assert (Hgen : ∀ output,
            foldM (λ output token,
                     if decide (type token = "unknown")
                     then Lexer.lex_line fuel terminals token 0 output
                     else Ok (output ++ [token]))
                  output tokens = Ok (output ++ tokens)).
  { induction Hall as [|t tokens Ht _ IH]; intros output.
    - by rewrite app_nil_r.
    - rewrite foldM_cons, decide_False by done. simpl.
      rewrite IH. by rewrite <- app_assoc. }
  apply Hgen.
Qed.

(** X5.  [lex] works token by token: the tokens of two lists put together
    are the tokens of the first followed by those of the second, and the
    first error met is the error of the whole; a list without unknown
    tokens comes back as it is. *)
Theorem lex_compose :
  (∀ fuel terminals tokens1 tokens2,
     Lexer.lex fuel terminals (tokens1 ++ tokens2) =
       (out1 ← Lexer.lex fuel terminals tokens1;
        out2 ← Lexer.lex fuel terminals tokens2;
        Ok (out1 ++ out2)))
  ∧ (∀ fuel terminals tokens,
       Forall (λ t, type t ≠ "unknown") tokens →
       Lexer.lex fuel terminals tokens = Ok tokens).
Proof. split; [apply lex_app | apply lex_known]. Qed.

Lemma lex_compose_witness :
  Lexer.lex 0 [] [mkLex "indent" ("", []) 2 1; mkLex "$" ("", []) 0 0] =
    Ok [mkLex "indent" ("", []) 2 1; mkLex "$" ("", []) 0 0].
Proof.
  apply (proj2 lex_compose). repeat constructor; discriminate.
Defined.

(** ** [lex] on one line: nothing is lost *)

(** The text from the index [n] on. *)
Fixpoint string_skip (n : nat) (s : string) : string :=
  match n, s with
  | 0, _ => s
  | S n, String _ s' => string_skip n s'
  | S _, EmptyString => EmptyString
  end.

(** The texts one after the other. *)
Definition joined (texts : list string) : string := foldr String.append "" texts.

(** The match of a pattern is the text found at the index. *)
Definition found_at (p : RegExp) (input : string) : Prop :=
  ∀ i m, p input i = Some m → ∃ rest, string_skip i input = m.1 +:+ rest.

Lemma string_skip_all s : ∀ i, String.length s ≤ i → string_skip i s = "".
Proof.
  induction s as [|c s IH]; intros [|i]; simpl; try done; [lia|].
  intros Hle. apply IH. lia.
Qed.

Lemma string_skip_nil i : string_skip i "" = "".
Proof. by destruct i. Qed.

Lemma string_skip_prefix a rest : string_skip (String.length a) (a +:+ rest) = rest.
Proof.
  induction a as [|c a IH]; [done|].
  change (String c a +:+ rest) with (String c (a +:+ rest)). simpl. exact IH.
Qed.

Lemma append_eq_nil (a b : string) : a +:+ b = "" → a = "" ∧ b = "".
Proof. destruct a; [by intros <- | done]. Qed.

Lemma string_skip_add s : ∀ i a rest,
  string_skip i s = a +:+ rest → string_skip (i + String.length a) s = rest.
Proof.
  induction s as [|c s IH]; intros i a rest Hs.
  - rewrite string_skip_nil in Hs. symmetry in Hs.
    apply append_eq_nil in Hs as [-> ->]. apply string_skip_nil.
  - destruct i as [|i].
    + simpl in Hs. rewrite Hs. apply string_skip_prefix.
    + simpl in *. by apply IH.
Qed.

Lemma next_scan_match terminals token i lexToken :
  Lexer.next_scan (V := Action) terminals token i None = Ok lexToken →
  index lexToken = index token + i ∧ line lexToken = line token
  ∧ ∃ t, t ∈ terminals ∧ type lexToken = ttype t
         ∧ pattern t (match0 token) i = Some (match_ lexToken).
Proof.
  induction terminals as [|t ts IH]; simpl; [done|].
  destruct (pattern t (match0 token) i) as [m|] eqn:Hm.
  - intros [= <-]. simpl. repeat split; try done. exists t. split; [by left | done].
  - intros (Hi & Hl & t' & Hin & Ht')%IH. repeat split; try done.
    exists t'. split; [by right | done].
Qed.

Lemma lex_line_tiles terminals token :
  Forall (λ t, ttype t ≠ "$") terminals →
  (∀ t, t ∈ terminals → found_at (pattern t) (match0 token)) →
  ∀ fuel i output out,
    Lexer.lex_line fuel terminals token i output = Ok out →
    ∃ tokens,
      out = output ++ tokens
      ∧ joined (match0 <$> tokens) = string_skip i (match0 token)
      ∧ ∀ pre t post,
          tokens = pre ++ t :: post →
          index t = index token + i + String.length (joined (match0 <$> pre))
          ∧ line t = line token.
Proof.
  intros Hno Hfound.
  induction fuel as [|fuel IH]; intros i output out; simpl; [done|].
  unfold Lexer.next. case_decide as Hi; simpl.
  - intros [= <-]. exists []. rewrite app_nil_r. split; [done|]. split.
    + by rewrite string_skip_all.
    + by intros [|] ? ? ?.
  - destruct (Lexer.next_scan _ _ _ _) as [lexToken| |] eqn:Hscan; simpl; [|done..].
    apply next_scan_match in Hscan as (Hix & Hl & t & Hin & Hty & Hm).
    destruct (Hfound t Hin i _ Hm) as [rest Hrest].
    case_decide as Heof.
    + rewrite Forall_forall in Hno. destruct (Hno t Hin). congruence.
    + intros Hrun. apply IH in Hrun as (tokens & -> & Hjoin & Hpos).
      exists (lexToken :: tokens). rewrite <- app_assoc. split; [done|]. split.
      * change (joined (match0 <$> lexToken :: tokens))
          with (match0 lexToken +:+ joined (match0 <$> tokens)).
        rewrite Hjoin. unfold match0 in *.
        by rewrite (string_skip_add _ _ _ _ Hrest).
      * intros [|t0 pre] t' post Heq.
        -- injection Heq as <- <-. split; [simpl; lia | done].
        -- injection Heq as <- ->. destruct (Hpos pre t' post eq_refl) as [Hp Hl'].
           split; [|done]. rewrite Hp.
           change (joined (match0 <$> lexToken :: pre))
             with (match0 lexToken +:+ joined (match0 <$> pre)).
           rewrite string_length_app. lia.
Qed.

Lemma substring_skip s : ∀ i n,
  i + n ≤ String.length s →
  string_skip i s = substring i n s +:+ string_skip (i + n) s.
Proof.
  induction s as [|c s IH]; intros i n Hle; simpl in Hle.
  - assert (i = 0 ∧ n = 0) as [-> ->] by lia. done.
  - destruct i as [|i].
    + destruct n as [|n]; [done|]. simpl.
      change (String c (substring 0 n s) +:+ string_skip n s)
        with (String c (substring 0 n s +:+ string_skip n s)).
      f_equal. apply (IH 0 n). lia.
    + simpl. apply IH. lia.
Qed.

(** The pattern of a terminal promoted from a rule finds its text and
    nothing else. *)
Lemma literal_found_at el input : found_at (Parser.literal el) input.
Proof.
  intros i m. unfold Parser.literal. case_decide as Hd; [|done].
  intros [= <-]. destruct Hd as [Hsub Hle]. simpl.
  exists (string_skip (i + String.length el) input).
  rewrite <- Hsub at 1. by apply substring_skip.
Qed.

(** X6.  [lex] loses nothing of a line: when every match is the text
    found at the index, as the match of a pattern is, the texts of the
    tokens of a line, one after the other, are the line, and every token
    stands at the column where its text starts. *)
Theorem lex_line_text :
  ∀ (fuel : nat) (terminals : list Terminal) (str : string) (l : nat)
    (out : list LexTree),
    Forall (λ t, ttype t ≠ "$") terminals →
    (∀ t, t ∈ terminals → found_at (pattern t) str) →
    Lexer.lex fuel terminals [Lexer.unknown str l] = Ok out →
    joined (match0 <$> out) = str
    ∧ ∀ pre t post,
        out = pre ++ t :: post →
        index t = String.length (joined (match0 <$> pre)) ∧ line t = l.
Proof.
  intros fuel terminals str l out Hno Hfound. unfold Lexer.lex.
  rewrite foldM_cons, decide_True by done.
  destruct (Lexer.lex_line fuel terminals (Lexer.unknown str l) 0 [])
    as [r| |] eqn:Hline; simpl; [|done..].
  intros [= <-].
  apply (lex_line_tiles terminals (Lexer.unknown str l) Hno Hfound) in Hline
    as (tokens & -> & Hjoin & Hpos).
  split; [exact Hjoin|]. intros pre t post Heq.
  destruct (Hpos pre t post Heq) as [Hp Hl]. split; [|done].
  rewrite Hp. simpl. lia.
Qed.

Lemma lex_line_text_witness :
  joined (match0 <$> [mkLex "a" ("a", []) 0 0; mkLex "a" ("a", []) 1 0]) = "aa".
Proof.
  refine (proj1 (lex_line_text 5 [term_a] "aa" 0 _ _ _ _)).
  - repeat constructor. discriminate.
  - intros t ->%list_elem_of_singleton. apply literal_found_at.
  - vm_compute. reflexivity.
Defined.

(** ** [lex] on one line: the end *)

Lemma lex_line_ends terminals token :
  (∀ t i m, t ∈ terminals → pattern t (match0 token) i = Some m →
            0 < String.length m.1) →
  ∀ fuel i output,
    String.length (match0 token) - i < fuel →
    Lexer.lex_line fuel terminals token i output ≠ Timeout.
Proof.
  intros Hwide. induction fuel as [|fuel IH]; intros i output Hfuel; [lia|].
  simpl. unfold Lexer.next. case_decide as Hi; simpl; [done|].
  destruct (Lexer.next_scan _ _ _ _) as [lexToken| |] eqn:Hscan; simpl.
  - case_decide; [done|].
    apply next_scan_match in Hscan as (_ & _ & t & Hin & _ & Hm).
    specialize (Hwide t i _ Hin Hm). unfold match0 in *.
    apply IH. lia.
  - done.
  - exfalso. clear -Hscan.
    induction terminals as [|t ts IHt]; simpl in Hscan; [done|].
    destruct (pattern t (match0 token) i); [done | auto].
Qed.

(** X7.  When no pattern matches the empty text, [lex] comes to an end on
    every list of tokens, with the tokens or with the error of [next]: a
    line needs no more turns of the loop than it has characters, and one
    for the end marker. *)
Theorem lex_ends :
  ∀ (fuel : nat) (terminals : list Terminal) (tokens : list LexTree),
    (∀ t token i m,
       t ∈ terminals → token ∈ tokens →
       pattern t (match0 token) i = Some m → 0 < String.length m.1) →
    (∀ token, token ∈ tokens → String.length (match0 token) < fuel) →
    Lexer.lex fuel terminals tokens ≠ Timeout.
Proof.
  intros fuel terminals tokens Hwide Hfuel. unfold Lexer.lex.
  destruct (foldM_outcome (λ _, True) (λ _, True)
              (λ output token,
                 if decide (type token = "unknown")
                 then Lexer.lex_line fuel terminals token 0 output
                 else Ok (output ++ [token]))
              tokens []) as [(r & -> & _)|(e & -> & _)]; [done| |done..].
  intros output token Hin _. case_decide; [|by left; eauto].
  pose proof (lex_line_ends terminals token
                (λ t i m Ht, Hwide t token i m Ht Hin) fuel 0 output) as Hend.
  destruct (Lexer.lex_line fuel terminals token 0 output) as [r|e|];
    [by left; eauto | by right; eauto|].
  destruct Hend; [|done]. specialize (Hfuel token Hin). lia.
Qed.

Lemma lex_ends_witness :
  Lexer.lex 3 [term_a] [Lexer.unknown "ab" 0] ≠ Timeout.
Proof.
  apply lex_ends.
  - intros t token i m ->%list_elem_of_singleton _. simpl.
    unfold Parser.literal. case_decide; [|done]. intros [= <-]. simpl. lia.
  - intros token ->%list_elem_of_singleton. simpl. lia.
Defined.

(** ** The earlier lexer and the later one *)

(** X8.  On one line the earlier [lex], which takes the text, gives what
    the later [lex] gives on the line token of the text, with the end
    marker added to the tokens and its own error in the place of the
    [ParseError]. *)
Theorem text_lex_line :
  ∀ (fuel : nat) (terminals : list Terminal) (input : string) (l : nat),
    Forall (λ t, ttype t ≠ "$") terminals →
    TextLexer.lex fuel terminals input 0 l =
      match Lexer.lex fuel terminals [Lexer.unknown input l] with
      | Ok r => Ok (r ++ [text_end input l])
      | Throw e => Throw (text_error e)
      | Timeout => Timeout
      end.
Proof.
  intros fuel terminals input l Hno. unfold TextLexer.lex, Lexer.lex.
  rewrite foldM_cons, decide_True by done.
  rewrite (text_lex_loop_line terminals input [] l Hno).
  unfold Lexer.unknown.
  by destruct (Lexer.lex_line fuel terminals _ 0 []).
Qed.

Lemma text_lex_line_witness :
  TextLexer.lex 3 [term_a] "a" 0 0 =
    match Lexer.lex 3 [term_a] [Lexer.unknown "a" 0] with
    | Ok r => Ok (r ++ [text_end "a" 0])
    | Throw e => Throw (text_error e)
    | Timeout => Timeout
    end.
Proof. apply text_lex_line. repeat constructor. discriminate. Defined.

(** ** [lexOffside] of the earlier lexer and [splitOffside] then [lex] *)

(** The body of the loop of [lex]. *)
Definition lex_step (fuel : nat) (terminals : list Terminal)
    (output : list LexTree) (token : LexTree) : outcome (list LexTree) :=
  if decide (type token = "unknown")
  then Lexer.lex_line fuel terminals token 0 output
  else Ok (output ++ [token]).

(** The result of the later lexer as the earlier one reports it. *)
Definition as_text {A} (m : outcome A) : outcome A :=
  match m with
  | Ok r => Ok r
  | Throw e => Throw (text_error e)
  | Timeout => Timeout
  end.

(** The end marker kept aside after the lines [ls], the first of which has
    the number [i]. *)
Definition term_after (ls : list string) (i : nat) (term : option LexTree)
    : option LexTree :=
  match last ls with
  | Some str => Some (text_end str (i + length ls - 1))
  | None => term
  end.

Lemma term_after_cons str ls i term :
  term_after (str :: ls) i term = term_after ls (S i) (Some (text_end str i)).
Proof.
  unfold term_after. destruct ls as [|s ls].
  - simpl. do 2 f_equal. lia.
  - change (last (str :: s :: ls)) with (last (s :: ls)).
    destruct (last (s :: ls)) eqn:Hl; [|by apply last_None in Hl].
    do 2 f_equal. simpl. lia.
Qed.

Lemma offside_pop_output c i level : ∀ output,
  Lexer.offside_pop c i output level =
    (output ++ (Lexer.offside_pop c i [] level).1, (Lexer.offside_pop c i [] level).2).
Proof.
  induction level as [|top level IH]; intros output; simpl.
  - by rewrite app_nil_r.
  - case_decide; [|by rewrite app_nil_r].
    rewrite (IH (output ++ _)), (IH [_]). simpl. by rewrite <- app_assoc.
Qed.

Lemma offside_pop_markers c i level :
  Forall (λ t, type t ≠ "unknown") (Lexer.offside_pop c i [] level).1.
Proof.
  induction level as [|top level IH]; simpl; [constructor|].
  case_decide; [|constructor].
  rewrite offside_pop_output. simpl. by constructor.
Qed.

Lemma lex_step_known fuel terminals tokens : ∀ output,
  Forall (λ t, type t ≠ "unknown") tokens →
  foldM (lex_step fuel terminals) output tokens = Ok (output ++ tokens).
Proof.
  induction tokens as [|t tokens IH]; intros output Hall.
  - by rewrite app_nil_r.
  - apply Forall_cons in Hall as [Ht Hall].
    rewrite foldM_cons. unfold lex_step at 2. rewrite decide_False by done.
    simpl. rewrite IH by done. by rewrite <- app_assoc.
Qed.

Lemma removelast_snoc {A} (l : list A) x : removelast (l ++ [x]) = l.
Proof.
  induction l as [|y l IH]; [done|].
  simpl. destruct (l ++ [x]) eqn:Hl; [by destruct l|]. by rewrite IH.
Qed.

(** One line: the offside rule of the later lexer, when it goes through,
    puts the markers [M] and the line token after the output, and the
    earlier lexer puts the same markers and the tokens of the line. *)
Lemma lexOffside_line_split fuel terminals o lv i str o' lv' :
  Forall (λ t, ttype t ≠ "$") terminals →
  Lexer.offside_line (o, lv) (i, str) = Ok (o', lv') →
  ∃ M,
    o' = o ++ M ++ [Lexer.unknown str i]
    ∧ Forall (λ t, type t ≠ "unknown") M
    ∧ ∀ acc term,
        TextLexer.lexOffside_line fuel terminals (acc, lv, term) (i, str) =
          as_text (r ← Lexer.lex_line fuel terminals (Lexer.unknown str i) 0 [];
                   Ok (acc ++ M ++ r, lv', Some (text_end str i))).
Proof.
  intros Hno. unfold Lexer.offside_line, TextLexer.lexOffside_line.
  assert (Hlex : ∀ (out : list LexTree) (lvl : list nat),
            (tokens ← TextLexer.lex fuel terminals str 0 i;
             Ok (out ++ removelast tokens, lvl, last tokens)) =
            as_text (r ← Lexer.lex_line fuel terminals (Lexer.unknown str i) 0 [];
                     Ok (out ++ r, lvl, Some (text_end str i)))).
  { intros out lvl. unfold TextLexer.lex.
    rewrite (text_lex_loop_line terminals str [] i Hno). unfold Lexer.unknown.
    destruct (Lexer.lex_line fuel terminals _ 0 []) as [r| |]; simpl; [|done..].
    by rewrite removelast_snoc, last_snoc. }
  destruct (Lexer.first_nonspace str 0) as [c|]; simpl.
  - destruct (Lexer.above_top c lv); simpl.
    + intros [= <- <-]. exists [mkLex "indent" ("", []) c i].
      split; [by rewrite <- app_assoc|]. split; [by repeat constructor|].
      intros acc term. rewrite Hlex.
      destruct (Lexer.lex_line _ _ _ _ _); simpl; [by rewrite <- app_assoc | done..].
    + rewrite (offside_pop_output c i lv o).
      destruct (Lexer.offside_pop c i [] lv) as [D lv1] eqn:Hpop. simpl.
      case_decide; [|done]. simpl. intros [= <- <-]. exists D.
      split; [by rewrite <- app_assoc|]. split.
      { pose proof (offside_pop_markers c i lv) as HD. by rewrite Hpop in HD. }
      intros acc term. rewrite (offside_pop_output c i lv acc), Hpop. simpl.
      rewrite Hlex.
      destruct (Lexer.lex_line _ _ _ _ _); simpl; [by rewrite <- app_assoc | done..].
  - intros [= <- <-]. exists []. split; [done|]. split; [constructor|].
    intros acc term. rewrite Hlex. done.
Qed.

Lemma lexOffside_lines fuel terminals :
  Forall (λ t, ttype t ≠ "$") terminals →
  ∀ ls i lv o o' lv',
    foldM Lexer.offside_line (o, lv) (imap (λ j, pair (i + j)) ls) = Ok (o', lv') →
    ∃ T,
      o' = o ++ T
      ∧ ∀ acc term,
          foldM (TextLexer.lexOffside_line fuel terminals) (acc, lv, term)
                (imap (λ j, pair (i + j)) ls) =
            as_text (r ← foldM (lex_step fuel terminals) acc T;
                     Ok (r, lv', term_after ls i term)).
Proof.
  intros Hno. induction ls as [|str ls IH]; intros i lv o o' lv'.
  - simpl. intros [= <- <-]. exists []. split; [by rewrite app_nil_r | done].
  - intros Hrest. rewrite imap_cons, foldM_cons, Nat.add_0_r in Hrest.
    destruct (Lexer.offside_line (o, lv) (i, str)) as [[o1 lv1]| |] eqn:Hline;
      simpl in Hrest; [|done..].
    rewrite (imap_ext _ (λ j, pair (S i + j))) in Hrest
      by (intros; simpl; f_equal; lia).
    destruct (lexOffside_line_split fuel terminals _ _ _ _ _ _ Hno Hline)
      as (M & -> & HM & Hold).
    destruct (IH _ _ _ _ _ Hrest) as (T & -> & Hrec).
    exists (M ++ [Lexer.unknown str i] ++ T).
    split; [by rewrite <- !app_assoc|].
    intros acc term. rewrite imap_cons, foldM_cons, Nat.add_0_r, Hold.
    rewrite (imap_ext _ (λ j, pair (S i + j)))
      by (intros; simpl; f_equal; lia).
    rewrite foldM_app, (lex_step_known _ _ M) by done. simpl.
    change (lex_step fuel terminals (acc ++ M) (Lexer.unknown str i))
      with (Lexer.lex_line fuel terminals (Lexer.unknown str i) 0 (acc ++ M)).
    rewrite <- (app_nil_r (acc ++ M)) at 1. rewrite lex_line_output.
    destruct (Lexer.lex_line fuel terminals (Lexer.unknown str i) 0 [])
      as [r| |]; simpl; [|done..].
    change (imap (λ j, pair (S (i + j))) ls) with (imap (λ j, pair (S i + j)) ls).
    rewrite Hrec. rewrite app_assoc.
    destruct (foldM (lex_step fuel terminals) ((acc ++ M) ++ r) T); simpl; [|done..].
    by rewrite term_after_cons.
Qed.

Lemma lexOffside_close_output t level : ∀ output,
  TextLexer.lexOffside_close t output level =
    output ++ TextLexer.lexOffside_close t [] level.
Proof.
  induction level as [|top level IH]; intros output; simpl.
  - by rewrite app_nil_r.
  - case_decide; [|by rewrite app_nil_r].
    rewrite (IH (output ++ _)), (IH [_]). simpl. by rewrite <- app_assoc.
Qed.

Lemma lexOffside_close_markers t level :
  Forall (λ t, type t ≠ "unknown") (TextLexer.lexOffside_close t [] level).
Proof.
  induction level as [|top level IH]; simpl; [constructor|].
  case_decide; [|constructor].
  rewrite lexOffside_close_output. simpl. by constructor.
Qed.

Lemma offside_close_text lines str level : ∀ output,
  last lines = Some str →
  Lexer.offside_close lines output level =
    Ok (TextLexer.lexOffside_close (text_end str (length lines - 1)) output level).
Proof.
  induction level as [|top level IH]; intros output Hlast; simpl; [done|].
  case_decide; [|done].
  unfold Lexer.marker. rewrite Hlast. simpl. by apply IH.
Qed.

(** X9.  When the indentation of a text is right for [splitOffside], the
    earlier [lexOffside] on the text gives what the later lexer gives with
    [splitOffside] followed by [lex]: the same tokens, or the error of the
    first line that cannot be lexed, written the earlier way. *)
Theorem lexOffside_splitOffside :
  ∀ (fuel : nat) (terminals : list Terminal) (input : string)
    (tokens : list LexTree),
    Forall (λ t, ttype t ≠ "$") terminals →
    Lexer.splitOffside input None = Ok tokens →
    TextLexer.lexOffside fuel terminals input =
      as_text (Lexer.lex fuel terminals tokens).
Proof.
  intros fuel terminals input tokens Hno.
  unfold Lexer.splitOffside, TextLexer.lexOffside. rewrite kept_lines_None.
  pose proof (split_lines_nonempty input "") as Hne.
  destruct (last (Lexer.split_lines input "")) as [str|] eqn:Hlast.
  2:{ by apply last_None in Hlast. }
  intros ([o level] & Hlines & Hrest)%bind_Ok.
  destruct (lexOffside_lines fuel terminals Hno _ 0 _ _ _ _ Hlines)
    as (T & HT & Hold).
  simpl in HT. subst o.
  change (imap (λ j, pair (0 + j)) ?l) with (imap pair l) in Hold.
  rewrite Hold.
  rewrite (offside_close_text _ _ _ _ Hlast) in Hrest. simpl in Hrest.
  unfold Lexer.marker in Hrest. rewrite Hlast in Hrest. simpl in Hrest.
  injection Hrest as <-.
  rewrite lexOffside_close_output, <- app_assoc.
  unfold Lexer.lex. fold (lex_step fuel terminals).
  rewrite foldM_app.
  destruct (foldM (lex_step fuel terminals) [] T) as [r| |]; simpl; [|done..].
  unfold term_after. rewrite Hlast. simpl.
  rewrite lex_step_known.
  - by rewrite lexOffside_close_output, <- app_assoc.
  - apply Forall_app. split; [apply lexOffside_close_markers|].
    by repeat constructor.
Qed.

Lemma lexOffside_splitOffside_witness :
  TextLexer.lexOffside 3 [term_a] ("a" +:+ newline +:+ " a") =
    as_text
      (Lexer.lex 3 [term_a]
         [Lexer.unknown "a" 0; mkLex "indent" ("", []) 1 1; Lexer.unknown " a" 1;
          mkLex "dedent" ("", []) 2 1; mkLex "$" ("", []) 2 1]).
Proof.
  apply lexOffside_splitOffside.
  - repeat constructor. discriminate.
  - vm_compute. reflexivity.
Defined.

(** * The parse runtime: the leaves of the tree *)

(** The leaves of a tree, from left to right. *)
Fixpoint leaves (tree : Tree) : list LexTree :=
  match tree with
  | Leaf t => [t]
  | Node _ children =>
      (fix go (l : list Tree) : list LexTree :=
         match l with
         | [] => []
         | c :: rest => leaves c ++ go rest
         end) children
  end.

(** The leaves of the trees of a stack, bottom first. *)
Definition stack_leaves (stack : list Tree) : list LexTree :=
  stack ≫= leaves.

Lemma leaves_Node k children : leaves (Node k children) = stack_leaves children.
Proof.
  unfold stack_leaves. simpl.
  induction children as [|c rest IH]; [done|]. by rewrite bind_cons, IH.
Qed.

Lemma stack_leaves_app s1 s2 : stack_leaves (s1 ++ s2) = stack_leaves s1 ++ stack_leaves s2.
Proof. apply bind_app. Qed.

Lemma stack_leaves_reduce symbols popped k :
  stack_leaves (symbols ++ [Node k popped]) = stack_leaves (symbols ++ popped).
Proof.
  rewrite !stack_leaves_app. f_equal.
  change (stack_leaves [Node k popped]) with (leaves (Node k popped) ++ []).
  rewrite app_nil_r. apply leaves_Node.
Qed.

Lemma stack_leaves_shift symbols token :
  stack_leaves (symbols ++ [Leaf token]) = stack_leaves symbols ++ [token].
Proof. rewrite stack_leaves_app. done. Qed.

(** What the body of the loop does to the symbol stack and to the place
    in the tokens. *)
Lemma parse_action_cursor actionTable st token st' :
  parse_action actionTable st token = Ok (inl st') →
  let moved := if lexToken st is Some _ then pi st else pi st + 1 in
  (type token = "whitespace"
   ∧ symbolStack st' = symbolStack st ∧ lexToken st' = None ∧ pi st' = moved)
  ∨ (type token ≠ "whitespace"
     ∧ symbolStack st' = symbolStack st ++ [Leaf token]
     ∧ lexToken st' = None ∧ pi st' = moved)
  ∨ (∃ symbols popped k,
       type token ≠ "whitespace"
       ∧ symbolStack st = symbols ++ popped
       ∧ symbolStack st' = symbols ++ [Node k popped]
       ∧ lexToken st' = lexToken st ∧ pi st' = pi st).
Proof.
  unfold parse_action. case_decide as Hws.
  { intros [= <-]. by left. }
  destruct (current_row actionTable (stateStack st)) as [row|]; [|done].
  destruct (row !! type token) as [[goto cameFrom|k rule|k]|]; [| |done..].
  - intros (st1 & Hpush & [= <-])%bind_Ok.
    apply push_goto_stacks in Hpush as (Hs & _ & _ & Hl & _ & Hp).
    right; left. by rewrite Hs, Hl, Hp.
  - destruct (last (readStack st)) as [top|]; [|done].
    pose proof (splice_last_app (read_count top rule) (symbolStack st)) as Happ.
    destruct (splice_last (read_count top rule) (symbolStack st))
      as [symbols popped].
    destruct (current_row actionTable _) as [row'|]; [|done].
    destruct (row' !! k) as [[goto cameFrom|?|?]|]; [|done..].
    intros (st1 & Hpush & [= <-])%bind_Ok.
    apply push_goto_stacks in Hpush as (Hs & _ & _ & Hl & _ & Hp).
    right; right. exists symbols, popped, k. by rewrite Hs, Hl, Hp.
Qed.

(** The turn of the loop that returns: the token met an accept action, and
    the tree holds the symbol stack. *)
Lemma parse_step_accept actionTable lexer tokens st tree :
  parse_step actionTable lexer tokens st = Ok (inr tree) →
  ∃ row token k,
    current_row actionTable (stateStack st) = Some row
    ∧ row !! type token = Some (accept k)
    ∧ type token ≠ "whitespace"
    ∧ (lexToken st = None →
       ∀ t0, tokens !! pi st = Some t0 → type t0 ≠ "unknown" → token = t0)
    ∧ tree = Node k (symbolStack st).
Proof.
  assert (Hact : ∀ st0 token,
            parse_action actionTable st0 token = Ok (inr tree) →
            ∃ row k,
              current_row actionTable (stateStack st0) = Some row
              ∧ row !! type token = Some (accept k)
              ∧ type token ≠ "whitespace"
              ∧ tree = Node k (symbolStack st0)).
  { intros st0 token. unfold parse_action. case_decide; [done|].
    destruct (current_row actionTable (stateStack st0)) as [row|]; [|done].
    destruct (row !! type token) as [[goto cameFrom|k rule|k]|] eqn:Hrow; [| | |done].
    - by intros (? & _ & [=])%bind_Ok.
    - destruct (last (readStack st0)); [|done].
      destruct (splice_last _ (symbolStack st0)).
      destruct (current_row _ _); [|done].
      destruct (_ !! k) as [[]|]; try done.
      by intros (? & _ & [=])%bind_Ok.
    - intros [= <-]. by exists row, k. }
  unfold parse_step. destruct (lexToken st) as [token|] eqn:Hlex.
  - intros (row & k & ? & ? & ? & ?)%Hact. by exists row, token, k.
  - destruct (tokens !! pi st) as [token|] eqn:Htok; [|done].
    case_decide as Hunk.
    + intros (lexed & Hnext & Hrest)%bind_Ok. case_decide; [done|].
      apply Hact in Hrest as (row & k & ? & ? & ? & ?). simpl in *.
      exists row, lexed, k. repeat split; try done.
      intros _ t0 [= <-] Hne. done.
    + intros (row & k & ? & ? & ? & ?)%Hact. exists row, token, k.
      repeat split; try done. by intros _ t0 [= <-] _.
Qed.

Lemma parse_loop_accept actionTable lexer tokens fuel : ∀ st tree,
  reachable actionTable lexer tokens st →
  parse_loop fuel actionTable lexer tokens st = Ok tree →
  ∃ st', reachable actionTable lexer tokens st'
         ∧ parse_step actionTable lexer tokens st' = Ok (inr tree).
Proof.
  induction fuel as [|fuel IH]; intros st tree Hreach; simpl; [done|].
  destruct (parse_step actionTable lexer tokens st) as [[st'|t]| |] eqn:Hstep;
    simpl; [| |done..].
  - apply IH. by eapply reach_step.
  - intros [= <-]. by exists st.
Qed.

Lemma reachable_no_whitespace actionTable lexer tokens st :
  reachable actionTable lexer tokens st →
  Forall (λ t, type t ≠ "whitespace") (stack_leaves (symbolStack st)).
Proof.
  induction 1 as [|st st' _ IH Hstep]; [constructor|].
  apply parse_step_action in Hstep
    as [(st1 & [= <-] & Hs & _)|(st0 & token & Hact & Hs & _)].
  { by rewrite Hs. }
  rewrite <- Hs in IH.
  apply parse_action_cursor in Hact
    as [(_ & Hs' & _)|[(Hws & Hs' & _)|(symbols & popped & k & _ & Hs0 & Hs' & _)]].
  - by rewrite Hs'.
  - rewrite Hs', stack_leaves_shift. apply Forall_app. split; [done|].
    by constructor.
  - rewrite Hs', stack_leaves_reduce. by rewrite <- Hs0.
Qed.

(** X10.  No white space comes into the tree: whatever the table, the
    lexer and the tokens, no leaf of the tree that [parse] returns is a
    token of type "whitespace". *)
Theorem parse_no_whitespace :
  ∀ (fuel : nat) (actionTable : ActionTable) (lexer : list Terminal)
    (tokens : list LexTree) (tree : Tree),
    parse fuel actionTable lexer tokens = Ok tree →
    Forall (λ t, type t ≠ "whitespace") (leaves tree).
Proof.
  intros fuel actionTable lexer tokens tree Hparse.
  apply parse_loop_accept in Hparse as (st & Hreach & Hstep); [|apply reach_init].
  apply parse_step_accept in Hstep as (row & token & k & _ & _ & _ & _ & ->).
  rewrite leaves_Node. by eapply reachable_no_whitespace.
Qed.

(** The brackets of the list grammar with white space between them, lexed
    beforehand. *)
Definition bracket_tokens : list LexTree :=
  [mkLex "[" ("[", []) 0 0; mkLex "whitespace" (" ", []) 1 0;
   mkLex "]" ("]", []) 2 0; mkLex "$" ("", []) 3 0].

Lemma parse_no_whitespace_witness :
  Forall (λ t, type t ≠ "whitespace")
    (leaves (Node "list" [Leaf (mkLex "[" ("[", []) 0 0);
                          Leaf (mkLex "]" ("]", []) 2 0)])).
Proof.
  apply (parse_no_whitespace 50 list_table [] bracket_tokens).
  vm_compute. reflexivity.
Defined.

Lemma take_S_lookup {A} (l : list A) n x :
  l !! n = Some x → take (S n) l = take n l ++ [x].
Proof. intros Hx. by apply take_S_r. Qed.

Lemma reachable_known_leaves actionTable lexer tokens st :
  Forall (λ t, type t ≠ "unknown") tokens →
  reachable actionTable lexer tokens st →
  lexToken st = None
  ∧ stack_leaves (symbolStack st) =
      filter (λ t, type t ≠ "whitespace") (take (pi st) tokens).
Proof.
  intros Hknown. induction 1 as [|st st' _ [Hlex IH] Hstep]; [done|].
  unfold parse_step in Hstep. rewrite Hlex in Hstep.
  destruct (tokens !! pi st) as [token|] eqn:Htok; [|done].
  assert (Hunk : type token ≠ "unknown").
  { rewrite Forall_forall in Hknown. apply Hknown.
    by eapply list_elem_of_lookup_2. }
  rewrite decide_False in Hstep by done.
  apply parse_action_cursor in Hstep
    as [(Hws & Hs' & Hl' & Hp')
       |[(Hws & Hs' & Hl' & Hp')
        |(symbols & popped & k & _ & Hs0 & Hs' & Hl' & Hp')]];
    rewrite Hlex in *.
  - split; [done|]. rewrite Hs', Hp', IH.
    replace (pi st + 1) with (S (pi st)) by lia.
    rewrite (take_S_lookup _ _ _ Htok), filter_app, filter_cons.
    rewrite decide_False by (intros Hn; by apply Hn).
    by rewrite filter_nil, app_nil_r.
  - split; [done|]. rewrite Hs', Hp', stack_leaves_shift, IH.
    replace (pi st + 1) with (S (pi st)) by lia.
    rewrite (take_S_lookup _ _ _ Htok), filter_app, filter_cons.
    by rewrite decide_True, filter_nil.
  - split; [done|]. rewrite Hs', Hp', stack_leaves_reduce, <- Hs0. exact IH.
Qed.

(** X11.  On tokens lexed beforehand [parse] loses no token and keeps
    their order: the leaves of the tree it returns, from left to right, are
    the tokens that stand before the token on which it accepted, those of
    type "whitespace" left out. *)
Theorem parse_leaves :
  ∀ (fuel : nat) (actionTable : ActionTable) (lexer : list Terminal)
    (tokens : list LexTree) (tree : Tree),
    Forall (λ t, type t ≠ "unknown") tokens →
    parse fuel actionTable lexer tokens = Ok tree →
    ∃ n token s (row : Row) k,
      tokens !! n = Some token
      ∧ actionTable !! s = Some row
      ∧ row !! type token = Some (accept k)
      ∧ tree_type tree = k
      ∧ leaves tree = filter (λ t, type t ≠ "whitespace") (take n tokens).
Proof.
  intros fuel actionTable lexer tokens tree Hknown Hparse.
  apply parse_loop_accept in Hparse as (st & Hreach & Hstep); [|apply reach_init].
  destruct (reachable_known_leaves _ _ _ _ Hknown Hreach) as [Hlex Hleaves].
  pose proof Hstep as Hstep'.
  apply parse_step_accept in Hstep as (row & token & k & Hrow & Hacc & _ & Htok & ->).
  apply current_row_Some in Hrow as (s & _ & Hrow).
  unfold parse_step in Hstep'. rewrite Hlex in Hstep'.
  destruct (tokens !! pi st) as [t0|] eqn:Ht0; [|done].
  assert (Hunk : type t0 ≠ "unknown").
  { rewrite Forall_forall in Hknown. apply Hknown.
    by eapply list_elem_of_lookup_2. }
  rewrite (Htok Hlex t0 eq_refl Hunk) in Hacc.
  exists (pi st), t0, s, row, k. rewrite leaves_Node. done.
Qed.

Lemma parse_leaves_witness :
  ∃ n token s (row : Row) k,
    bracket_tokens !! n = Some token
    ∧ list_table !! s = Some row
    ∧ row !! type token = Some (accept k)
    ∧ tree_type (Node "list" [Leaf (mkLex "[" ("[", []) 0 0);
                              Leaf (mkLex "]" ("]", []) 2 0)]) = k
    ∧ leaves (Node "list" [Leaf (mkLex "[" ("[", []) 0 0);
                           Leaf (mkLex "]" ("]", []) 2 0)]) =
        filter (λ t, type t ≠ "whitespace") (take n bracket_tokens).
Proof.
  apply (parse_leaves 50 list_table []).
  - repeat constructor; discriminate.
  - vm_compute. reflexivity.
Defined.

(** X12.  With a table that the constructor built, the tree that [parse]
    returns is a node of the start symbol. *)
Theorem parse_root_start :
  ∀ (fuel fuel' : nat) (rules : RuleSet) (start : string)
    (actionTable : ActionTable) (lexer : list Terminal) (tokens : list LexTree)
    (tree : Tree),
    Parser.new fuel rules start = Ok actionTable →
    parse fuel' actionTable lexer tokens = Ok tree →
    ∃ children, tree = Node start children.
Proof.
  intros fuel fuel' rules start actionTable lexer tokens tree Hnew Hparse.
  apply Parser_new_Ok in Hnew as [_ [states Hbuilt]].
  apply buildTable_states_sound in Hbuilt as (_ & Hsound & _).
  apply parse_loop_accept in Hparse as (st & Hreach & Hstep); [|apply reach_init].
  apply parse_step_accept in Hstep as (row & token & k & Hrow & Hacc & _ & _ & ->).
  apply current_row_Some in Hrow as (s & _ & Hrow).
  destruct (Hsound s row Hrow _ _ Hacc) as (st0 & j & it & _ & _ & -> & _).
  by eexists.
Qed.

Lemma parse_root_start_witness :
  ∃ children,
    Node "list" [leaf "[" 0; leaf "]" 1] = Node "list" children.
Proof.
  apply (parse_root_start 50 50 list_rules "list" list_table list_lexer
           [Lexer.unknown "[]" 0; mkLex "$" ("", []) 2 0]).
  - vm_compute. reflexivity.
  - vm_compute. reflexivity.
Defined.

(** * The terminals of a rule set *)

(** The elements of the rules, in the order of the three loops. *)
Definition elements (rules : RuleSet) : list string :=
  '(_, rs) ← rules; rule ← rs; rule.

Lemma foldl_elements {A} (f : A → string → A) (rules : RuleSet) : ∀ a,
  foldl (λ acc '(_, rs), foldl (foldl f) acc rs) a rules =
    foldl f a (elements rules).
Proof.
  unfold elements. induction rules as [|[k rs] rules IH]; intros a; [done|].
  cbn [foldl]. rewrite bind_cons, foldl_app, <- IH. f_equal.
  clear. revert a. induction rs as [|rule rs IHr]; intros a; [done|].
  cbn [foldl]. by rewrite bind_cons, foldl_app, <- IHr.
Qed.

Lemma symbols_elements rules : symbols rules = base <$> elements rules.
Proof.
  unfold symbols, elements. induction rules as [|[k rs] rules IH]; [done|].
  rewrite !bind_cons, fmap_app, IH. f_equal.
  clear. induction rs as [|rule rs IHr]; [done|].
  by rewrite !bind_cons, fmap_app, IHr.
Qed.

(** A terminal made from an element of a rule: its type is a symbol of the
    rules that is neither a key nor the type of a terminal given, and its
    pattern finds this very text. *)
Definition promoted_from (rules : RuleSet) (given : list Terminal) (t : Terminal)
    : Prop :=
  t = mkTerminal (ttype t) (Parser.literal (ttype t))
  ∧ ttype t ∈ symbols rules
  ∧ hasOwn rules (ttype t) = false
  ∧ ttype t ∉ ttype <$> given.

Lemma Set_new_elem l x : x ∈ Set_new l ↔ x ∈ l.
Proof.
  unfold Set_new. rewrite foldl_set_add_elem, elem_of_nil. tauto.
Qed.

Lemma terminals_loop rules given l : ∀ S R,
  (∀ x, x ∈ S ↔ x ∈ ttype <$> given ∨ x ∈ ttype <$> R) →
  Forall (promoted_from rules given) R → NoDup (ttype <$> R) →
  (∀ e, e ∈ l → base e ∈ symbols rules) →
  ∃ S' R',
    foldl (Parser.terminals_el rules) (S, R) l = (S', R')
    ∧ (∀ x, x ∈ S' ↔ x ∈ ttype <$> given ∨ x ∈ ttype <$> R')
    ∧ Forall (promoted_from rules given) R' ∧ NoDup (ttype <$> R')
    ∧ (∀ x, x ∈ S → x ∈ S')
    ∧ (∀ e, e ∈ l → hasOwn rules (base e) = true ∨ base e ∈ S').
Proof.
  induction l as [|e l IH]; intros S R HS HR Hnd Hsym.
  - exists S, R. repeat split; try done; [apply HS | apply HS |].
    by intros e ?%elem_of_nil.
  - cbn [foldl]. unfold Parser.terminals_el at 2.
    destruct (negb (hasOwn rules (base e)) && bool_decide (base e ∉ S)) eqn:Hnew.
    + apply andb_true_iff in Hnew as [Hkey Hin].
      apply negb_true_iff in Hkey. apply bool_decide_eq_true in Hin.
      destruct (IH (S ++ [base e]) (R ++ [mkTerminal (base e) (Parser.literal (base e))]))
        as (S' & R' & Hrun & HS' & HR' & Hnd' & Hsub & Hcov).
      * intros x. rewrite elem_of_app, list_elem_of_singleton, HS, fmap_app, elem_of_app.
        simpl. rewrite list_elem_of_singleton. tauto.
      * apply Forall_app. split; [done|]. constructor; [|done].
        split; [done|]. split; [apply Hsym; by left|]. split; [done|].
        simpl. intros Hg. apply Hin, HS. by left.
      * rewrite fmap_app. apply NoDup_app. split; [done|].
        split; [|apply NoDup_singleton].
        intros x Hx ->%list_elem_of_singleton. apply Hin, HS. by right.
      * intros e' He'. apply Hsym. by right.
      * exists S', R'. split; [done|]. repeat split; try done; try apply HS'.
        -- intros x Hx. apply Hsub, elem_of_app. by left.
        -- intros e' [->|He']%elem_of_cons; [|by apply Hcov].
           right. apply Hsub, elem_of_app. right. by left.
    + destruct (IH S R HS HR Hnd) as (S' & R' & Hrun & HS' & HR' & Hnd' & Hsub & Hcov).
      { intros e' He'. apply Hsym. by right. }
      exists S', R'. split; [done|]. repeat split; try done; try apply HS'.
      intros e' [->|He']%elem_of_cons; [|by apply Hcov].
      apply andb_false_iff in Hnew as [Hkey|Hin].
      * left. by apply negb_false_iff in Hkey.
      * right. apply Hsub. apply bool_decide_eq_false in Hin.
        by destruct (decide (base e ∈ S)).
Qed.

(** X13.  [Parser.terminals] puts the terminals it makes before the ones
    it was given, which it keeps in their order.  A terminal it makes has
    the literal pattern of a symbol of the rules that is neither a key nor
    a type given; no two of them have the same type; and with them every
    symbol of the rules is a key of the rule set or the type of a
    terminal. *)
Theorem terminals_promoted :
  ∀ (rules : RuleSet) (given : list Terminal),
    ∃ promoted,
      Parser.terminals rules given = promoted ++ given
      ∧ Forall (promoted_from rules given) promoted
      ∧ NoDup (ttype <$> promoted)
      ∧ ∀ e, e ∈ symbols rules →
             hasOwn rules e = true
             ∨ e ∈ ttype <$> Parser.terminals rules given.
Proof.
  intros rules given. unfold Parser.terminals. rewrite foldl_elements.
  destruct (terminals_loop rules given (elements rules)
              (Set_new (ttype <$> given)) [])
    as (S' & R' & Hrun & HS' & HR' & Hnd' & _ & Hcov).
  - intros x. rewrite Set_new_elem, elem_of_nil. tauto.
  - constructor.
  - constructor.
  - intros e He. rewrite symbols_elements. by apply list_elem_of_fmap_2.
  - rewrite Hrun. exists R'. split; [done|]. split; [done|]. split; [done|].
    intros e. rewrite symbols_elements.
    intros (e0 & -> & He0)%list_elem_of_fmap.
    destruct (Hcov e0 He0) as [?|Hin]; [by left|]. right.
    rewrite fmap_app, elem_of_app. apply HS' in Hin. tauto.
Qed.

(** * Closure and goto *)

Lemma push_new_prefix ruleSet nextRule : ruleSet `prefix_of` push_new ruleSet nextRule.
Proof. unfold push_new. case_decide; [done | by apply prefix_app_r]. Qed.

Lemma closure_expand_prefix rules ruleSet rule :
  ruleSet `prefix_of` closure_expand rules ruleSet rule.
Proof.
  unfold closure_expand.
  destruct (children rule !! dot rule) as [e|]; [|done].
  destruct (rules_get rules (base e)) as [rs|]; [|done].
  assert (Hpush : ∀ items acc, acc `prefix_of` foldl push_new acc items).
  { induction items as [|y items IHi]; intros acc; cbn [foldl]; [done|].
    etrans; [apply push_new_prefix | apply IHi]. }
  revert ruleSet. induction rs as [|ch rs IH]; intros ruleSet; cbn [foldl]; [done|].
  etrans; [apply Hpush | apply IH].
Qed.

(** The items that the loop of [closure] adds for the item [rule]. *)
Definition expands (rules : RuleSet) (rule it : DottedRule) : Prop :=
  ∃ e rs ch,
    children rule !! dot rule = Some e ∧ rules_get rules (base e) = Some rs
    ∧ ch ∈ rs ∧ it ∈ skipOmit (mkDotted (base e) ch 0).

Lemma closure_expand_expands rules ruleSet rule it :
  expands rules rule it → it ∈ closure_expand rules ruleSet rule.
Proof.
  intros (e & rs & ch & He & Hrs & Hch & Hit). unfold closure_expand.
  rewrite He, Hrs. apply foldl_skipOmit_elem. right. by exists ch.
Qed.

Lemma closure_loop_closed rules fuel : ∀ ruleSet p cl,
  closure_loop fuel rules ruleSet p = Ok cl →
  ruleSet `prefix_of` cl
  ∧ ∀ q rule it,
      p ≤ q → cl !! q = Some rule → expands rules rule it → it ∈ cl.
Proof.
  induction fuel as [|fuel IH]; intros ruleSet p cl; simpl; [done|].
  destruct (ruleSet !! p) as [rule|] eqn:Hrule.
  - intros Hloop. destruct (IH _ _ _ Hloop) as [Hpre Hclosed].
    assert (Hpre0 : ruleSet `prefix_of` cl).
    { etrans; [apply closure_expand_prefix | exact Hpre]. }
    split; [done|]. intros q rule' it Hq Hlook Hexp.
    destruct (decide (q = p)) as [->|Hne]; [|eapply Hclosed; [|done..]; lia].
    rewrite (prefix_lookup_Some _ _ _ _ Hrule Hpre0) in Hlook.
    injection Hlook as <-.
    destruct Hpre as [k ->]. apply elem_of_app. left.
    by apply closure_expand_expands.
  - intros [= <-]. split; [done|]. intros q rule it Hq Hlook _.
    apply lookup_ge_None in Hrule. apply lookup_lt_Some in Hlook. lia.
Qed.

Lemma closure_loop_NoDup rules fuel : ∀ ruleSet p cl,
  NoDup ruleSet → closure_loop fuel rules ruleSet p = Ok cl → NoDup cl.
Proof.
  induction fuel as [|fuel IH]; intros ruleSet p cl Hnd; simpl; [done|].
  destruct (ruleSet !! p) as [rule|]; [|by intros [= <-]].
  apply IH. by apply closure_expand_NoDup.
Qed.

(** X14.  The items that [closure] returns start with the items of
    [skipOmit] of the root, in their order; no item comes twice; every
    other item is one that the rule of a non-terminal gives with the dot
    at the start; and the list is closed: for every item in it whose dot
    stands before a non-terminal, the items of every rule of that
    non-terminal are in it. *)
Theorem closure_closed :
  ∀ (fuel : nat) (rules : RuleSet) (root : DottedRule) (cl : list DottedRule),
    closure fuel rules root = Ok cl →
    skipOmit root `prefix_of` cl
    ∧ NoDup cl
    ∧ (∀ it, it ∈ cl → it ∈ skipOmit root ∨ closure_born rules it)
    ∧ (∀ rule it, rule ∈ cl → expands rules rule it → it ∈ cl).
Proof.
  intros fuel rules root cl Hcl. unfold closure in Hcl.
  destruct (closure_loop_closed _ _ _ _ _ Hcl) as [Hpre Hclosed].
  split; [done|]. split; [|split].
  - eapply closure_loop_NoDup; [|exact Hcl]. apply skipOmit_NoDup.
  - intros it Hit. by eapply closure_loop_elem.
  - intros rule it (q & Hq)%list_elem_of_lookup Hexp.
    eapply (Hclosed q); [lia | done..].
Qed.

Lemma closure_closed_witness :
  skipOmit (mkDotted "list" ["list"] 0)
    `prefix_of` [mkDotted "list" ["list"] 0;
                 mkDotted "list" ["["; "item*"; "]"] 0].
Proof.
  apply (proj1 (closure_closed 50 list_rules (mkDotted "list" ["list"] 0) _
                  ltac:(vm_compute; reflexivity))).
Defined.

(** ** [goto] *)

(** The item [rule] has its dot before the symbol [el]. *)
Definition expects (rule : DottedRule) (el : string) : Prop :=
  ∃ e, children rule !! dot rule = Some e ∧ base e = el.

Lemma goto_add_elem rule i tracked acc nextRule acc' :
  goto_add rule i tracked acc nextRule = Ok acc' →
  ∀ it, it ∈ acc'.1 ↔ it ∈ acc.1 ∨ it = nextRule.
Proof.
  destruct acc as [output cameFrom]. unfold goto_add.
  destruct (list_find (λ r, r = nextRule) output) as [[ruleIndex r]|] eqn:Hfind.
  - case_match; [done|]. intros [= <-] it. simpl.
    apply list_find_Some in Hfind as (Hr & -> & _).
    split; [auto|]. intros [?| ->]; [done|]. by eapply list_elem_of_lookup_2.
  - intros [= <-] it. simpl. rewrite elem_of_app, list_elem_of_singleton. done.
Qed.

Lemma goto_adds_elem rule i tracked cl : ∀ acc acc',
  foldM (goto_add rule i tracked) acc cl = Ok acc' →
  ∀ it, it ∈ acc'.1 ↔ it ∈ acc.1 ∨ it ∈ cl.
Proof.
  induction cl as [|y cl IH]; intros acc acc'; simpl.
  - intros [= <-] it. rewrite elem_of_nil. tauto.
  - intros (acc1 & Hadd & Hrest)%bind_Ok it.
    pose proof (goto_add_elem rule i tracked acc y acc1 Hadd it) as H1.
    pose proof (IH _ _ Hrest it) as H2.
    rewrite H2, H1, elem_of_cons. tauto.
Qed.

Lemma goto_advance_elem fuel rules rule i j acc acc' :
  goto_advance fuel rules rule i j acc = Ok acc' →
  ∃ cl,
    closure fuel rules (mkDotted (key rule) (children rule) (dot rule + j)) = Ok cl
    ∧ ∀ it, it ∈ acc'.1 ↔ it ∈ acc.1 ∨ it ∈ cl.
Proof.
  unfold goto_advance. intros (cl & Hcl & Hfold)%bind_Ok.
  exists cl. split; [done|]. exact (goto_adds_elem _ _ _ _ _ _ Hfold).
Qed.

Lemma goto_rule_elem fuel rules el acc i rule acc' :
  goto_rule fuel rules el acc (i, rule) = Ok acc' →
  (∀ it, it ∈ acc.1 → it ∈ acc'.1)
  ∧ (expects rule el →
     mkDotted (key rule) (children rule) (dot rule + 1) ∈ acc'.1)
  ∧ (∀ it, it ∈ acc'.1 →
       it ∈ acc.1
       ∨ (expects rule el
          ∧ ∃ j cl, j ≤ 1
              ∧ closure fuel rules
                  (mkDotted (key rule) (children rule) (dot rule + j)) = Ok cl
              ∧ it ∈ cl)).
Proof.
  unfold goto_rule, expects.
  destruct (children rule !! dot rule) as [e|] eqn:He.
  2:{ intros [= <-]. split; [done|]. split; [by intros (? & ? & _) | by left]. }
  case_decide as Hel.
  2:{ intros [= <-]. split; [done|]. split; [|by left].
      intros (e' & [= <-] & ?). done. }
  intros (acc1 & Hadv1 & Hrest)%bind_Ok.
  apply goto_advance_elem in Hadv1 as (cl1 & Hcl1 & Hin1).
  assert (Hroot : mkDotted (key rule) (children rule) (dot rule + 1) ∈ cl1).
  { destruct (closure_loop_closed _ _ _ _ _ Hcl1) as [[k ->] _].
    apply elem_of_app. left. unfold skipOmit. by left. }
  destruct (canRepeat e).
  - apply goto_advance_elem in Hrest as (cl0 & Hcl0 & Hin0).
    split; [|split].
    + intros it Hit. apply Hin0. left. apply Hin1. by left.
    + intros _. apply Hin0. left. apply Hin1. by right.
    + intros it [[Hit|Hit]%Hin1|Hit]%Hin0; [by left| |].
      * right. split; [by exists e|]. exists 1, cl1. split; [lia | done].
      * right. split; [by exists e|]. exists 0, cl0. split; [lia | done].
  - injection Hrest as <-. split; [|split].
    + intros it Hit. apply Hin1. by left.
    + intros _. apply Hin1. by right.
    + intros it [Hit|Hit]%Hin1; [by left|].
      right. split; [by exists e|]. exists 1, cl1. split; [lia | done].
Qed.

Lemma goto_elem fuel rules el l : ∀ acc acc',
  foldM (goto_rule fuel rules el) acc l = Ok acc' →
  (∀ it, it ∈ acc.1 → it ∈ acc'.1)
  ∧ (∀ i rule, (i, rule) ∈ l → expects rule el →
       mkDotted (key rule) (children rule) (dot rule + 1) ∈ acc'.1)
  ∧ (∀ it, it ∈ acc'.1 →
       it ∈ acc.1
       ∨ ∃ i rule j cl,
           (i, rule) ∈ l ∧ expects rule el ∧ j ≤ 1
           ∧ closure fuel rules
               (mkDotted (key rule) (children rule) (dot rule + j)) = Ok cl
           ∧ it ∈ cl).
Proof.
  induction l as [|[i rule] l IH]; intros acc acc'; simpl.
  - intros [= <-]. split; [done|]. split; [by intros ? ? ?%elem_of_nil | by left].
  - intros (acc1 & Hrule & Hrest)%bind_Ok.
    apply goto_rule_elem in Hrule as (Hkeep1 & Hadv1 & Hfrom1).
    apply IH in Hrest as (Hkeep & Hadv & Hfrom).
    split; [by auto|]. split.
    + intros i' rule' [[= -> ->]|Hin]%elem_of_cons Hexp; [by auto|].
      by eapply Hadv.
    + intros it [Hit|(i' & rule' & j & cl & Hin & ?)]%Hfrom.
      * apply Hfrom1 in Hit as [?|(Hexp & j & cl & ?)]; [by left|].
        right. exists i, rule, j, cl. split; [by left | done].
      * right. exists i', rule', j, cl. split; [by right | done].
Qed.

(** X15.  The state that [goto] returns for the symbol [el] holds, for
    every item whose dot stands before [el], this item with the dot moved
    over [el]; every item it holds is in the closure of such an item, or
    of the item itself when the element can be repeated; so the state is
    empty exactly when no item has its dot before [el]. *)
Theorem goto_items :
  ∀ (fuel : nat) (rules : RuleSet) (ruleSet : list DottedRule) (el : string)
    (output : list DottedRule) (cameFrom : list cfval),
    goto fuel rules ruleSet el = Ok (output, cameFrom) →
    (∀ rule, rule ∈ ruleSet → expects rule el →
       mkDotted (key rule) (children rule) (dot rule + 1) ∈ output)
    ∧ (∀ it, it ∈ output →
         ∃ rule j cl,
           rule ∈ ruleSet ∧ expects rule el ∧ j ≤ 1
           ∧ closure fuel rules
               (mkDotted (key rule) (children rule) (dot rule + j)) = Ok cl
           ∧ it ∈ cl)
    ∧ (output = [] ↔ ∀ rule, rule ∈ ruleSet → ¬ expects rule el).
Proof.
  intros fuel rules ruleSet el output cameFrom Hgoto. unfold goto in Hgoto.
  apply goto_elem in Hgoto as (_ & Hadv & Hfrom). simpl in *.
  assert (H1 : ∀ rule, rule ∈ ruleSet → expects rule el →
                 mkDotted (key rule) (children rule) (dot rule + 1) ∈ output).
  { intros rule (i & Hi)%list_elem_of_lookup Hexp.
    apply (Hadv i); [|done]. by apply elem_of_imap_pair. }
  assert (H2 : ∀ it, it ∈ output →
                 ∃ rule j cl,
                   rule ∈ ruleSet ∧ expects rule el ∧ j ≤ 1
                   ∧ closure fuel rules
                       (mkDotted (key rule) (children rule) (dot rule + j)) = Ok cl
                   ∧ it ∈ cl).
  { intros it [Hit|(i & rule & j & cl & Hin & ?)]%Hfrom;
      [by apply elem_of_nil in Hit|].
    exists rule, j, cl. split; [|done].
    apply elem_of_imap_pair in Hin. by eapply list_elem_of_lookup_2. }
  split; [done|]. split; [done|]. split.
  - intros -> rule Hrule Hexp. by apply (H1 rule Hrule), elem_of_nil in Hexp.
  - intros Hnone. destruct output as [|it output]; [done|].
    destruct (H2 it) as (rule & _ & _ & Hrule & Hexp & _); [by left|].
    by destruct (Hnone rule Hrule).
Qed.

Lemma goto_items_witness :
  [mkDotted "list" ["list"] 1] = [] ↔
  ∀ rule, rule ∈ [mkDotted "list" ["list"] 0;
                  mkDotted "list" ["["; "item*"; "]"] 0] →
          ¬ expects rule "list".
Proof.
  assert (Hgoto : goto 50 list_rules
                    [mkDotted "list" ["list"] 0;
                     mkDotted "list" ["["; "item*"; "]"] 0] "list" =
                  Ok ([mkDotted "list" ["list"] 1], [cf_idx 0]))
    by (vm_compute; reflexivity).
  exact (proj2 (proj2 (goto_items 50 list_rules _ "list" _ _ Hgoto))).
Defined.

(** * The actions of a table *)

(** X16.  In a table that the constructor built every shift leads to a
    row of the table; a reduce never names the start symbol; and an accept
    names the start symbol and stands under the end marker. *)
Theorem table_actions :
  ∀ (fuel : nat) (rules : RuleSet) (start : string) (actionTable : ActionTable)
    (s : nat) (row : Row) (el : string) (a : Action),
    Parser.new fuel rules start = Ok actionTable →
    actionTable !! s = Some row → row !! el = Some a →
    match a with
    | shift goto cameFrom => goto < length actionTable
    | reduce k rule => k ≠ start
    | accept k => k = start ∧ el = "$"
    end.
Proof.
  intros fuel rules start actionTable s row el a Hnew Hrow Ha.
  apply Parser_new_Ok in Hnew as [_ [states Hbuilt]].
  apply buildTable_states_sound in Hbuilt as (_ & Hsound & Hlen).
  specialize (Hsound s row Hrow el a Ha). destruct a as [goto cameFrom|k rule|k].
  - destruct Hsound as (st & output & _ & Hout & _).
    apply lookup_lt_Some in Hout. lia.
  - destruct Hsound as (st & it & _ & _ & <- & _ & Hne). done.
  - destruct Hsound as (st & j & it & _ & _ & -> & -> & _). done.
Qed.

Lemma table_actions_witness : 2 < length list_table.
Proof.
  apply (table_actions 50 list_rules "list" list_table 0
           (default ∅ (list_table !! 0)) "[" (shift 2 [cf_idx 1; cf_idx 1])).
  - vm_compute. reflexivity.
  - vm_compute. reflexivity.
  - vm_compute. reflexivity.
Defined.

(** * FIRST: what the sets hold *)

(** The elements of a rule that the loop of [first] looks at: up to the
    first one that cannot be omitted, this one included. *)
Fixpoint heads (rule : Rule) : list string :=
  match rule with
  | [] => []
  | el :: rest => el :: (if canOmit el then heads rest else [])
  end.

(** Every set of [f] is within the set of [g] for the same key. *)
Definition sub_sets (f g : SetMap) : Prop := ∀ k, f !!! k ⊆ g !!! k.

Lemma sub_sets_refl f : sub_sets f f.
Proof. by intros k. Qed.

Lemma sub_sets_trans f g h : sub_sets f g → sub_sets g h → sub_sets f h.
Proof. intros H1 H2 k. etrans; [apply H1 | apply H2]. Qed.

Lemma sub_sets_insert_union (f : SetMap) k s :
  sub_sets f (<[k := set_union (f !!! k) s]> f).
Proof.
  intros k' x Hx. rewrite lookup_total_insert. case_decide as Hk; [|done].
  subst k'. apply set_union_elem. by left.
Qed.

Lemma NoDup_same_length (a b : list string) :
  NoDup a → NoDup b → a ⊆ b → length b ≤ length a → b ⊆ a.
Proof.
  intros Ha Hb Hab Hlen x Hx.
  assert (Hperm : a ≡ₚ b).
  { apply submseteq_length_Permutation; [by apply NoDup_submseteq | done]. }
  by rewrite Hperm.
Qed.

(** ** The sets at the start *)

Lemma foldl_concat {A B} (g : A → B → A) (ls : list (list B)) : ∀ a,
  foldl (foldl g) a ls = foldl g a (concat ls).
Proof.
  induction ls as [|l ls IH]; intros a; [done|].
  cbn [foldl concat]. by rewrite foldl_app, IH.
Qed.

(** While the keys of [l] are still to come: a set is empty, for a key,
    or holds the name of its symbol, which is no key or a key still to
    come; and the keys that have come have their set. *)
Definition init_shape (rules l : RuleSet) (f : SetMap) : Prop :=
  (∀ el s, f !! el = Some s →
     (s = [] ∧ hasOwn rules el = true)
     ∨ (s = [el] ∧ (hasOwn rules el = false ∨ el ∈ l.*1)))
  ∧ (∀ k, hasOwn rules k = true → k ∉ l.*1 → is_Some (f !! k)).

Lemma init_shape_el rules l f e :
  init_shape rules l f → init_shape rules l (first_init_el f e).
Proof.
  intros [H1 H2]. unfold first_init_el.
  destruct (f !! base e) as [s|] eqn:He; [done|]. split.
  - intros el s. rewrite lookup_insert. case_decide as Hel; [|by apply H1].
    subst el. intros [= <-]. right. split; [done|].
    destruct (hasOwn rules (base e)) eqn:Hkey; [|by left]. right.
    destruct (decide (base e ∈ l.*1)) as [|Hnot]; [done|].
    destruct (H2 _ Hkey Hnot) as [s Hs]. congruence.
  - intros k Hk Hnot. rewrite lookup_insert. case_decide; [by eexists | by apply H2].
Qed.

Lemma init_shape_els rules l es : ∀ f,
  init_shape rules l f → init_shape rules l (foldl first_init_el f es).
Proof.
  induction es as [|e es IH]; intros f Hf; cbn [foldl]; [done|].
  by apply IH, init_shape_el.
Qed.

Lemma init_shape_loop rules : ∀ l f,
  (∀ k, k ∈ l.*1 → hasOwn rules k = true) →
  init_shape rules l f →
  init_shape rules []
    (foldl (λ first '(key, rs),
              foldl (foldl first_init_el) (<[key := []]> first) rs) f l).
Proof.
  induction l as [|[k rs] l IH]; intros f Hkeys Hf; cbn [foldl]; [done|].
  apply IH; [intros k' Hk'; apply Hkeys; by right|].
  rewrite foldl_concat. apply init_shape_els.
  destruct Hf as [H1 H2]. split.
  - intros el s. rewrite lookup_insert. case_decide as Hel.
    + subst el. intros [= <-]. left. split; [done|]. apply Hkeys. by left.
    + intros Hs. destruct (H1 _ _ Hs) as [?|[-> Hcase]]; [by left|].
      right. split; [done|]. destruct Hcase as [?|Hin]; [by left|]. right.
      simpl in Hin. apply elem_of_cons in Hin as [?|?]; [congruence | done].
  - intros k' Hk' Hnot. rewrite lookup_insert. case_decide; [by eexists|].
    apply H2; [done|]. simpl. intros [?|?]%elem_of_cons; [congruence | done].
Qed.

Lemma first_init_shape rules : init_shape rules [] (first_init rules).
Proof.
  apply init_shape_loop.
  - intros k Hk. by apply key_hasOwn.
  - split; [by intros el s; rewrite lookup_empty|].
    intros k Hk Hnot. destruct Hnot. by apply hasOwn_key.
Qed.

(** ** The sets all along *)

(** A symbol that is no key has itself as its set, and the sets hold such
    symbols only. *)
Definition terminal_sets (rules : RuleSet) (f : SetMap) : Prop :=
  sets_within (symbols rules) f
  ∧ (∀ el, el ∈ symbols rules → hasOwn rules el = false → f !! el = Some [el])
  ∧ (∀ k x, x ∈ f !!! k → hasOwn rules x = false).

Lemma first_init_terminal_sets rules : terminal_sets rules (first_init rules).
Proof.
  destruct (first_init_shape rules) as [H1 _].
  split; [apply first_init_within|]. split.
  - intros el Hel Hkey.
    destruct (first_init_defined rules el) as [s Hs].
    { apply elem_of_app. by right. }
    destruct (H1 _ _ Hs) as [[_ ?]|[-> _]]; [congruence | done].
  - intros k x. rewrite lookup_total_alt.
    destruct (first_init rules !! k) as [s|] eqn:Hs; simpl; [|by intros ?%elem_of_nil].
    destruct (H1 _ _ Hs) as [[-> _]|[-> [?|Hin]]].
    + by intros ?%elem_of_nil.
    + by intros ->%list_elem_of_singleton.
    + by apply elem_of_nil in Hin.
Qed.

Lemma terminal_sets_insert_union rules f key e :
  hasOwn rules key = true → terminal_sets rules f →
  terminal_sets rules (<[key := set_union (f !!! key) (f !!! e)]> f).
Proof.
  intros Hkey (Hin & Hfix & Hterm). split; [|split].
  - apply insert_union_within; [done | apply Hin].
  - intros el Hel Hno. rewrite lookup_insert_ne by congruence. by apply Hfix.
  - intros k x. rewrite lookup_total_insert. case_decide; [|by apply Hterm].
    intros [?|?]%set_union_elem; by eapply Hterm.
Qed.

Lemma first_rule_sub rules key rule : ∀ f,
  hasOwn rules key = true → terminal_sets rules f →
  terminal_sets rules (first_rule key f rule)
  ∧ sub_sets f (first_rule key f rule)
  ∧ (∀ e, e ∈ heads rule → f !!! base e ⊆ first_rule key f rule !!! key)
  ∧ (∀ k, k ≠ key → first_rule key f rule !!! k = f !!! k).
Proof.
  intros f Hkey. revert f.
  induction rule as [|el rest IH]; intros f Hf; simpl.
  - split; [done|]. split; [apply sub_sets_refl|].
    split; [by intros e ?%elem_of_nil | done].
  - set (f1 := <[key := set_union (f !!! key) (f !!! base el)]> f).
    assert (Hf1 : terminal_sets rules f1) by (by apply terminal_sets_insert_union).
    assert (Hsub1 : sub_sets f f1) by apply sub_sets_insert_union.
    assert (Hel : f !!! base el ⊆ f1 !!! key).
    { intros x Hx. unfold f1. rewrite lookup_total_insert_eq.
      apply set_union_elem. by right. }
    assert (Hne1 : ∀ k, k ≠ key → f1 !!! k = f !!! k).
    { intros k Hk. unfold f1. by rewrite lookup_total_insert_ne. }
    destruct (canOmit el).
    + destruct (IH f1 Hf1) as (Hf2 & Hsub2 & Hheads & Hne2).
      split; [done|]. split; [by eapply sub_sets_trans|]. split.
      * intros e [->|He]%elem_of_cons.
        -- etrans; [exact Hel | apply Hsub2].
        -- etrans; [apply Hsub1 | by apply Hheads].
      * intros k Hk. by rewrite Hne2, Hne1.
    + split; [done|]. split; [done|]. split; [|done].
      by intros e ->%list_elem_of_singleton.
Qed.

Lemma first_rules_sub rules key rs : ∀ f,
  hasOwn rules key = true → terminal_sets rules f →
  terminal_sets rules (foldl (first_rule key) f rs)
  ∧ sub_sets f (foldl (first_rule key) f rs)
  ∧ (∀ rule e, rule ∈ rs → e ∈ heads rule →
       f !!! base e ⊆ foldl (first_rule key) f rs !!! key)
  ∧ (∀ k, k ≠ key → foldl (first_rule key) f rs !!! k = f !!! k).
Proof.
  intros f Hkey. revert f.
  induction rs as [|rule rs IH]; intros f Hf; cbn [foldl].
  - split; [done|]. split; [apply sub_sets_refl|].
    split; [by intros rule e ?%elem_of_nil | done].
  - destruct (first_rule_sub rules key rule f Hkey Hf) as (Hf1 & Hsub1 & Hh1 & Hne1).
    destruct (IH _ Hf1) as (Hf2 & Hsub2 & Hh2 & Hne2).
    split; [done|]. split; [by eapply sub_sets_trans|]. split.
    + intros rule' e [->|Hin]%elem_of_cons He.
      * etrans; [by apply Hh1 | apply Hsub2].
      * etrans; [apply Hsub1 | by eapply Hh2].
    + intros k Hk. by rewrite Hne2, Hne1.
Qed.

(** One turn of the loop of [first], from [f0]: the sets grow; when the
    turn reports no change they are the same; and the set of a key holds
    what the set of every element at the head of one of its rules held. *)
Lemma first_pass_sub rules f0 :
  terminal_sets rules f0 →
  let r := first_pass rules f0 in
  terminal_sets rules r.1
  ∧ sub_sets f0 r.1
  ∧ (r.2 = false → sub_sets r.1 f0)
  ∧ (∀ k rs rule e, (k, rs) ∈ rules → rule ∈ rs → e ∈ heads rule →
       f0 !!! base e ⊆ r.1 !!! k).
Proof.
  intros Hf0. unfold first_pass.
  assert (Hgen : ∀ (l : RuleSet) (acc : SetMap * bool),
            l ⊆ rules →
            terminal_sets rules acc.1 → sub_sets f0 acc.1 →
            (acc.2 = false → sub_sets acc.1 f0) →
            let r := foldl (λ '(first, changed) '(key, rs),
                              let prevSize := length (first !!! key) in
                              let first := foldl (first_rule key) first rs in
                              (first, changed || bool_decide (prevSize < length (first !!! key))))
                           acc l in
            terminal_sets rules r.1
            ∧ sub_sets acc.1 r.1
            ∧ (r.2 = false → sub_sets r.1 f0)
            ∧ (∀ k rs rule e, (k, rs) ∈ l → rule ∈ rs → e ∈ heads rule →
                 f0 !!! base e ⊆ r.1 !!! k)).
  { induction l as [|[k rs] l IH]; intros [g c] Hl Hg Hsub Hsame; cbn [foldl].
    - simpl. split; [done|]. split; [apply sub_sets_refl|]. split; [done|].
      by intros k rs rule e ?%elem_of_nil.
    - simpl in Hg, Hsub, Hsame.
      assert (Hkey : hasOwn rules k = true).
      { apply key_hasOwn, list_elem_of_fmap. exists (k, rs).
        split; [done|]. apply Hl. by left. }
      destruct (first_rules_sub rules k rs g Hkey Hg) as (Hg1 & Hsub1 & Hh1 & Hne1).
      set (g1 := foldl (first_rule k) g rs) in *.
      destruct (IH (g1, c || bool_decide (length (g !!! k) < length (g1 !!! k))))
        as (Hr & Hsubr & Hsamer & Hcov).
      + intros x Hx. apply Hl. by right.
      + done.
      + by eapply sub_sets_trans.
      + simpl. intros [Hc Hsize]%orb_false_iff.
        apply bool_decide_eq_false in Hsize.
        eapply sub_sets_trans; [|by apply Hsame].
        intros k' x Hx. destruct (decide (k' = k)) as [->|Hk'].
        * destruct Hg as [Hg _], Hg1 as [Hg1 _].
          eapply (NoDup_same_length (g !!! k) (g1 !!! k));
            [apply Hg | apply Hg1 | apply Hsub1 | lia | done].
        * by rewrite <- (Hne1 k' Hk').
      + split; [done|]. split.
        { simpl. eapply sub_sets_trans; [exact Hsub1 | exact Hsubr]. }
        split; [done|].
        intros k' rs' rule e [[= -> ->]|Hin]%elem_of_cons Hrule He.
        * etrans; [apply Hsub|]. etrans; [by eapply Hh1 | apply Hsubr].
        * by eapply Hcov. }
  destruct (Hgen rules (f0, false)) as (H1 & H2 & H3 & H4);
    [done | done | apply sub_sets_refl | by intros _; apply sub_sets_refl|].
  done.
Qed.

Lemma while_changed_exit {X} (Inv : X → Prop) (pass : X → X * bool) :
  (∀ x, Inv x → Inv (pass x).1) →
  ∀ fuel x x', Inv x → while_changed fuel pass x = Ok x' →
    ∃ x0, Inv x0 ∧ pass x0 = (x', false).
Proof.
  intros Hpass. induction fuel as [|fuel IH]; intros x x' Hx; simpl; [done|].
  pose proof (Hpass x Hx) as Hnext.
  destruct (pass x) as [y changed] eqn:Hp. simpl in *.
  destruct changed; [by apply IH|]. intros [= <-]. by exists x.
Qed.

Lemma first_result fuel rules f :
  first fuel rules = Ok f →
  terminal_sets rules f
  ∧ (∀ k rs rule e, (k, rs) ∈ rules → rule ∈ rs → e ∈ heads rule →
       f !!! base e ⊆ f !!! k).
Proof.
  intros Hfirst. unfold first in Hfirst.
  apply (while_changed_exit (terminal_sets rules)) in Hfirst
    as (f0 & Hf0 & Hpass).
  - destruct (first_pass_sub rules f0 Hf0) as (Hf & Hsub & Hsame & Hcov).
    rewrite Hpass in *. simpl in *. split; [done|].
    intros k rs rule e Hk Hrule He.
    etrans; [by apply Hsame | by eapply Hcov].
  - intros g Hg. by apply first_pass_sub.
  - apply first_init_terminal_sets.
Qed.



(** * FOLLOW: what the sets hold *)

(** Every element of the rule can be omitted. *)
Definition all_omit (rule : Rule) : Prop := Forall (λ e, canOmit e = true) rule.

(** The sets stay within the symbols and the end marker, and hold the end
    marker and symbols that are no keys only. *)
Definition follow_ok (rules : RuleSet) (g : SetMap) : Prop :=
  sets_within (follow_universe rules) g
  ∧ (∀ k x, x ∈ g !!! k → x = "$" ∨ hasOwn rules x = false).

(** What the loop of [follow] has done for the rule [rule] of [key] when
    the sets are [g]: for each element that is a key, its set holds the
    FIRST sets of what can come next, and the set [s] when the rule can end
    after it. *)
Definition covered (rules : RuleSet) (fst : SetMap) (s : list string)
    (g : SetMap) (rule : Rule) : Prop :=
  ∀ i e, rule !! i = Some e → hasOwn rules (base e) = true →
    (canRepeat e = true → fst !!! base e ⊆ g !!! base e)
    ∧ (∀ e', e' ∈ heads (drop (S i) rule) → fst !!! base e' ⊆ g !!! base e)
    ∧ (all_omit (drop (S i) rule) → s ⊆ g !!! base e).

Lemma covered_mono rules fst s g g' rule :
  sub_sets g g' → covered rules fst s g rule → covered rules fst s g' rule.
Proof.
  intros Hsub Hcov i e Hi He. destruct (Hcov i e Hi He) as (H1 & H2 & H3).
  split; [|split].
  - intros Hrep. etrans; [by apply H1 | apply Hsub].
  - intros e' He'. etrans; [by apply H2 | apply Hsub].
  - intros Hall. etrans; [by apply H3 | apply Hsub].
Qed.

Lemma follow_init_empty rules k : follow_init rules !!! k = [].
Proof.
  unfold follow_init.
  assert (Hgen : ∀ (l : RuleSet) (acc : SetMap),
            acc !!! k = [] →
            foldl (λ follow '(key, _), <[key := []]> follow) acc l !!! k = []).
  { induction l as [|[k' rs] l IH]; intros acc Hacc; cbn [foldl]; [done|].
    apply IH. rewrite lookup_total_insert. by case_decide. }
  apply Hgen. by rewrite lookup_total_empty.
Qed.

Section follow_turn.
Variables (rules : RuleSet) (fst : SetMap).
Hypothesis fst_sets : terminal_sets rules fst.

Lemma follow_ok_insert_first g el k :
  follow_ok rules g →
  follow_ok rules (<[el := set_union (g !!! el) (fst !!! k)]> g).
Proof.
  destruct fst_sets as (Hin & _ & Hterm). intros [Hg Hgt]. split.
  - apply insert_union_within; [done|]. by apply first_in_follow_universe.
  - intros k' x. rewrite lookup_total_insert. case_decide; [|by apply Hgt].
    intros [?|?]%set_union_elem; [by eapply Hgt | right; by eapply Hterm].
Qed.

Lemma follow_ok_insert_follow g el k :
  follow_ok rules g →
  follow_ok rules (<[el := set_union (g !!! el) (g !!! k)]> g).
Proof.
  intros [Hg Hgt]. split.
  - apply insert_union_within; [done | apply Hg].
  - intros k' x. rewrite lookup_total_insert. case_decide; [|by apply Hgt].
    intros [?|?]%set_union_elem; by eapply Hgt.
Qed.

Lemma insert_union_elem (g : SetMap) el s : s ⊆ <[el := set_union (g !!! el) s]> g !!! el.
Proof.
  intros x Hx. rewrite lookup_total_insert_eq. apply set_union_elem. by right.
Qed.

Lemma follow_scan_sub key el rest : ∀ g,
  follow_ok rules g →
  follow_ok rules (follow_scan fst key el g rest)
  ∧ sub_sets g (follow_scan fst key el g rest)
  ∧ (∀ e', e' ∈ heads rest → fst !!! base e' ⊆ follow_scan fst key el g rest !!! el)
  ∧ (all_omit rest → g !!! key ⊆ follow_scan fst key el g rest !!! el)
  ∧ (∀ k, k ≠ el → follow_scan fst key el g rest !!! k = g !!! k).
Proof.
  induction rest as [|e rest IH]; intros g Hg; simpl.
  - split; [by apply follow_ok_insert_follow|].
    split; [apply sub_sets_insert_union|].
    split; [by intros e' ?%elem_of_nil|].
    split; [intros _; apply insert_union_elem|].
    intros k Hk. by rewrite lookup_total_insert_ne.
  - set (g1 := <[el := set_union (g !!! el) (fst !!! base e)]> g).
    assert (Hg1 : follow_ok rules g1) by (by apply follow_ok_insert_first).
    assert (Hsub1 : sub_sets g g1) by apply sub_sets_insert_union.
    assert (He : fst !!! base e ⊆ g1 !!! el) by apply insert_union_elem.
    assert (Hne1 : ∀ k, k ≠ el → g1 !!! k = g !!! k).
    { intros k Hk. unfold g1. by rewrite lookup_total_insert_ne. }
    destruct (canOmit e) eqn:Homit.
    + destruct (IH g1 Hg1) as (Hr & Hsub & Hheads & Hkey & Hne).
      split; [done|]. split; [by eapply sub_sets_trans|]. split; [|split].
      * intros e' [->|He']%elem_of_cons.
        -- etrans; [exact He | apply Hsub].
        -- by apply Hheads.
      * intros [_ Hall]%Forall_cons. etrans; [apply Hsub1 | by apply Hkey].
      * intros k Hk. by rewrite Hne, Hne1.
    + split; [done|]. split; [done|]. split; [|split; [|done]].
      * by intros e' ->%list_elem_of_singleton.
      * intros [? _]%Forall_cons. congruence.
Qed.

Lemma follow_el_sub f0 key acc e rest :
  follow_ok rules acc.1 → (acc.2 = false → sub_sets acc.1 f0) →
  let r := follow_el rules fst key acc e rest in
  follow_ok rules r.1 ∧ sub_sets acc.1 r.1 ∧ (r.2 = false → sub_sets r.1 f0)
  ∧ (hasOwn rules (base e) = true →
       (canRepeat e = true → fst !!! base e ⊆ r.1 !!! base e)
       ∧ (∀ e', e' ∈ heads rest → fst !!! base e' ⊆ r.1 !!! base e)
       ∧ (all_omit rest → acc.1 !!! key ⊆ r.1 !!! base e)).
Proof.
  destruct acc as [g c]. simpl. intros Hg Hsame. unfold follow_el.
  destruct (hasOwn rules (base e)) eqn:Hown; simpl.
  2:{ split; [done|]. split; [apply sub_sets_refl|]. by split. }
  set (g1 := if canRepeat e
             then <[base e := set_union (g !!! base e) (fst !!! base e)]> g
             else g).
  assert (Hg1 : follow_ok rules g1 ∧ sub_sets g g1
                ∧ (canRepeat e = true → fst !!! base e ⊆ g1 !!! base e)
                ∧ (∀ k, k ≠ base e → g1 !!! k = g !!! k)).
  { unfold g1. destruct (canRepeat e).
    - split; [by apply follow_ok_insert_first|].
      split; [apply sub_sets_insert_union|].
      split; [intros _; apply insert_union_elem|].
      intros k Hk. by rewrite lookup_total_insert_ne.
    - split; [done|]. split; [apply sub_sets_refl|]. by split. }
  destruct Hg1 as (Hg1 & Hsub1 & Hrep & Hne1).
  destruct (follow_scan_sub key (base e) rest g1 Hg1)
    as (Hr & Hsub & Hheads & Hkey & Hne).
  set (r := follow_scan fst key (base e) g1 rest) in *.
  assert (Hgr : sub_sets g r) by (by eapply sub_sets_trans).
  split; [done|]. split; [done|]. split.
  - intros [Hc Hsize%bool_decide_eq_false]%orb_false_iff.
    eapply sub_sets_trans; [|by apply Hsame].
    intros k x Hx. destruct (decide (k = base e)) as [->|Hk].
    + destruct Hg as [Hg _], Hr as [Hr _].
      eapply (NoDup_same_length (g !!! base e) (r !!! base e));
        [apply Hg | apply Hr | apply Hgr | lia | done].
    + by rewrite <- (Hne1 k Hk), <- (Hne k Hk).
  - intros _. split; [|split; [done|]].
    + intros Hc. etrans; [by apply Hrep | apply Hsub].
    + intros Hall. etrans; [apply Hsub1 | by apply Hkey].
Qed.

Lemma follow_rule_sub f0 key rule : ∀ acc,
  follow_ok rules acc.1 → sub_sets f0 acc.1 → (acc.2 = false → sub_sets acc.1 f0) →
  let r := follow_rule rules fst key acc rule in
  follow_ok rules r.1 ∧ sub_sets acc.1 r.1 ∧ (r.2 = false → sub_sets r.1 f0)
  ∧ covered rules fst (f0 !!! key) r.1 rule.
Proof.
  induction rule as [|e rest IH]; intros acc Hacc Hsub0 Hsame; simpl.
  - split; [done|]. split; [apply sub_sets_refl|]. split; [done|].
    by intros i e.
  - destruct (follow_el_sub f0 key acc e rest Hacc Hsame)
      as (H1 & Hsub1 & Hsame1 & Hcov1).
    destruct (IH (follow_el rules fst key acc e rest)) as (H2 & Hsub2 & Hsame2 & Hcov2);
      [done | by eapply sub_sets_trans | done |].
    split; [done|]. split; [by eapply sub_sets_trans|]. split; [done|].
    intros [|i] e0 Hi He0.
    + simpl in Hi. injection Hi as <-. simpl.
      destruct (Hcov1 He0) as (Ha & Hb & Hc). split; [|split].
      * intros Hrep. etrans; [by apply Ha | apply Hsub2].
      * intros e' He'. etrans; [by apply Hb | apply Hsub2].
      * intros Hall. etrans; [apply Hsub0|]. etrans; [by apply Hc | apply Hsub2].
    + by apply (Hcov2 i e0).
Qed.

Lemma follow_rules_sub f0 key rs : ∀ acc,
  follow_ok rules acc.1 → sub_sets f0 acc.1 → (acc.2 = false → sub_sets acc.1 f0) →
  let r := foldl (follow_rule rules fst key) acc rs in
  follow_ok rules r.1 ∧ sub_sets acc.1 r.1 ∧ (r.2 = false → sub_sets r.1 f0)
  ∧ (∀ rule, rule ∈ rs → covered rules fst (f0 !!! key) r.1 rule).
Proof.
  induction rs as [|rule rs IH]; intros acc Hacc Hsub0 Hsame; cbn [foldl].
  - split; [done|]. split; [apply sub_sets_refl|]. split; [done|].
    by intros rule ?%elem_of_nil.
  - destruct (follow_rule_sub f0 key rule acc Hacc Hsub0 Hsame)
      as (H1 & Hsub1 & Hsame1 & Hcov1).
    destruct (IH (follow_rule rules fst key acc rule)) as (H2 & Hsub2 & Hsame2 & Hcov2);
      [done | by eapply sub_sets_trans | done |].
    split; [done|]. split; [by eapply sub_sets_trans|]. split; [done|].
    intros rule' [->|Hin]%elem_of_cons.
    + by eapply covered_mono.
    + by apply Hcov2.
Qed.

(** One turn of the loop of [follow], from [f0]. *)
Lemma follow_pass_sub f0 :
  follow_ok rules f0 →
  let r := follow_pass rules fst f0 in
  follow_ok rules r.1 ∧ sub_sets f0 r.1 ∧ (r.2 = false → sub_sets r.1 f0)
  ∧ (∀ k rs rule, (k, rs) ∈ rules → rule ∈ rs →
       covered rules fst (f0 !!! k) r.1 rule).
Proof.
  intros Hf0. unfold follow_pass.
  assert (Hgen : ∀ (l : RuleSet) (acc : SetMap * bool),
            follow_ok rules acc.1 → sub_sets f0 acc.1 →
            (acc.2 = false → sub_sets acc.1 f0) →
            let r := foldl (λ acc '(key, rs),
                              foldl (follow_rule rules fst key) acc rs) acc l in
            follow_ok rules r.1 ∧ sub_sets acc.1 r.1
            ∧ (r.2 = false → sub_sets r.1 f0)
            ∧ (∀ k rs rule, (k, rs) ∈ l → rule ∈ rs →
                 covered rules fst (f0 !!! k) r.1 rule)).
  { induction l as [|[k rs] l IH]; intros acc Hacc Hsub0 Hsame; cbn [foldl].
    - split; [done|]. split; [apply sub_sets_refl|]. split; [done|].
      by intros k rs rule ?%elem_of_nil.
    - destruct (follow_rules_sub f0 k rs acc Hacc Hsub0 Hsame)
        as (H1 & Hsub1 & Hsame1 & Hcov1).
      destruct (IH (foldl (follow_rule rules fst k) acc rs))
        as (H2 & Hsub2 & Hsame2 & Hcov2);
        [done | by eapply sub_sets_trans | done |].
      split; [done|]. split; [by eapply sub_sets_trans|]. split; [done|].
      intros k' rs' rule [[= -> ->]|Hin]%elem_of_cons Hrule.
      + eapply covered_mono; [exact Hsub2 | by apply Hcov1].
      + by eapply Hcov2. }
  destruct (Hgen rules (f0, false)) as (H1 & H2 & H3 & H4);
    [done | apply sub_sets_refl | by intros _; apply sub_sets_refl|].
  done.
Qed.
End follow_turn.

(** X18.  What [follow] returns.  The start symbol must be a key; then the
    set of the start symbol holds the end marker, the sets hold the end
    marker and terminals only, and for every element of a rule that is a
    key: its set holds the FIRST set of the next element, and of each
    further one as long as those before it can be omitted; it holds the
    FOLLOW set of the key of the rule when every element after it can be
    omitted; and it holds its own FIRST set when the element can repeat. *)
Theorem follow_sets :
  ∀ (fuel : nat) (rules : RuleSet) (start : string) (fol : SetMap),
    follow fuel rules start = Ok fol →
    ∃ fst,
      first fuel rules = Ok fst
      ∧ hasOwn rules start = true
      ∧ "$" ∈ fol !!! start
      ∧ (∀ k x, x ∈ fol !!! k →
           x = "$" ∨ (x ∈ symbols rules ∧ hasOwn rules x = false))
      ∧ (∀ k rs rule i e,
           (k, rs) ∈ rules → rule ∈ rs → rule !! i = Some e →
           hasOwn rules (base e) = true →
           (canRepeat e = true → fst !!! base e ⊆ fol !!! base e)
           ∧ (∀ e', e' ∈ heads (drop (S i) rule) →
                fst !!! base e' ⊆ fol !!! base e)
           ∧ (all_omit (drop (S i) rule) → fol !!! k ⊆ fol !!! base e)).
Proof.
  intros fuel rules start fol. unfold follow.
  destruct (follow_init rules !! start) as [s|] eqn:Hs; [|done].
  assert (Hs' : s = []).
  { pose proof (follow_init_empty rules start) as He.
    by rewrite lookup_total_alt, Hs in He. }
  subst s.
  assert (Hstart : hasOwn rules start = true).
  { destruct (hasOwn rules start) eqn:Hown; [done|].
    assert (Hnone : ∀ (l : RuleSet) (acc : SetMap),
              start ∉ l.*1 → acc !! start = None →
              foldl (λ follow '(key, _), <[key := []]> follow) acc l !! start = None).
    { induction l as [|[k' rs] l IH]; intros acc Hnot Hacc; cbn [foldl]; [done|].
      apply IH; [intros ?; apply Hnot; by right|].
      rewrite lookup_insert_ne; [done|]. intros ->. apply Hnot. by left. }
    unfold follow_init in Hs. rewrite Hnone in Hs; [done| |done].
    intros Hin%key_hasOwn. congruence. }
  intros (fst & Hfirst & Hloop)%bind_Ok. exists fst.
  destruct (first_result fuel rules fst Hfirst) as [Hfst _].
  split; [done|]. split; [done|].
  apply (while_changed_exit (λ g, follow_ok rules g ∧ "$" ∈ g !!! start))
    in Hloop as (f0 & [Hf0 Hend] & Hpass).
  - destruct (follow_pass_sub rules fst Hfst f0 Hf0) as (Hfol & Hsub & Hsame & Hcov).
    rewrite Hpass in *. simpl in *. specialize (Hsame eq_refl).
    split; [by apply Hsub|]. split.
    + intros k x Hx. destruct Hfol as [Hin Hterm].
      destruct (Hterm k x Hx) as [?|Hno]; [by left|].
      pose proof (proj2 (Hin k) x Hx) as Hu.
      apply elem_of_cons in Hu as [?|Hsym]; [by left | by right].
    + intros k rs rule i e Hk Hrule Hi He.
      destruct (Hcov k rs rule Hk Hrule i e Hi He) as (Ha & Hb & Hc).
      split; [done|]. split; [done|].
      intros Hall. etrans; [apply Hsame | by apply Hc].
  - intros g [Hg Hend].
    destruct (follow_pass_sub rules fst Hfst g Hg) as (H1 & H2 & _).
    split; [done | by apply H2].
  - split.
    + split.
      * apply sets_within_insert; [apply follow_init_within | |].
        -- apply set_add_NoDup. constructor.
        -- intros y [Hy| ->]%set_add_elem; [by apply elem_of_nil in Hy | by left].
      * intros k x. rewrite lookup_total_insert. case_decide.
        -- intros [Hy| ->]%set_add_elem; [by apply elem_of_nil in Hy | by left].
        -- rewrite follow_init_empty. by intros ?%elem_of_nil.
    + rewrite lookup_total_insert_eq. apply set_add_elem. by right.
Qed.

Lemma follow_sets_witness :
  ∃ fol, follow 50 list_rules "list" = Ok fol ∧ "$" ∈ fol !!! "list".
Proof.
  destruct (follow 50 list_rules "list") as [fol| |] eqn:Hfol;
    [|by vm_compute in Hfol..].
  exists fol. split; [done|].
  destruct (follow_sets 50 list_rules "list" fol Hfol) as (fst & _ & _ & Hend & _).
  exact Hend.
Defined.

(** * The position of a [ParseError] *)

(** X19.  [ParseError.fromTree] gives the error at the line and the
    index of the first leaf of the tree, or it fails with the engine's
    [TypeError], as it does on a node without children; it has no other
    result. *)
Theorem fromTree_first_leaf :
  ∀ (message : string) (tree : Tree),
    (∃ t rest, leaves tree = t :: rest
               ∧ fromTree message tree = Ok (ParseError message (line t) (index t)))
    ∨ fromTree message tree =
        Throw (TypeError "Cannot use 'in' operator to search for 'children' in undefined").
Proof.
  intros message. fix IH 1. intros [t|k [|c cs]].
  - left. by exists t, [].
  - by right.
  - rewrite leaves_Node.
    change (fromTree message (Node k (c :: cs))) with (fromTree message c).
    destruct (IH c) as [(t & rest & Hl & Hf)|Hf]; [left | by right].
    exists t, (rest ++ stack_leaves cs). split; [|done].
    unfold stack_leaves. by rewrite bind_cons, Hl.
Qed.

(** * The visitor: the walk without methods for the nodes *)

(** No node of the tree has a visit method. *)
Fixpoint unhandled {T St} (v : @Visitor.visitor T St) (tree : Tree) : Prop :=
  match tree with
  | Leaf _ => True
  | Node k children =>
      v ("visit_" +:+ k) = None
      ∧ (fix go (l : list Tree) : Prop :=
           match l with
           | [] => True
           | c :: rest => unhandled v c ∧ go rest
           end) children
  end.

Lemma unhandled_Node {T St} (v : @Visitor.visitor T St) k children :
  unhandled v (Node k children) ↔
    v ("visit_" +:+ k) = None ∧ Forall (unhandled v) children.
Proof.
  simpl. apply and_iff_compat_l.
  induction children as [|c rest IH]; [by split; [constructor|]|].
  rewrite Forall_cons, IH. done.
Qed.

(** [visitChildren] returns what the visit of the last child returns, and
    then the visit of every child returned. *)
Lemma visit_all_Ok {T St} (visit : St → Tree → outcome T) state children r :
  Visitor.visit_all visit state children = Ok r →
  ∃ c, last children = Some c ∧ visit state c = Ok r
       ∧ ∀ c', c' ∈ children → ∃ r', visit state c' = Ok r'.
Proof.
  induction children as [|c [|c2 rest] IH]; [done| |].
  - simpl. intros Hc. exists c. split; [done|]. split; [done|].
    intros c' ->%list_elem_of_singleton. by exists r.
  - change (Visitor.visit_all visit state (c :: c2 :: rest))
      with (_ ← visit state c; Visitor.visit_all visit state (c2 :: rest)).
    intros (r1 & Hc & Hrest)%bind_Ok.
    destruct (IH Hrest) as (cl & Hlast & Hcl & Hall).
    exists cl. split; [done|]. split; [done|].
    intros c' [->|Hin]%elem_of_cons; [by exists r1 | by apply Hall].
Qed.

Lemma last_stack_leaves children c t :
  last children = Some c → last (leaves c) = Some t →
  last (stack_leaves children) = Some t.
Proof.
  intros Hc Ht. apply last_Some in Hc as [l' ->].
  rewrite stack_leaves_app.
  change (stack_leaves [c]) with (leaves c ++ []). rewrite app_nil_r.
  apply last_Some in Ht as [l'' ->]. by rewrite app_assoc, last_snoc.
Qed.

(** X20.  When no node of the tree has a visit method, what [visit]
    returns for the tree is what the method of the last leaf of the tree
    returns for this leaf. *)
Theorem visit_last_leaf :
  ∀ (T St : Type) (fuel : nat) (v : @Visitor.visitor T St) (state : St)
    (tree : Tree) (r : T),
    unhandled v tree →
    Visitor.visit fuel v state tree = Ok r →
    ∃ t m fuel',
      last (leaves tree) = Some t
      ∧ v ("visit_" +:+ type t) = Some m
      ∧ fuel' < fuel
      ∧ m (Visitor.visit fuel' v) state (Leaf t) = Ok r.
Proof.
  intros T St fuel v state. induction fuel as [|fuel IH]; intros tree r Hun; [done|].
  destruct tree as [t|k children]; cbn [Visitor.visit tree_type].
  - destruct (v ("visit_" +:+ type t)) as [m|] eqn:Hm; [|done].
    intros Hr. exists t, m, fuel. repeat split; [done | lia | done].
  - apply unhandled_Node in Hun as [Hk Hall]. rewrite Hk.
    intros (c & Hlast & Hc & _)%visit_all_Ok.
    destruct (IH c r) as (t & m & fuel' & Ht & Hm & Hlt & Hr); [|done|].
    { eapply Forall_forall; [exact Hall|].
      apply last_Some in Hlast as [l' ->]. apply elem_of_app. right. by left. }
    exists t, m, fuel'. split; [|split; [done|]; split; [lia | done]].
    rewrite leaves_Node. by eapply last_stack_leaves.
Qed.

(** A visitor with one method, for the leaves of type "a": it returns the
    index of the leaf. *)
Definition index_visitor : @Visitor.visitor nat unit :=
  λ name, if decide (name = "visit_a") then Some (λ _ _ tree,
                                                    match tree with
                                                    | Leaf t => Ok (index t)
                                                    | Node _ _ => Ok 0
                                                    end)
          else None.

Lemma visit_last_leaf_witness :
  ∃ t m fuel',
    last (leaves (Node "list" [leaf "a" 1; Node "item" [leaf "a" 2]])) = Some t
    ∧ index_visitor ("visit_" +:+ type t) = Some m
    ∧ fuel' < 3
    ∧ m (Visitor.visit fuel' index_visitor) tt (Leaf t) = Ok 2.
Proof.
  apply (visit_last_leaf nat unit 3 index_visitor tt
           (Node "list" [leaf "a" 1; Node "item" [leaf "a" 2]]) 2).
  - vm_compute. tauto.
  - vm_compute. reflexivity.
Defined.

(** * The table kept in a file *)

(** X21.  A parser made with a version for which there is no file builds
    its table and writes it to the file of the version.  Every parser made
    afterwards with this version, whatever its rules (that pass the check)
    and its start symbol, takes the table of the first one from the file,
    with [null] in the place of the holes of the [cameFrom] arrays, and
    leaves the files as they are. *)
Theorem persist_reload :
  ∀ (fuel : nat) (rules : RuleSet) (start version : string) (files files' : Files)
    (actionTable : ActionTable),
    version ≠ "" →
    files !! Persist.file_name version = None →
    Persist.new fuel rules start (Some version) files = Ok (actionTable, files') →
    Parser.new fuel rules start = Ok actionTable
    ∧ files' = <[Persist.file_name version := stringify actionTable]> files
    ∧ ∀ (fuel' : nat) (rules' : RuleSet) (start' : string),
        Parser.check_rules rules' = Ok tt →
        Persist.new fuel' rules' start' (Some version) files' =
          Ok (null_holes actionTable, files').
Proof.
  intros fuel rules start version files files' actionTable Hv Hnone.
  unfold Persist.new, Parser.new.
  destruct (Parser.check_rules rules) as [[]| |]; simpl; [|done..].
  rewrite decide_False by done. simpl. rewrite Hnone.
  destruct (buildTable fuel rules start) as [table| |]; simpl; [|done..].
  intros [= -> <-]. split; [done|]. split; [done|].
  intros fuel' rules' start' ->. simpl.
  by rewrite lookup_insert_eq, table_of_json_stringify.
Qed.

Lemma persist_reload_witness :
  ∃ actionTable files',
    Persist.new 50 list_rules "list" (Some "1") ∅ = Ok (actionTable, files')
    ∧ Persist.new 0 [] "" (Some "1") files' = Ok (null_holes actionTable, files').
Proof.
  destruct (Persist.new 50 list_rules "list" (Some "1") ∅)
    as [[actionTable files']| |] eqn:Hnew; [|by vm_compute in Hnew..].
  exists actionTable, files'. split; [done|].
  refine (proj2 (proj2 (persist_reload 50 list_rules "list" "1" ∅ files' actionTable
                          _ _ Hnew)) 0 [] "" _).
  - discriminate.
  - apply lookup_empty.
  - reflexivity.
Defined.
